(** * psparser: the PartySlate segment stream decoder and field extractor

    A shallow embedding of
    - [src/core/partyslate/models.py]: [LenientJSONDecoder.get_obj_length],
      [get_next_hex_string], [get_next_data_type_string];
    - [src/core/partyslate/parser.py]: the framing loop of
      [merge_next_f_scripts] (from [other = combined] on; the push-call
      extraction before it is regex and HTML work that no statement below
      depends on);
    - [src/core/partyslate/client.py]: [extract_data_from_scripts] and its
      three index helpers.

    A Python [str] is a list of code points ([list N]).  The JSON scanner
    follows CPython's C scanner ([Modules/_json.c]), which [json] uses by
    default; the interpreter's recursion limit on nesting depth is not
    modelled. *)

From Stdlib Require Import ZArith NArith String Ascii Lia.
From stdpp Require Import base list.

Local Open Scope N_scope.
Set Warnings "-register-all".

(* ================================================================== *)
(** ** Python strings *)

Definition pystr := list N.

Definition ch (a : ascii) : N := N_of_ascii a.
Definition str (s : string) : pystr := map N_of_ascii (list_ascii_of_string s).

(** the same, writing the double quote character as a backquote *)
Definition qstr (s : string) : pystr :=
  map (fun c => if c =? 96 then 34 else c) (str s).

Fixpoint prefixb (p s : pystr) : bool :=
  match p, s with
  | [], _ => true
  | a :: p', b :: s' => (a =? b) && prefixb p' s'
  | _ :: _, [] => false
  end.

(** index of the first occurrence of [pat] in [s], counted from [i] *)
Fixpoint find_from (pat s : pystr) (i : nat) : option nat :=
  if prefixb pat s then Some i
  else match s with
       | [] => None
       | _ :: s' => find_from pat s' (S i)
       end.

(** [s.find(pat)] *)
Definition py_find (pat s : pystr) : Z :=
  match find_from pat s 0 with Some i => Z.of_nat i | None => (-1)%Z end.

(** [pat in s] *)
Definition py_in (pat s : pystr) : bool :=
  match find_from pat s 0 with Some _ => true | None => false end.

(** [s.startswith(p)] *)
Definition py_startswith (p s : pystr) : bool := prefixb p s.

(** [s[:n]] and [s[n:]] *)
Definition py_take (n : Z) (s : pystr) : pystr :=
  if (n <? 0)%Z then firstn (length s - Z.to_nat (- n)) s else firstn (Z.to_nat n) s.
Definition py_drop (n : Z) (s : pystr) : pystr :=
  if (n <? 0)%Z then skipn (length s - Z.to_nat (- n)) s else skipn (Z.to_nat n) s.

(** [s.split(sep, 1)[1]]: the part after the first occurrence of [sep];
    [None] where Python raises (empty separator, or no occurrence, in which
    case the split has one piece and [[1]] is an IndexError) *)
Definition split1_tail (sep s : pystr) : option pystr :=
  match sep with
  | [] => None
  | _ => match find_from sep s 0 with
         | Some i => Some (skipn (i + length sep) s)
         | None => None
         end
  end.

(* ================================================================== *)
(** ** Python floats (IEEE binary64) and JSON values *)

(** [FFin neg m e] is (-1)^neg * m * 2^e *)
Inductive pyfloat :=
| FNaN
| FInf (neg : bool)
| FFin (neg : bool) (m e : Z).

Local Open Scope Z_scope.

(** round num/den (num >= 0, den > 0) to nearest binary64, ties to even *)
Definition round64 (neg : bool) (num den : Z) : pyfloat :=
  if (num =? 0)%Z then FFin neg 0 0 else
  let k0 := (Z.log2 num - Z.log2 den)%Z in
  let at_least k :=
    if (0 <=? k)%Z then (den * 2 ^ k <=? num)%Z else (den <=? num * 2 ^ (- k))%Z in
  let k := if at_least k0 then k0 else (k0 - 1)%Z in
  let e := Z.max (k - 52) (-1074) in
  let '(q, r, d) :=
    if (0 <=? e)%Z then let d := (den * 2 ^ e)%Z in (num / d, num mod d, d)
    else let n' := (num * 2 ^ (- e))%Z in (n' / den, n' mod den, den) in
  let q' := if (d <? 2 * r)%Z || ((2 * r =? d)%Z && Z.odd q) then (q + 1)%Z else q in
  if (1024 <=? Z.log2 q' + e)%Z then FInf neg else FFin neg q' e.

Local Open Scope N_scope.

(** the value of a parsed JSON text, as CPython builds it: [None], [bool],
    [int], [float], [str], [list], [dict] (a dict as its key/value pairs in
    source order; on duplicate keys the last value wins) *)
Inductive jvalue :=
| JNull
| JBool (b : bool)
| JInt (z : Z)
| JFloat (f : pyfloat)
| JStr (s : pystr)
| JArr (l : list jvalue)
| JObj (kv : list (pystr * jvalue)).

(* ================================================================== *)
(** ** The JSON scanner ([Modules/_json.c]) *)

Definition is_ws (c : N) : bool :=
  (c =? 32) || (c =? 9) || (c =? 10) || (c =? 13).

(** [_WHITESPACE.match(s, i).end()]: the suffix after the whitespace run *)
Fixpoint skip_ws (s : pystr) : pystr :=
  match s with
  | c :: s' => if is_ws c then skip_ws s' else s
  | [] => []
  end.

Definition is_digit (c : N) : bool := (48 <=? c) && (c <=? 57).

Fixpoint span_digits (s : pystr) : pystr * pystr :=
  match s with
  | c :: s' => if is_digit c then let '(ds, r) := span_digits s' in (c :: ds, r) else ([], s)
  | [] => ([], [])
  end.

Definition digits_value (ds : pystr) : Z :=
  fold_left (fun acc (d : N) => (10 * acc + Z.of_N (d - 48)%N)%Z) ds 0%Z.

(** [float(numstr)] for the literal sign/int/frac/exp *)
Definition float_of_literal (neg : bool) (ip fp : pystr) (eneg : bool) (ep : pystr) : pyfloat :=
  let m := digits_value (ip ++ fp) in
  let e10 := ((if eneg then - digits_value ep else digits_value ep) - Z.of_nat (length fp))%Z in
  if (0 <=? e10)%Z then round64 neg (m * 10 ^ e10) 1 else round64 neg m (10 ^ (- e10)).

(** [_match_number_unicode] reads -?(0|[1-9][0-9]* )(.[0-9]+)?([eE][-+]?[0-9]+)?
    greedily, in four steps. The optional minus sign: *)
Definition num_sign (s : pystr) : bool * pystr :=
  match s with c :: r => if c =? 45 then (true, r) else (false, s) | [] => (false, s) end.

(** the integer part; [None] raises StopIteration *)
Definition num_int (s : pystr) : option (pystr * pystr) :=
  match s with
  | c :: r =>
      if (49 <=? c) && (c <=? 57) then let '(ds, r2) := span_digits r in Some (c :: ds, r2)
      else if c =? 48 then Some ([c], r)
      else None
  | [] => None
  end.

(** the fraction digits, taken when a digit follows the dot *)
Definition num_frac (s : pystr) : pystr * pystr :=
  match s with
  | d0 :: d1 :: r => if (d0 =? 46) && is_digit d1 then let '(ds, r') := span_digits r in (d1 :: ds, r') else ([], s)
  | _ => ([], s)
  end.

(** the exponent: whether there is one, its sign and its digits; without
    digits the [e] is given back *)
Definition num_exp (s : pystr) : bool * bool * pystr * pystr :=
  match s with
  | e :: r =>
      if (e =? 101) || (e =? 69) then
        let '(sg, r') := match r with
                         | x :: r'' => if x =? 45 then (true, r'') else if x =? 43 then (false, r'') else (false, r)
                         | [] => (false, r)
                         end in
        match span_digits r' with
        | ([], _) => (false, false, [], s)
        | (ds, r'') => (true, sg, ds, r'')
        end
      else (false, false, [], s)
  | [] => (false, false, [], s)
  end.

(** [sys.get_int_max_str_digits()] at its default: [int] raises
    ValueError on a decimal literal of more digits (CPython 3.11 and later,
    and the security releases of 3.7 to 3.10 that backport the limit) *)
Definition int_max_str_digits : nat := 4300.

(** the number and the rest; an [int] when there is neither fraction nor
    exponent, which [PyLong_FromString] refuses beyond
    [int_max_str_digits] digits *)
Definition match_number (s : pystr) : option (jvalue * pystr) :=
  let '(neg, s1) := num_sign s in
  match num_int s1 with
  | None => None
  | Some (ip, r2) =>
      let '(fp, r3) := num_frac r2 in
      let '(has_exp, eneg, ep, r4) := num_exp r3 in
      match fp, has_exp with
      | [], false =>
          if (int_max_str_digits <? length ip)%nat then None
          else Some (JInt (if neg then - digits_value ip else digits_value ip)%Z, r4)
      | _, _ => Some (JFloat (float_of_literal neg ip fp eneg ep), r4)
      end
  end.

Definition hex_digit_value (c : N) : option N :=
  if (48 <=? c) && (c <=? 57) then Some (c - 48)
  else if (97 <=? c) && (c <=? 102) then Some (c - 87)
  else if (65 <=? c) && (c <=? 70) then Some (c - 55)
  else None.

Definition hex4 (a b c d : N) : option N :=
  match hex_digit_value a, hex_digit_value b, hex_digit_value c, hex_digit_value d with
  | Some x, Some y, Some z, Some w => Some (((x * 16 + y) * 16 + z) * 16 + w)
  | _, _, _, _ => None
  end.

Definition is_high_surrogate (c : N) : bool := (55296 <=? c) && (c <=? 56319).
Definition is_low_surrogate (c : N) : bool := (56320 <=? c) && (c <=? 57343).

(** [scanstring_unicode] (strict): the input starts after the opening quote;
    returns the decoded string and the input after the closing quote *)
Fixpoint scan_string (s : pystr) (acc : pystr) {struct s} : option (pystr * pystr) :=
  match s with
  | [] => None
  | c :: r =>
      if c =? 34 then Some (rev acc, r)
      else if c =? 92 then
        match r with
        | [] => None
        | e :: r1 =>
            if e =? 117 then
              match r1 with
              | h1 :: h2 :: h3 :: h4 :: r2 =>
                  match hex4 h1 h2 h3 h4, r2 with
                  | None, _ => None
                  | Some _, [] => None
                  | Some u, _ :: _ =>
                      if is_high_surrogate u then
                        match r2 with
                        | b :: v :: g1 :: g2 :: g3 :: g4 :: (_ :: _) as r3 =>
                            if (b =? 92) && (v =? 117) then
                              match hex4 g1 g2 g3 g4 with
                              | None => None
                              | Some u2 =>
                                  if is_low_surrogate u2 then
                                    scan_string r3 ((65536 + (u - 55296) * 1024 + (u2 - 56320)) :: acc)
                                  else scan_string r2 (u :: acc)
                              end
                            else scan_string r2 (u :: acc)
                        | _ => scan_string r2 (u :: acc)
                        end
                      else scan_string r2 (u :: acc)
                  end
              | _ => None
              end
            else if e =? 34 then scan_string r1 (34 :: acc)
            else if e =? 92 then scan_string r1 (92 :: acc)
            else if e =? 47 then scan_string r1 (47 :: acc)
            else if e =? 98 then scan_string r1 (8 :: acc)
            else if e =? 102 then scan_string r1 (12 :: acc)
            else if e =? 110 then scan_string r1 (10 :: acc)
            else if e =? 114 then scan_string r1 (13 :: acc)
            else if e =? 116 then scan_string r1 (9 :: acc)
            else None
        end
      else if c <=? 31 then None
      else scan_string r (c :: acc)
  end.

(** [scan_once_unicode], [_parse_object_unicode], [_parse_array_unicode].
    [fuel] bounds the recursion; [S (length s)] is always enough
    ([scan_once_complete] below). [budget] is what is left of the
    interpreter's recursion limit: [scan_once_unicode] calls
    [Py_EnterRecursiveCall] before it parses an object or an array, which
    raises RecursionError once the limit is used up. *)
Fixpoint scan_once (fuel budget : nat) (s : pystr) {struct fuel} : option (jvalue * pystr) :=
  match fuel with
  | O => None
  | S f =>
      match s with
      | [] => None
      | c :: r =>
          if c =? 123 then
            match budget with
            | O => None
            | S b =>
                match skip_ws r with
                | c' :: r' => if c' =? 125 then Some (JObj [], r') else parse_members f b (c' :: r') []
                | [] => None
                end
            end
          else if c =? 91 then
            match budget with
            | O => None
            | S b =>
                match skip_ws r with
                | c' :: r' => if c' =? 93 then Some (JArr [], r') else parse_elements f b (c' :: r') []
                | [] => None
                end
            end
          else if c =? 34 then
            match scan_string r [] with Some (t, r') => Some (JStr t, r') | None => None end
          else if (c =? 110) && prefixb (str "ull") r then Some (JNull, skipn 3 r)
          else if (c =? 116) && prefixb (str "rue") r then Some (JBool true, skipn 3 r)
          else if (c =? 102) && prefixb (str "alse") r then Some (JBool false, skipn 4 r)
          else if (c =? 78) && prefixb (str "aN") r then Some (JFloat FNaN, skipn 2 r)
          else if (c =? 73) && prefixb (str "nfinity") r then Some (JFloat (FInf false), skipn 7 r)
          else if (c =? 45) && prefixb (str "Infinity") r then Some (JFloat (FInf true), skipn 8 r)
          else match_number s
      end
  end
with parse_members (fuel budget : nat) (s : pystr) (acc : list (pystr * jvalue)) {struct fuel}
  : option (jvalue * pystr) :=
  match fuel with
  | O => None
  | S f =>
      match s with
      | c :: r =>
          if c =? 34 then
            match scan_string r [] with
            | None => None
            | Some (key, r1) =>
                match skip_ws r1 with
                | d :: r2 =>
                    if d =? 58 then
                      match scan_once f budget (skip_ws r2) with
                      | None => None
                      | Some (v, r3) =>
                          match skip_ws r3 with
                          | e :: r4 =>
                              if e =? 125 then Some (JObj (rev ((key, v) :: acc)), r4)
                              else if e =? 44 then parse_members f budget (skip_ws r4) ((key, v) :: acc)
                              else None
                          | [] => None
                          end
                      end
                    else None
                | [] => None
                end
            end
          else None
      | [] => None
      end
  end
with parse_elements (fuel budget : nat) (s : pystr) (acc : list jvalue) {struct fuel}
  : option (jvalue * pystr) :=
  match fuel with
  | O => None
  | S f =>
      match scan_once f budget s with
      | None => None
      | Some (v, r3) =>
          match skip_ws r3 with
          | e :: r4 =>
              if e =? 93 then Some (JArr (rev (v :: acc)), r4)
              else if e =? 44 then parse_elements f budget (skip_ws r4) (v :: acc)
              else None
          | [] => None
          end
      end
  end.

(** the nesting depth [scan_once_unicode] can reach before RecursionError:
    [sys.getrecursionlimit()] at its default, less the frames already on
    the stack. The exact figure depends on the interpreter version and on
    the depth of the call; the properties of the scanner below are proved
    for every budget ([raw_decode_in], [get_obj_length_in]). *)
Definition recursion_budget : nat := 1000.

(** [JSONDecoder.raw_decode(s, idx)] on the suffix starting at [idx], with
    [b] nesting levels left before RecursionError *)
Definition raw_decode_in (b : nat) (s : pystr) : option (jvalue * pystr) :=
  scan_once (S (length s)) b s.

Definition raw_decode (s : pystr) : option (jvalue * pystr) := raw_decode_in recursion_budget s.

(** [LenientJSONDecoder.get_obj_length(s)]: the index after the value and
    the whitespace following it; [None] where it raises (JSONDecodeError,
    ValueError on an over-long [int], RecursionError) *)
Definition get_obj_length_in (b : nat) (s : pystr) : option nat :=
  match raw_decode_in b (skip_ws s) with
  | Some (_, r) => Some (length s - length (skip_ws r))%nat
  | None => None
  end.

Definition get_obj_length (s : pystr) : option nat := get_obj_length_in recursion_budget s.

(** [json.loads(s)]: rejects a leading BOM, then [JSONDecoder.decode], which
    requires only whitespace after the value; a non-[str] argument raises *)
Definition json_loads (v : jvalue) : option jvalue :=
  match v with
  | JStr s =>
      if prefixb [65279] s then None
      else match raw_decode (skip_ws s) with
           | Some (x, r) => match skip_ws r with [] => Some x | _ => None end
           | None => None
           end
  | _ => None
  end.

(** [json.loads(s, cls=LenientJSONDecoder)]: [LenientJSONDecoder.decode]
    ignores whatever follows the value *)
Definition json_loads_lenient (v : jvalue) : option jvalue :=
  match v with
  | JStr s =>
      if prefixb [65279] s then None
      else match raw_decode (skip_ws s) with Some (x, _) => Some x | None => None end
  | _ => None
  end.

(* ================================================================== *)
(** ** The segment framer ([models.py] helpers, [merge_next_f_scripts]) *)

Definition hex_alpha : pystr := str "0123456789abcdef".

(** [get_next_hex_string] *)
Fixpoint get_next_hex_string (s : pystr) : pystr :=
  match s with
  | c :: s' => if existsb (N.eqb c) hex_alpha then c :: get_next_hex_string s' else []
  | [] => []
  end.

Definition alpha_stop : pystr := qstr "`{[n".

(** [get_next_data_type_string]: [res] is the run collected so far *)
Fixpoint get_next_data_type_string_from (s res : pystr) : pystr :=
  match s with
  | c :: s' =>
      if c =? ch "T" then [ch "T"]
      else if existsb (N.eqb c) alpha_stop then res
      else get_next_data_type_string_from s' (res ++ [c])
  | [] => res
  end.

Definition get_next_data_type_string (s : pystr) : pystr :=
  get_next_data_type_string_from s [].

(** [int(h, 16)] for a run of lowercase hex digits *)
Definition hex_value (h : pystr) : Z :=
  fold_left (fun acc (c : N) => (16 * acc + Z.of_N (if (c <=? 57)%N then (c - 48)%N else (c - 87)%N))%Z) h 0%Z.

(** one decoded entry: the dict with keys [hex_string], [data_type],
    [obj_length], [val]; [val] holds a Python object because the field
    extractor may store a non-string there *)
Record frame := mkFrame {
  hex_string : pystr;
  data_type : pystr;
  obj_length : Z;
  val : jvalue
}.

(** the two resync signatures, in the order the loop tries them *)
Definition sig_typename : pystr := qstr ":{`__typename".
Definition sig_L1f : pystr := qstr "[`$`,`$L1f`,".
Definition resync_checks : list pystr := [sig_typename; sig_L1f].

(** lines 90-98: [val + other[:20]] is searched for each signature in turn;
    on the first hit the remaining buffer restarts two characters before the
    signature's first occurrence in the pre-slice buffer [backup_other] *)
Fixpoint resync (checks : list pystr) (v other backup_other : pystr) : pystr :=
  match checks with
  | [] => other
  | c :: cs =>
      if py_in c (v ++ py_take 20 other) then
        let index_start := (py_find c backup_other - 2)%Z in
        let index_start := if (index_start <? 0)%Z then 0%Z else index_start in
        py_drop index_start backup_other
      else resync cs v other backup_other
  end.

(** lines 55-75: the id, the delimiter, the type tag and the declared length *)
Inductive header :=
| HBreak                                                  (* [break] *)
| HRaise                                                  (* an exception *)
| HGo (hex_string data_type : pystr) (declared : option Z) (other : pystr).

Definition read_header (other : pystr) : header :=
  let hex_string := get_next_hex_string other in
  match hex_string with
  | [] => HBreak
  | _ =>
      match split1_tail hex_string other with
      | None => HRaise
      | Some t =>
          let other := skipn 1 t in
          let data_type := get_next_data_type_string other in
          match data_type with
          | [] => HGo hex_string data_type None other
          | _ =>
              if bool_decide (data_type = [ch "T"]) then
                let length_hex := get_next_hex_string (skipn 1 other) in
                match length_hex with
                | [] => HBreak
                | _ =>
                    match split1_tail length_hex other with
                    | None => HRaise
                    | Some t' => HGo hex_string data_type (Some (hex_value length_hex)) (skipn 1 t')
                    end
                end
              else
                match split1_tail data_type other with
                | None => HRaise
                | Some t' => HGo hex_string data_type None t'
                end
          end
      end
  end.

(** lines 77-84: the probe is mandatory without a declared length, and
    overrides the declared length when it succeeds *)
Definition frame_length (declared : option Z) (other : pystr) : option Z :=
  match declared with
  | None => option_map Z.of_nat (get_obj_length other)
  | Some length =>
      match get_obj_length other with
      | Some attempt => Some (Z.of_nat attempt)
      | None => Some length
      end
  end.

(** one pass of the [while True] body *)
Inductive step_result :=
| SBreak
| SRaise
| SNext (entry : frame) (other : pystr).

Definition step (other : pystr) : step_result :=
  match read_header other with
  | HBreak => SBreak
  | HRaise => SRaise
  | HGo hex_string data_type declared other =>
      match frame_length declared other with
      | None => SRaise
      | Some obj_length =>
          let v := py_take obj_length other in
          let backup_other := other in
          let other := py_drop obj_length other in
          let other :=
            if bool_decide (data_type = [ch "T"])
            then resync resync_checks v other backup_other else other in
          SNext (mkFrame hex_string data_type obj_length (JStr v)) other
      end
  end.

(** the loop; [acc] holds the entries appended so far (in order);
    [None] is an exception escaping [merge_next_f_scripts] *)
Fixpoint frames_loop (fuel : nat) (other : pystr) (acc : list frame) : option (list frame) :=
  match fuel with
  | O => None
  | S f =>
      match step other with
      | SBreak => Some acc
      | SRaise => None
      | SNext entry other' =>
          match other' with
          | [] => Some (acc ++ [entry])
          | _ => frames_loop f other' (acc ++ [entry])
          end
      end
  end.

(** decoding a combined buffer (each pass shortens the buffer, so
    [S (length combined)] passes always suffice: [frames_loop_terminates]) *)
Definition decode (combined : pystr) : option (list frame) :=
  frames_loop (S (length combined)) combined [].

(** the [while True] loop with no bound on its passes, as a big-step
    relation: [loop_runs other acc res] when the loop started on [other]
    with the entries [acc] ends, returning [Some] of the entries at a
    [break] or when the buffer runs empty, and [None] when an exception
    escapes *)
Inductive loop_runs : pystr -> list frame -> option (list frame) -> Prop :=
| LR_break (other : pystr) (acc : list frame) :
    step other = SBreak -> loop_runs other acc (Some acc)
| LR_raise (other : pystr) (acc : list frame) :
    step other = SRaise -> loop_runs other acc None
| LR_last (other : pystr) (acc : list frame) (entry : frame) :
    step other = SNext entry [] -> loop_runs other acc (Some (acc ++ [entry]))
| LR_next (other : pystr) (acc : list frame) (entry : frame) (c : N) (rest : pystr)
    (res : option (list frame)) :
    step other = SNext entry (c :: rest) -> loop_runs (c :: rest) (acc ++ [entry]) res ->
    loop_runs other acc res.

(* ================================================================== *)
(** ** Python operations on decoded values *)

(** [bool(v)] *)
Definition py_truthy (v : jvalue) : bool :=
  match v with
  | JNull => false
  | JBool b => b
  | JInt z => negb (z =? 0)%Z
  | JFloat (FFin _ m _) => negb (m =? 0)%Z
  | JFloat _ => true
  | JStr s => negb (length s =? 0)%nat
  | JArr l => negb (length l =? 0)%nat
  | JObj kv => negb (length kv =? 0)%nat
  end.

(** [d[k]] on a dict built from JSON pairs: the last binding wins *)
Fixpoint dict_lookup (kv : list (pystr * jvalue)) (k : pystr) : option jvalue :=
  match kv with
  | [] => None
  | (k', v) :: kv' =>
      match dict_lookup kv' k with
      | Some w => Some w
      | None => if bool_decide (k' = k) then Some v else None
      end
  end.

(** [d.get(k, default)]; [None] when [d] is not a dict (AttributeError) *)
Definition py_get_default (d : jvalue) (k : pystr) (default : jvalue) : option jvalue :=
  match d with
  | JObj kv => Some (match dict_lookup kv k with Some v => v | None => default end)
  | _ => None
  end.

(** [d.get(k)] *)
Definition py_get (d : jvalue) (k : pystr) : option jvalue := py_get_default d k JNull.

(** [v[3]]: a list element, a one-character string, or an exception *)
Definition py_getitem3 (v : jvalue) : option jvalue :=
  match v with
  | JArr l => l !! 3%nat
  | JStr s => option_map (fun c => JStr [c]) (s !! 3%nat)
  | _ => None
  end.

(** numbers as dict keys: bool, int and finite float compare by exact value *)
Inductive pynum := NFin (a e : Z) | NInf (neg : bool) | NNaN.

Definition num_of (v : jvalue) : option pynum :=
  match v with
  | JBool b => Some (NFin (if b then 1 else 0)%Z 0)
  | JInt z => Some (NFin z 0)
  | JFloat (FFin neg m e) => Some (NFin (if neg then - m else m)%Z e)
  | JFloat (FInf neg) => Some (NInf neg)
  | JFloat FNaN => Some NNaN
  | _ => None
  end.

(** equality of two dict keys; every NaN [json] produces is the one object
    [json.decoder.NaN], so NaN keys coincide by identity *)
Definition key_eq (a b : jvalue) : bool :=
  match a, b with
  | JStr x, JStr y => bool_decide (x = y)
  | JNull, JNull => true
  | _, _ =>
      match num_of a, num_of b with
      | Some (NFin a1 e1), Some (NFin a2 e2) =>
          let e := Z.min e1 e2 in (a1 * 2 ^ (e1 - e) =? a2 * 2 ^ (e2 - e))%Z
      | Some (NInf n1), Some (NInf n2) => Bool.eqb n1 n2
      | Some NNaN, Some NNaN => true
      | _, _ => false
      end
  end.

Definition hashable (v : jvalue) : bool :=
  match v with JArr _ | JObj _ => false | _ => true end.

(** [d[k] = v] on a dict of hashable keys, kept in insertion order *)
Fixpoint dict_set (d : list (jvalue * jvalue)) (k v : jvalue) : list (jvalue * jvalue) :=
  match d with
  | [] => [(k, v)]
  | (k', v') :: d' => if key_eq k' k then (k', v) :: d' else (k', v') :: dict_set d' k v
  end.

Definition NAME : pystr := str "name".

(** one pass of [{m["name"]: m.get("title") for m in team if "name" in m}] *)
Definition team_member (d : list (jvalue * jvalue)) (m : jvalue) : option (list (jvalue * jvalue)) :=
  match m with
  | JObj kv =>
      match dict_lookup kv NAME with
      | Some k =>
          if hashable k
          then Some (dict_set d k (match dict_lookup kv (str "title") with Some t => t | None => JNull end))
          else None
      | None => Some d
      end
  | JStr s => if py_in NAME s then None else Some d
  | JArr l => if existsb (fun x => match x with JStr y => bool_decide (y = NAME) | _ => false end) l
              then None else Some d
  | _ => None
  end.

Fixpoint team_members_loop (d : list (jvalue * jvalue)) (ms : list jvalue) : option (list (jvalue * jvalue)) :=
  match ms with
  | [] => Some d
  | m :: ms' => match team_member d m with Some d' => team_members_loop d' ms' | None => None end
  end.

(** the whole comprehension, iterating [team] as Python does: a list by its
    elements, a string by its one-character strings, a dict by its keys;
    anything else is not iterable *)
Definition team_members_dict (team : jvalue) : option (list (jvalue * jvalue)) :=
  match team with
  | JArr ms => team_members_loop [] ms
  | JStr s => team_members_loop [] (map (fun c => JStr [c]) s)
  | JObj kv => team_members_loop [] (map (fun p => JStr p.1) kv)
  | _ => None
  end.

(* ================================================================== *)
(** ** The field extractor ([PartySlateClient] in [client.py]) *)

(** the dict [out] of [extract_data_from_scripts]; its keys are always
    inserted in this order *)
Record business_record := mkRecord {
  url : option jvalue;
  facebookUrl : option jvalue;
  instagramUrl : option jvalue;
  teamMembers : option (list (jvalue * jvalue))
}.

Definition empty_record : business_record := mkRecord None None None None.

(** the mutable state: the entry list passed in (shared with the caller)
    and [out] *)
Record st := mkSt { entries : list frame; out : business_record }.

(** statements that may raise; a raised exception keeps the effects done
    before it *)
Definition M (A : Type) : Type := st -> option A * st.

Definition ret {A} (a : A) : M A := fun s => (Some a, s).
Definition bind {A B} (m : M A) (k : A -> M B) : M B :=
  fun s => match m s with (Some a, s') => k a s' | (None, s') => (None, s') end.
Definition raise {A} : M A := fun s => (None, s).
Definition lift {A} (o : option A) : M A := match o with Some a => ret a | None => raise end.
(** [try: ... except Exception: pass] *)
Definition try_except (m : M unit) : M unit := fun s => (Some tt, snd (m s)).

Notation "x <- m ;; k" := (bind m (fun x => k)) (at level 100, m at next level, right associativity).
Notation "m ;;; k" := (bind m (fun _ => k)) (at level 100, right associativity).

Definition get_entries : M (list frame) := fun s => (Some (entries s), s).

Definition with_val (e : frame) (v : jvalue) : frame :=
  mkFrame (hex_string e) (data_type e) (obj_length e) v.

(** [scripts[i]["val"] = v] (an IndexError out of range) *)
Definition set_entry_val (i : nat) (v : jvalue) : M unit :=
  fun s => match entries s !! i with
           | Some e => (Some tt, mkSt (<[i := with_val e v]> (entries s)) (out s))
           | None => (None, s)
           end.

Inductive out_key := KUrl | KFacebookUrl | KInstagramUrl.

(** [out[key] = v] *)
Definition set_out (k : out_key) (v : jvalue) : M unit :=
  fun s => let o := out s in
    (Some tt, mkSt (entries s)
      (match k with
       | KUrl => mkRecord (Some v) (facebookUrl o) (instagramUrl o) (teamMembers o)
       | KFacebookUrl => mkRecord (url o) (Some v) (instagramUrl o) (teamMembers o)
       | KInstagramUrl => mkRecord (url o) (facebookUrl o) (Some v) (teamMembers o)
       end)).

Definition set_out_team (d : list (jvalue * jvalue)) : M unit :=
  fun s => let o := out s in
    (Some tt, mkSt (entries s) (mkRecord (url o) (facebookUrl o) (instagramUrl o) (Some d))).

Definition key_name (k : out_key) : pystr :=
  match k with
  | KUrl => str "url"
  | KFacebookUrl => str "facebookUrl"
  | KInstagramUrl => str "instagramUrl"
  end.

(** [_get_script2_index] *)
Fixpoint get_script2_index_from (scripts : list frame) (i : nat) : Z :=
  match scripts with
  | [] => (-1)%Z
  | script :: rest =>
      match val script with
      | JStr v => if py_startswith (qstr "{`@context`") v then Z.of_nat i
                  else get_script2_index_from rest (S i)
      | _ => get_script2_index_from rest (S i)
      end
  end.

Definition get_script2_index (scripts : list frame) : Z := get_script2_index_from scripts 0.

Definition s_marker : pystr := qstr "{`dangerouslySetInnerHTML`".
(** the escaped context marker [{\"@context\"] *)
Definition s2 : pystr := qstr "{\`@context\`".

(** [json.loads(sub, cls=LenientJSONDecoder)["dangerouslySetInnerHTML"]["__html"]] *)
Definition unwrap_inner_html (sub : pystr) : option jvalue :=
  match json_loads_lenient (JStr sub) with
  | Some (JObj kv) =>
      match dict_lookup kv (str "dangerouslySetInnerHTML") with
      | Some (JObj kv') => dict_lookup kv' (str "__html")
      | _ => None
      end
  | _ => None
  end.

(** [_get_script2_alt_index]: the only statement that mutates an entry *)
Fixpoint get_script2_alt_index_from (scripts : list frame) (i : nat) : M Z :=
  match scripts with
  | [] => ret (-1)%Z
  | script :: rest =>
      match val script with
      | JStr v =>
          let idx := py_find s_marker v in
          if (idx =? -1)%Z then get_script2_alt_index_from rest (S i)
          else
            let sub := py_drop idx v in
            if py_in s2 sub then
              match unwrap_inner_html sub with
              | Some inner_html => set_entry_val i inner_html ;;; ret (Z.of_nat i)
              | None => get_script2_alt_index_from rest (S i)
              end
            else get_script2_alt_index_from rest (S i)
      | _ => raise                        (* [val.find] on a non-str *)
      end
  end.

Definition get_script2_alt_index : M Z :=
  scripts <- get_entries ;; get_script2_alt_index_from scripts 0.

(** [_get_script4_index] *)
Fixpoint get_script4_index_from (scripts : list frame) (i : nat) : Z :=
  match scripts with
  | [] => (-1)%Z
  | script :: rest =>
      if bool_decide (hex_string script = str "4") then Z.of_nat i
      else get_script4_index_from rest (S i)
  end.

Definition get_script4_index (scripts : list frame) : Z := get_script4_index_from scripts 0.

(** [script_entries[idx]["val"]] *)
Definition entry_val (idx : Z) : M jvalue :=
  scripts <- get_entries ;;
  match scripts !! Z.to_nat idx with Some e => ret (val e) | None => raise end.

(** the first [try] block: the site-metadata lookup *)
Definition site_block : M unit :=
  scripts <- get_entries ;;
  let idx := get_script2_index scripts in
  idx <- (if (idx =? -1)%Z then get_script2_alt_index else ret idx) ;;
  if (idx =? -1)%Z then ret tt
  else
    script_text <- entry_val idx ;;
    data <- lift (json_loads script_text) ;;
    u <- lift (py_get data (key_name KUrl)) ;;
    if py_truthy u then set_out KUrl u else ret tt.

Fixpoint copy_keys (pro_data : jvalue) (keys : list out_key) : M unit :=
  match keys with
  | [] => ret tt
  | k :: ks =>
      v <- lift (py_get pro_data (key_name k)) ;;
      (if py_truthy v then set_out k v else ret tt) ;;;
      copy_keys pro_data ks
  end.

(** the second [try] block: the profile lookup *)
Definition profile_block : M unit :=
  scripts <- get_entries ;;
  let idx4 := get_script4_index scripts in
  if (idx4 =? -1)%Z then ret tt
  else
    script_text <- entry_val idx4 ;;
    data <- lift (json_loads script_text) ;;
    inner_json <- lift (py_getitem3 data) ;;
    pro_data <- lift (py_get_default inner_json (str "pro") (JObj [])) ;;
    copy_keys pro_data [KFacebookUrl; KInstagramUrl] ;;;
    team <- lift (py_get pro_data (str "teamMembers")) ;;
    if py_truthy team then
      d <- lift (team_members_dict team) ;; set_out_team d
    else ret tt.

Definition extract_data_from_scripts_st : M unit :=
  try_except site_block ;;; try_except profile_block.

(** [extract_data_from_scripts(script_entries)]: the returned dict, and the
    entry list as the caller sees it afterwards *)
Definition extract_data_from_scripts (script_entries : list frame) : business_record * list frame :=
  let s := snd (extract_data_from_scripts_st (mkSt script_entries empty_record)) in
  (out s, entries s).

(** the combined buffer of the spec's worked example *)
Definition example_buffer : pystr :=
  qstr "4:[null,null,null,{`pro`:{`facebookUrl`:`https://fb.com/x`,`teamMembers`:[{`name`:`Ann Lee`,`title`:`Planner`}]}}]".

(* ================================================================== *)
(** ** Auxiliary notions used by the properties *)

(** a character that [get_next_data_type_string] collects and goes past *)
Definition tag_char_ok (c : N) : Prop := c <> ch "T" /\ existsb (N.eqb c) alpha_stop = false.

(** [pat] occurs at [p] in [s], and nowhere before *)
Definition first_occurrence (pat s : pystr) (p : nat) : Prop :=
  prefixb pat (drop p s) = true /\ forall q, (q < p)%nat -> prefixb pat (drop q s) = false.

(** [pat] occurs in the first [k] characters of [s] *)
Definition in_window (pat s : pystr) (k : nat) : Prop :=
  exists q, prefixb pat (drop q s) = true /\ (q + length pat <= k)%nat.

(** The buffer of the text frame [1:T2,ab]: its declared length 2 stops
    short of the frame [5:{"__typename":"X"}] that follows at offset 3. *)
Definition resync_example : pystr := qstr "1:T2,abc5:{`__typename`:`X`}".

Definition resync_example_rest : pystr := qstr "abc5:{`__typename`:`X`}".

(** [m] leaves the part [proj] of the state alone, whatever it raises *)
Definition keeps {A B} (proj : st -> B) (m : M A) : Prop := forall s, proj (snd (m s)) = proj s.

(** the ids of the entries *)
Definition entry_ids (s : st) : list pystr := hex_string <$> entries s.

Definition out_url (s : st) : option jvalue := url (out s).

Definition out_profile (s : st) : option jvalue * option jvalue * option (list (jvalue * jvalue)) :=
  (facebookUrl (out s), instagramUrl (out s), teamMembers (out s)).

(** [m] reads and writes [out] only: its outcome does not depend on the
    entry list, which it leaves alone *)
Definition out_only {A} (m : M A) : Prop :=
  forall E1 E2 o, m (mkSt E2 o) = (fst (m (mkSt E1 o)), mkSt E2 (out (snd (m (mkSt E1 o))))).

(** the site-metadata lookup of [extract_data_from_scripts fs] selects no
    entry: [_get_script2_index] finds none, and [_get_script2_alt_index]
    returns -1 or raises *)
Definition site_unselected (fs : list frame) : Prop :=
  get_script2_index fs = (-1)%Z /\
  match fst (get_script2_alt_index (mkSt fs empty_record)) with
  | Some i => i = (-1)%Z
  | None => True
  end.

Definition not_profile (g : frame) : Prop := hex_string g <> str "4".

(** the profile entry of [example_buffer] *)
Definition example_frame : frame :=
  mkFrame (str "4") [] (Z.of_nat (length example_buffer) - 2) (JStr (drop 2 example_buffer)).

(** a profile entry whose profile object is empty *)
Definition bare_profile_frame : frame :=
  mkFrame (str "4") [] 19 (JStr (str "[null,null,null,{}]")).

(** an entry holding the wrapper but no escaped context marker: the
    alternative lookup passes over it *)
Definition wrapper_frame : frame :=
  mkFrame (str "1") [] 42 (JStr (qstr "{`dangerouslySetInnerHTML`:{`__html`:`x`}}")).

(** a site-metadata entry *)
Definition site_frame : frame :=
  mkFrame (str "2") [] 42 (JStr (qstr "{`@context`:`x`,`url`:`https://a.example`}")).

(** JSON texts as RFC 8259 writes them; with [ext], also the constants
    [NaN], [Infinity] and [-Infinity] that Python's [json] reads *)
Definition ws_only (w : pystr) : Prop := Forall (fun c => is_ws c = true) w.

Definition digit_list (ds : pystr) : Prop := Forall (fun c => is_digit c = true) ds.

Inductive int_lit : pystr -> Prop :=
| IL_zero : int_lit [48]
| IL_pos (d : N) (ds : pystr) : 49 <= d <= 57 -> digit_list ds -> int_lit (d :: ds).

Inductive frac_lit : pystr -> Prop :=
| FL_none : frac_lit []
| FL_some (ds : pystr) : ds <> [] -> digit_list ds -> frac_lit (46 :: ds).

Inductive exp_lit : pystr -> Prop :=
| EL_none : exp_lit []
| EL_some (e : N) (sg ds : pystr) :
    (e = 101 \/ e = 69) -> (sg = [] \/ sg = [43] \/ sg = [45]) -> ds <> [] -> digit_list ds ->
    exp_lit (e :: sg ++ ds).

Definition number_lit (t : pystr) : Prop :=
  exists sg ip fp ep, t = sg ++ ip ++ fp ++ ep /\ (sg = [] \/ sg = [45]) /\
    int_lit ip /\ frac_lit fp /\ exp_lit ep.

Definition is_hex (c : N) : bool := match hex_digit_value c with Some _ => true | None => false end.

(** one character of a string literal, or one escape *)
Inductive str_chunk : pystr -> Prop :=
| SC_plain (c : N) : 32 <= c -> c <> 34 -> c <> 92 -> str_chunk [c]
| SC_escape (e : N) : In e [34; 92; 47; 98; 102; 110; 114; 116] -> str_chunk [92; e]
| SC_unicode (h1 h2 h3 h4 : N) :
    is_hex h1 = true -> is_hex h2 = true -> is_hex h3 = true -> is_hex h4 = true ->
    str_chunk [92; 117; h1; h2; h3; h4].

Definition string_lit (t : pystr) : Prop :=
  exists chunks, t = [34] ++ concat chunks ++ [34] /\ Forall str_chunk chunks.

Inductive json_text (ext : bool) : pystr -> Prop :=
| JT_null : json_text ext (str "null")
| JT_true : json_text ext (str "true")
| JT_false : json_text ext (str "false")
| JT_nan : ext = true -> json_text ext (str "NaN")
| JT_inf : ext = true -> json_text ext (str "Infinity")
| JT_ninf : ext = true -> json_text ext (str "-Infinity")
| JT_number (t : pystr) : number_lit t -> json_text ext t
| JT_string (t : pystr) : string_lit t -> json_text ext t
| JT_arr_empty (w : pystr) : ws_only w -> json_text ext ([91] ++ w ++ [93])
| JT_arr (e : pystr) : json_elems ext e -> json_text ext ([91] ++ e ++ [93])
| JT_obj_empty (w : pystr) : ws_only w -> json_text ext ([123] ++ w ++ [125])
| JT_obj (m : pystr) : json_members ext m -> json_text ext ([123] ++ m ++ [125])
(** the elements of a non-empty array, without the brackets *)
with json_elems (ext : bool) : pystr -> Prop :=
| JE_one (w1 t w2 : pystr) :
    ws_only w1 -> json_text ext t -> ws_only w2 -> json_elems ext (w1 ++ t ++ w2)
| JE_cons (w1 t w2 e : pystr) :
    ws_only w1 -> json_text ext t -> ws_only w2 -> json_elems ext e ->
    json_elems ext (w1 ++ t ++ w2 ++ [44] ++ e)
(** the members of a non-empty object, without the braces *)
with json_members (ext : bool) : pystr -> Prop :=
| JM_one (w1 k w2 w3 t w4 : pystr) :
    ws_only w1 -> string_lit k -> ws_only w2 -> ws_only w3 -> json_text ext t -> ws_only w4 ->
    json_members ext (w1 ++ k ++ w2 ++ [58] ++ w3 ++ t ++ w4)
| JM_cons (w1 k w2 w3 t w4 m : pystr) :
    ws_only w1 -> string_lit k -> ws_only w2 -> ws_only w3 -> json_text ext t -> ws_only w4 ->
    json_members ext m ->
    json_members ext (w1 ++ k ++ w2 ++ [58] ++ w3 ++ t ++ w4 ++ [44] ++ m).

Scheme json_text_ind' := Induction for json_text Sort Prop
with json_elems_ind' := Induction for json_elems Sort Prop
with json_members_ind' := Induction for json_members Sort Prop.
Combined Scheme json_mutind from json_text_ind', json_elems_ind', json_members_ind'.

(** a number literal that [int] accepts if it is an integer: an integer
    literal has at most [int_max_str_digits] digits *)
Definition int_digits_ok (t : pystr) : Prop :=
  forall sg ip, t = sg ++ ip -> (sg = [] \/ sg = [45]) -> int_lit ip ->
    (length ip <= int_max_str_digits)%nat.

(** the JSON texts Python's [json] turns into a value with [b] nesting
    levels left before RecursionError: [json_text true] with no integer
    literal over the digit limit and no array or object nested more than
    [b] deep *)
Inductive json_in : nat -> pystr -> Prop :=
| JI_null (b : nat) : json_in b (str "null")
| JI_true (b : nat) : json_in b (str "true")
| JI_false (b : nat) : json_in b (str "false")
| JI_nan (b : nat) : json_in b (str "NaN")
| JI_inf (b : nat) : json_in b (str "Infinity")
| JI_ninf (b : nat) : json_in b (str "-Infinity")
| JI_number (b : nat) (t : pystr) : number_lit t -> int_digits_ok t -> json_in b t
| JI_string (b : nat) (t : pystr) : string_lit t -> json_in b t
| JI_arr_empty (b : nat) (w : pystr) : ws_only w -> json_in (S b) ([91] ++ w ++ [93])
| JI_arr (b : nat) (e : pystr) : json_in_elems b e -> json_in (S b) ([91] ++ e ++ [93])
| JI_obj_empty (b : nat) (w : pystr) : ws_only w -> json_in (S b) ([123] ++ w ++ [125])
| JI_obj (b : nat) (m : pystr) : json_in_members b m -> json_in (S b) ([123] ++ m ++ [125])
with json_in_elems : nat -> pystr -> Prop :=
| JIE_one (b : nat) (w1 t w2 : pystr) :
    ws_only w1 -> json_in b t -> ws_only w2 -> json_in_elems b (w1 ++ t ++ w2)
| JIE_cons (b : nat) (w1 t w2 e : pystr) :
    ws_only w1 -> json_in b t -> ws_only w2 -> json_in_elems b e ->
    json_in_elems b (w1 ++ t ++ w2 ++ [44] ++ e)
with json_in_members : nat -> pystr -> Prop :=
| JIM_one (b : nat) (w1 k w2 w3 t w4 : pystr) :
    ws_only w1 -> string_lit k -> ws_only w2 -> ws_only w3 -> json_in b t -> ws_only w4 ->
    json_in_members b (w1 ++ k ++ w2 ++ [58] ++ w3 ++ t ++ w4)
| JIM_cons (b : nat) (w1 k w2 w3 t w4 m : pystr) :
    ws_only w1 -> string_lit k -> ws_only w2 -> ws_only w3 -> json_in b t -> ws_only w4 ->
    json_in_members b m ->
    json_in_members b (w1 ++ k ++ w2 ++ [58] ++ w3 ++ t ++ w4 ++ [44] ++ m).

Scheme json_in_ind' := Induction for json_in Sort Prop
with json_in_elems_ind' := Induction for json_in_elems Sort Prop
with json_in_members_ind' := Induction for json_in_members Sort Prop.
Combined Scheme json_in_mutind from json_in_ind', json_in_elems_ind', json_in_members_ind'.

(** [r] cannot continue a number that ends before it *)
Definition nocont (r : pystr) : Prop :=
  match r with
  | [] => True
  | c :: _ => is_digit c = false /\ c <> 46 /\ c <> 101 /\ c <> 69
  end.

(** probing a buffer again and again, each time after the part the
    previous probe consumed, until nothing is left *)
Fixpoint probe_all (b fuel : nat) (s : pystr) : option (list nat) :=
  match fuel with
  | O => None
  | S f =>
      match s with
      | [] => Some []
      | _ =>
          match get_obj_length_in b s with
          | Some n => option_map (cons n) (probe_all b f (drop n s))
          | None => None
          end
      end
  end.

(** a chain of values, each followed by its whitespace *)
Fixpoint chain_text (tws : list (pystr * pystr)) : pystr :=
  match tws with
  | [] => []
  | (t, w) :: rest => t ++ w ++ chain_text rest
  end.

(** the values are JSON texts read with [b] nesting levels left,
    separated by non-empty whitespace *)
Fixpoint chain_ok (b : nat) (tws : list (pystr * pystr)) : Prop :=
  match tws with
  | [] => True
  | (t, w) :: rest => json_in b t /\ ws_only w /\ (rest <> [] -> w <> []) /\ chain_ok b rest
  end.

(** a buffer whose [T] frame's value starts the resync signature *)
Definition overlap_example : pystr := qstr "1:T5,ab:{`__typename`:`X`}".

(** how the frames of a successful decoding lie in the buffer: each frame
    is a header, starting with the frame's id, followed by its value, the
    next [obj_length] characters (fewer at the end of the buffer); the
    next frame starts right after the value, except after a [T] frame,
    where it starts at some suffix of the buffer from the value on; the
    frames stop at an empty remainder or at one whose header reads as a
    stop *)
Inductive tiling : pystr -> list frame -> Prop :=
| TL_stop (r : pystr) : r = [] \/ read_header r = HBreak -> tiling r []
| TL_frame (hdr v rest r : pystr) (e : frame) (es : list frame) :
    hex_string e `prefix_of` hdr ->
    val e = JStr v ->
    v = py_take (obj_length e) (v ++ rest) ->
    (data_type e <> [ch "T"] -> r = rest) ->
    r `suffix_of` (v ++ rest) ->
    tiling r es ->
    tiling (hdr ++ v ++ rest) (e :: es).

(* ================================================================== *)
(** ** The push-call front end of [merge_next_f_scripts] ([parser.py]) *)

(** [c.isspace()], which is also the class [\s] of a [str] pattern *)
Definition is_py_space (c : N) : bool :=
  ((9 <=? c) && (c <=? 13)) || ((28 <=? c) && (c <=? 32)) || (c =? 133) || (c =? 160) ||
  (c =? 5760) || ((8192 <=? c) && (c <=? 8202)) || (c =? 8232) || (c =? 8233) ||
  (c =? 8239) || (c =? 8287) || (c =? 12288).

Fixpoint skip_py_space (s : pystr) : pystr :=
  match s with
  | c :: s' => if is_py_space c then skip_py_space s' else s
  | [] => []
  end.

(** [s.strip()] *)
Definition py_strip (s : pystr) : pystr := rev (skip_py_space (rev (skip_py_space s))).

Definition push_lit : pystr := str "self.__next_f.push(".

(** [\s*\)] after the closing bracket: the text after the [)] *)
Definition paren_after (s : pystr) : option pystr :=
  match skip_py_space s with
  | d :: r => if d =? 41 then Some r else None
  | [] => None
  end.

(** [[\s\S]*?\]\s*\)] after the opening bracket: the lazy star stops at
    the first [\]] followed by whitespace and [)]; the text before that
    bracket, and the text after the [)] *)
Fixpoint push_close (s : pystr) : option (pystr * pystr) :=
  match s with
  | [] => None
  | c :: s' =>
      match (if c =? 93 then paren_after s' else None) with
      | Some r => Some ([], r)
      | None => option_map (fun p => (c :: p.1, p.2)) (push_close s')
      end
  end.

(** [_PUSH_RE] matched at the start of [s]: group 1, and the text after
    the match *)
Definition push_match (s : pystr) : option (pystr * pystr) :=
  if prefixb push_lit s then
    match skip_py_space (drop (length push_lit) s) with
    | c :: t =>
        if c =? 91 then option_map (fun p => ([91] ++ p.1 ++ [93], p.2)) (push_close t)
        else None
    | [] => None
    end
  else None.

(** [_PUSH_RE.finditer(text)]: group 1 of each match, left to right, the
    search resuming where the previous match ended; every pass shortens
    the text, so [S (length text)] passes suffice *)
Fixpoint push_groups (fuel : nat) (s : pystr) : list pystr :=
  match fuel with
  | O => []
  | S f =>
      match s with
      | [] => []
      | _ :: s' =>
          match push_match s with
          | Some (g, r) => g :: push_groups f r
          | None => push_groups f s'
          end
      end
  end.

Definition push_finditer (text : pystr) : list pystr := push_groups (S (length text)) text.

(** a [bs4] tag as [merge_next_f_scripts] reads it: [tag.get("src")],
    [tag.string], and the strings that [tag.get_text] joins *)
Record tag := mkTag {
  tag_src : option pystr;
  tag_string : option pystr;
  tag_strings : list pystr
}.

(** [sep.join(l)] *)
Fixpoint py_join (sep : pystr) (l : list pystr) : pystr :=
  match l with
  | [] => []
  | [x] => x
  | x :: l' => x ++ sep ++ py_join sep l'
  end.

(** lines 30-32: [tag.string], else [tag.get_text(separator="\n")] *)
Definition tag_text (t : tag) : pystr :=
  match tag_string t with Some x => x | None => py_join [10] (tag_strings t) end.

(** lines 18-22: [(tag.get("src") or "")] is searched for the marker *)
Definition has_marker (marker : pystr) (t : tag) : bool :=
  py_in marker (default [] (tag_src t)).

Fixpoint marker_index_from (marker : pystr) (tags : list tag) (i : nat) : option nat :=
  match tags with
  | [] => None
  | t :: ts => if has_marker marker t then Some i else marker_index_from marker ts (S i)
  end.

(** lines 28-36 *)
Definition raw_items (tags : list tag) : list pystr :=
  flat_map (fun t => map py_strip (push_finditer (tag_text t))) tags.

(** [[f(x) for x in l]] where [f] may raise *)
Fixpoint map_opt {A B} (f : A -> option B) (l : list A) : option (list B) :=
  match l with
  | [] => Some []
  | x :: l' => match f x with Some y => option_map (cons y) (map_opt f l') | None => None end
  end.

(** lines 38-40 *)
Definition parse_items (raws : list pystr) : option (list jvalue) :=
  map_opt (fun r => json_loads (JStr r)) raws.

(** the keys of a dict built from JSON pairs, in insertion order *)
Definition dict_keys (kv : list (pystr * jvalue)) : list pystr :=
  fold_left (fun ks p => if bool_decide (p.1 ∈ ks) then ks else ks ++ [p.1]) kv [].

(** [tp, data = item]: unpacking an iterable of exactly two items *)
Definition unpack2 (v : jvalue) : option (jvalue * jvalue) :=
  match v with
  | JArr [a; b] => Some (a, b)
  | JStr [a; b] => Some (JStr [a], JStr [b])
  | JObj kv => match dict_keys kv with [a; b] => Some (JStr a, JStr b) | _ => None end
  | _ => None
  end.

(** lines 42-45: [if tp == 1: combined += data] *)
Fixpoint combine_items (items : list jvalue) (combined : pystr) : option pystr :=
  match items with
  | [] => Some combined
  | it :: its =>
      match unpack2 it with
      | None => None
      | Some (tp, data) =>
          if key_eq tp (JInt 1) then
            match data with JStr d => combine_items its (combined ++ d) | _ => None end
          else combine_items its combined
      end
  end.

(** [merge_next_f_scripts(script_tags, marker)]; [None] where it raises *)
Definition merge_next_f_scripts (marker : pystr) (tags : list tag) : option (list frame) :=
  match marker_index_from marker tags 0 with
  | None => Some []
  | Some i =>
      match parse_items (raw_items (drop (S i) tags)) with
      | None => None
      | Some items =>
          match combine_items items [] with
          | None => None
          | Some combined => decode combined
          end
      end
  end.

(** a JSON string literal for [s], as a writer may produce it: the quote
    and the backslash escaped, control characters as [\u00XX] *)
Definition hex_char (n : N) : N := if n <? 10 then 48 + n else 87 + n.

Definition json_escape_char (c : N) : pystr :=
  if c =? 34 then [92; 34]
  else if c =? 92 then [92; 92]
  else if c <? 32 then [92; 117; 48; 48; hex_char (c / 16); hex_char (c mod 16)]
  else [c].

Definition json_quote (s : pystr) : pystr := [34] ++ flat_map json_escape_char s ++ [34].

(** a script tag whose text pushes the chunk [s] of type 1 *)
Definition push_script (s : pystr) : tag :=
  mkTag None (Some (push_lit ++ str "[1," ++ json_quote s ++ str "])")) [].

(* ================================================================== *)
(** ** Vendors ([models.py], [Vendor]) *)

(** [<] between two numbers: bool, int and float compare by exact value *)
Definition num_ltb (x y : pynum) : bool :=
  match x, y with
  | NNaN, _ | _, NNaN => false
  | NInf true, NInf true => false
  | NInf true, _ => true
  | _, NInf true => false
  | NInf false, _ => false
  | _, NInf false => true
  | NFin a1 e1, NFin a2 e2 =>
      let e := Z.min e1 e2 in (a1 * 2 ^ (e1 - e) <? a2 * 2 ^ (e2 - e))%Z
  end.

(** [<] between two strings: by code points *)
Fixpoint str_ltb (x y : pystr) : bool :=
  match x, y with
  | [], [] => false
  | [], _ :: _ => true
  | _ :: _, [] => false
  | a :: x', b :: y' => if a <? b then true else if b <? a then false else str_ltb x' y'
  end.

(** [==] between decoded values as list and dict comparison apply it:
    identical objects are equal, so the one NaN [json] builds equals
    itself *)
Fixpoint py_eq (a b : jvalue) {struct a} : bool :=
  match a, b with
  | JArr l1, JArr l2 =>
      (fix eq_list (l1 l2 : list jvalue) : bool :=
         match l1, l2 with
         | [], [] => true
         | x :: l1', y :: l2' => py_eq x y && eq_list l1' l2'
         | _, _ => false
         end) l1 l2
  | JObj kv1, JObj kv2 =>
      bool_decide (length (dict_keys kv1) = length (dict_keys kv2)) &&
      (fix eq_items (kv : list (pystr * jvalue)) : bool :=
         match kv with
         | [] => true
         | (k, v) :: kv' =>
             (if bool_decide (k ∈ map fst kv') then true
              else match dict_lookup kv2 k with Some w => py_eq v w | None => false end) &&
             eq_items kv'
         end) kv1
  | JArr _, _ | _, JArr _ | JObj _, _ | _, JObj _ => false
  | _, _ => key_eq a b
  end.

(** [a < b]; [None] is a TypeError *)
Fixpoint py_lt (a b : jvalue) {struct a} : option bool :=
  match a, b with
  | JStr x, JStr y => Some (str_ltb x y)
  | JArr l1, JArr l2 =>
      (fix lt_list (l1 l2 : list jvalue) : option bool :=
         match l1, l2 with
         | x :: l1', y :: l2' => if py_eq x y then lt_list l1' l2' else py_lt x y
         | [], _ :: _ => Some true
         | _, _ => Some false
         end) l1 l2
  | _, _ =>
      match num_of a, num_of b with
      | Some x, Some y => Some (num_ltb x y)
      | _, _ => None
      end
  end.

(** [min] over [cur] and then [l]: an item replaces the current minimum
    when it is smaller *)
Fixpoint py_min_from (cur : jvalue) (l : list jvalue) : option jvalue :=
  match l with
  | [] => Some cur
  | x :: l' =>
      match py_lt x cur with
      | Some true => py_min_from x l'
      | Some false => py_min_from cur l'
      | None => None
      end
  end.

(** [for x in v]: a list by its items, a string by its characters, a dict
    by its keys; anything else is not iterable *)
Definition py_iter (v : jvalue) : option (list jvalue) :=
  match v with
  | JArr l => Some l
  | JStr s => Some (map (fun c => JStr [c]) s)
  | JObj kv => Some (map JStr (dict_keys kv))
  | _ => None
  end.

(** [d[k]] *)
Definition py_getitem_str (d : jvalue) (k : pystr) : option jvalue :=
  match d with JObj kv => dict_lookup kv k | _ => None end.

Definition MSC : pystr := str "minimum_spend_cents".

(** [[p for p in prices if p.get("minimum_spend_cents") is not None]] *)
Fixpoint non_null_prices (ps : list jvalue) : option (list jvalue) :=
  match ps with
  | [] => Some []
  | p :: ps' =>
      match py_get p MSC with
      | None => None
      | Some JNull => non_null_prices ps'
      | Some _ => option_map (cons p) (non_null_prices ps')
      end
  end.

Record vendor := mkVendor {
  slug : jvalue;
  name : jvalue;
  phone_number : jvalue;
  minimum_spend : jvalue;
  extra : list (pystr * jvalue);
  url_extra : jvalue
}.

(** [Vendor.from_api_item(item)] *)
Definition from_api_item (item : jvalue) : option vendor :=
  match py_get_default item (str "prices") (JArr []) with
  | None => None
  | Some prices =>
      let prices := if py_truthy prices then prices else JArr [] in
      match py_iter prices with
      | None => None
      | Some ps =>
          match non_null_prices ps with
          | None => None
          | Some non_null =>
              let minimum_spend :=
                match non_null with
                | [] => Some JNull
                | _ =>
                    match map_opt (fun p => py_getitem_str p MSC) non_null with
                    | Some (x :: xs) => py_min_from x xs
                    | Some [] => Some JNull
                    | None => None
                    end
                end in
              match minimum_spend, py_get_default item (str "slug") (JStr []),
                    py_get_default item (str "name") (JStr []), py_get item (str "phone_number") with
              | Some ms, Some sl, Some nm, Some ph => Some (mkVendor sl nm ph ms [] (JObj []))
              | _, _, _, _ => None
              end
          end
      end
  end.

(** [d[k] = v] on a dict with string keys, kept in insertion order *)
Fixpoint sdict_set (d : list (pystr * jvalue)) (k : pystr) (v : jvalue) : list (pystr * jvalue) :=
  match d with
  | [] => [(k, v)]
  | (k', v') :: d' => if bool_decide (k' = k) then (k', v) :: d' else (k', v') :: sdict_set d' k v
  end.

(** [d.pop(k, None)] *)
Fixpoint sdict_pop (d : list (pystr * jvalue)) (k : pystr) : list (pystr * jvalue) :=
  match d with
  | [] => []
  | (k', v') :: d' => if bool_decide (k' = k) then d' else (k', v') :: sdict_pop d' k
  end.

(** [asdict(self)] *)
Definition asdict (v : vendor) : list (pystr * jvalue) :=
  [(str "slug", slug v); (str "name", name v); (str "phone_number", phone_number v);
   (str "minimum_spend", minimum_spend v); (str "extra", JObj (extra v));
   (str "url_extra", url_extra v)].

(** [Vendor.to_dict()] *)
Definition to_dict (v : vendor) : list (pystr * jvalue) :=
  sdict_pop (fold_left (fun d p => sdict_set d p.1 p.2) (extra v) (asdict v)) (str "extra").

(* ================================================================== *)
(** ** [PartySlateClient.get_vendor_html] and [collect_vendors] *)

Fixpoint lstrip_char (c : N) (s : pystr) : pystr :=
  match s with
  | d :: s' => if d =? c then lstrip_char c s' else s
  | [] => []
  end.

(** [s.rstrip(c)] *)
Definition rstrip_char (c : N) (s : pystr) : pystr := rev (lstrip_char c (rev s)).

(** the URL [get_vendor_html(slug)] requests *)
Definition vendor_url (vendor_url_base slug : pystr) : pystr :=
  rstrip_char 47 vendor_url_base ++ [47] ++ slug.

(** [l[:n]] *)
Definition py_take_list {A} (n : Z) (l : list A) : list A :=
  if (n <? 0)%Z then firstn (length l - Z.to_nat (- n)) l else firstn (Z.to_nat n) l.

(** lines 140-143 *)
Fixpoint add_until (n : Z) (vs collected : list vendor) : list vendor :=
  match vs with
  | [] => collected
  | v :: vs' =>
      if (n <=? Z.of_nat (length collected))%Z then collected
      else add_until n vs' (collected ++ [v])
  end.

(** lines 132-151, with [fetch_additional_for_each=False]; [fetch page] is
    what [get_find_vendors(page=page)] returns, [None] where it raises;
    [None] is an exception escaping [collect_vendors].  A pass that does
    not stop adds a vendor, so [S n] passes suffice *)
Fixpoint collect_loop (fuel : nat) (fetch : Z -> option jvalue) (n page : Z)
    (collected : list vendor) : option (list vendor) :=
  match fuel with
  | O => None
  | S f =>
      if (Z.of_nat (length collected) <? n)%Z then
        match fetch page with
        | None => None
        | Some vendors_json =>
            match py_get_default vendors_json (str "vendors") (JArr []) with
            | None => None
            | Some vendors =>
                let vendors := if py_truthy vendors then vendors else JArr [] in
                if negb (py_truthy vendors) then Some collected
                else
                  match py_iter vendors with
                  | None => None
                  | Some items =>
                      match map_opt from_api_item items with
                      | None => None
                      | Some page_vendors =>
                          collect_loop f fetch n (page + 1) (add_until n page_vendors collected)
                      end
                  end
            end
        end
      else Some collected
  end.

(** [collect_vendors(n, start_page)] without the per-vendor fetch and
    without an output file *)
Definition collect_vendors (fetch : Z -> option jvalue) (n start_page : Z)
    : option (list (list (pystr * jvalue))) :=
  match collect_loop (S (Z.to_nat n)) fetch n start_page [] with
  | None => None
  | Some collected => Some (map to_dict (py_take_list n collected))
  end.

(** page [p] of [get_find_vendors] raises nothing in [collect_vendors]:
    the request succeeds, its [vendors] entry is looked up, and when truthy
    it is iterable and every item passes [Vendor.from_api_item] *)
Definition page_ok (fetch : Z -> option jvalue) (p : Z) : bool :=
  match fetch p with
  | None => false
  | Some json =>
      match py_get_default json (str "vendors") (JArr []) with
      | None => false
      | Some vs =>
          if py_truthy vs then
            match py_iter vs with
            | None => false
            | Some items => match map_opt from_api_item items with Some _ => true | None => false end
            end
          else true
      end
  end.

(** a page source for examples: [last] pages of two vendors each, then an
    empty page *)
Definition sample_vendor_item (s : pystr) : jvalue :=
  JObj [(str "slug", JStr s); (str "prices", JArr [JObj [(MSC, JInt 2500)]])].

Definition sample_fetch (last : Z) (p : Z) : option jvalue :=
  if (p <=? last)%Z
  then Some (JObj [(str "vendors", JArr [sample_vendor_item [97]; sample_vendor_item [98]])])
  else Some (JObj [(str "vendors", JArr [])]).

(* ================================================================== *)
(** * Properties *)

(** ** Basic facts about the string helpers *)

Lemma prefixb_app (p t : pystr) : prefixb p (p ++ t) = true.
Proof. induction p as [| a p IH]; simpl; [reflexivity |]. by rewrite N.eqb_refl, IH. Qed.

Lemma split1_tail_prefix (p t : pystr) :
  p <> [] -> split1_tail p (p ++ t) = Some t.
Proof.
  intros Hp. unfold split1_tail. destruct p as [| a p']; [congruence |].
  change (a :: p') with ([a] ++ p').
  simpl. rewrite N.eqb_refl, prefixb_app. simpl.
  rewrite drop_app_length. reflexivity.
Qed.

(** ** C1 *)

(** C1: the combined buffer of the worked example decodes to exactly one
    frame, whose id is "4", and extracting from that one-frame list yields
    exactly [{"facebookUrl": "https://fb.com/x", "teamMembers": {"Ann Lee": "Planner"}}]. *)
Theorem example_buffer_extraction :
  exists e,
    decode example_buffer = Some [e] /\
    hex_string e = str "4" /\
    fst (extract_data_from_scripts [e]) =
      mkRecord None (Some (JStr (str "https://fb.com/x"))) None
               (Some [(JStr (str "Ann Lee"), JStr (str "Planner"))]).
Proof.
  eexists. split; [vm_compute; reflexivity |].
  split; vm_compute; reflexivity.
Qed.

(** ** C8 *)

(** C8: decoding an empty buffer yields no frame (more generally, a buffer
    with no leading hex digit is decoded to the empty list without error),
    and extracting from the empty frame list yields the empty record. *)
Theorem empty_input :
  decode [] = Some [] /\
  (forall buf, get_next_hex_string buf = [] -> decode buf = Some []) /\
  fst (extract_data_from_scripts []) = empty_record.
Proof.
  split; [reflexivity |]. split; [| reflexivity].
  intros buf H. unfold decode. simpl. unfold step, read_header. rewrite H. reflexivity.
Qed.

(** ** C3 *)

Lemma get_next_data_type_string_from_app (pre s res : pystr) :
  Forall tag_char_ok pre ->
  get_next_data_type_string_from (pre ++ s) res = get_next_data_type_string_from s (res ++ pre).
Proof.
  revert res. induction pre as [| c pre IH]; intros res Hok; cbn [app get_next_data_type_string_from].
  - by rewrite app_nil_r.
  - inversion Hok as [| ? ? [HT Hs] Hrest]; subst.
    destruct (N.eqb_spec c (ch "T")) as [E | _]; [contradiction |].
    rewrite Hs. rewrite IH by exact Hrest. by rewrite <- app_assoc.
Qed.

(** C3 (counterexample): with "a" collected before a "T", the tag is "T",
    not the collected run "a". *)
Lemma data_type_mid_T_not_run :
  get_next_data_type_string (str "aT{") = str "T" /\
  get_next_data_type_string (str "aT{") <> str "a".
Proof. split; [reflexivity | vm_compute; congruence]. Qed.

(** C3 (amended): let [pre] be the run of characters before the first "T" or
    JSON-start character.  If that character is a "T" the tag is "T",
    whether or not [pre] is empty; if it is a JSON-start character the tag
    is [pre]; if there is none the tag is the whole buffer.  The scan
    consumes nothing. *)
Theorem get_next_data_type_string_spec (pre post : pystr) (c : N) :
  Forall tag_char_ok pre ->
  (c = ch "T" -> get_next_data_type_string (pre ++ c :: post) = [ch "T"]) /\
  (existsb (N.eqb c) alpha_stop = true -> get_next_data_type_string (pre ++ c :: post) = pre) /\
  get_next_data_type_string pre = pre.
Proof.
  intros Hok. unfold get_next_data_type_string.
  rewrite !get_next_data_type_string_from_app by exact Hok.
  cbn [app get_next_data_type_string_from].
  split; [| split].
  - intros ->. reflexivity.
  - intros Hs. destruct (N.eqb_spec c (ch "T")) as [-> | _]; [discriminate | ].
    by rewrite Hs.
  - pose proof (get_next_data_type_string_from_app pre [] [] Hok) as E.
    rewrite app_nil_r in E. rewrite E. reflexivity.
Qed.

Lemma get_next_data_type_string_spec_witness :
  Forall tag_char_ok (str "ab") /\
  get_next_data_type_string (str "ab" ++ ch "T" :: str "5,") = [ch "T"].
Proof.
  assert (Hok : Forall tag_char_ok (str "ab")).
  { repeat constructor; unfold tag_char_ok; vm_compute; first [discriminate | reflexivity]. }
  split; [exact Hok |].
  exact (proj1 (get_next_data_type_string_spec (str "ab") (str "5,") (ch "T") Hok) eq_refl).
Defined.

(** ** C4 *)

(** C4: for a frame with a declared length (only a "T" frame has one) the
    probe is run on the remaining buffer: its length wins when it succeeds,
    the declared length is kept when it fails, and decoding goes on.
    Without a declared length a probe failure raises, which aborts the
    whole decode, and a successful probe gives the frame's length. *)
Theorem frame_length_policy (other : pystr) :
  (forall h dt d rest, read_header other = HGo h dt (Some d) rest ->
     dt = [ch "T"] /\
     exists e other', step other = SNext e other' /\
       obj_length e = match get_obj_length rest with Some n => Z.of_nat n | None => d end) /\
  (forall h dt rest, read_header other = HGo h dt None rest ->
     (get_obj_length rest = None ->
        step other = SRaise /\ forall fuel acc, frames_loop (S fuel) other acc = None) /\
     (forall n, get_obj_length rest = Some n ->
        exists e other', step other = SNext e other' /\ obj_length e = Z.of_nat n)).
Proof.
  split.
  - intros h dt d rest H. split.
    + revert H. unfold read_header.
      destruct (get_next_hex_string other) as [| x l]; [discriminate |].
      destruct (split1_tail (x :: l) other) as [t |]; [| discriminate].
      destruct (get_next_data_type_string (drop 1 t)) as [| y m] eqn:Edt; [discriminate |].
      case_bool_decide as Ht.
      * destruct (get_next_hex_string (drop 1 (drop 1 t))); [discriminate |].
        destruct (split1_tail _ _); [| discriminate].
        intros E. injection E as <- <- _ _. exact Ht.
      * destruct (split1_tail (y :: m) (drop 1 t)); discriminate.
    + unfold step. rewrite H. unfold frame_length.
      destruct (get_obj_length rest); do 2 eexists; split; reflexivity.
  - intros h dt rest H. split.
    + intros Hp. assert (Hs : step other = SRaise).
      { unfold step. rewrite H. unfold frame_length. by rewrite Hp. }
      split; [exact Hs |]. intros fuel acc. simpl. by rewrite Hs.
    + intros n Hp. unfold step. rewrite H. unfold frame_length. rewrite Hp.
      do 2 eexists; split; reflexivity.
Qed.

(** ** C10 *)

(** a "T" met as the first character after the id's delimiter, with no hex
    digit after it, stops the loop and keeps the entries collected so far *)
Lemma T_first_without_length_stops (h : pystr) (d : N) (rest : pystr) (fuel : nat) (acc : list frame) :
  h <> [] ->
  get_next_hex_string (h ++ d :: ch "T" :: rest) = h ->
  get_next_hex_string rest = [] ->
  frames_loop (S fuel) (h ++ d :: ch "T" :: rest) acc = Some acc.
Proof.
  intros Hne Hh Hr. cbn [frames_loop]. unfold step, read_header. rewrite Hh.
  destruct h as [| x l]; [congruence |].
  rewrite split1_tail_prefix by congruence. cbn [drop].
  replace (get_next_data_type_string (ch "T" :: rest)) with [ch "T"] by reflexivity.
  rewrite bool_decide_true by reflexivity. rewrite drop_0, Hr. reflexivity.
Qed.

(** C10 (failing input): in ["1:abT,xyz"] the tag scan meets the "T" after
    "ab" and returns "T"; the length is then read from [other[1:] = "bT,xyz"],
    so "b" becomes the declared length 11 although no hex digit follows the
    "T", and a frame is emitted for the incomplete record. *)
Theorem mid_T_without_length_emits_frame :
  decode (str "1:abT,xyz") = Some [mkFrame (str "1") (str "T") 11 (JStr (str ",xyz"))].
Proof. vm_compute. reflexivity. Qed.

(** ** C2 *)

Lemma prefixb_spec (p s : pystr) : prefixb p s = true <-> exists t, s = p ++ t.
Proof.
  revert s. induction p as [| a p IH]; intros s; simpl.
  - split; [eauto | auto].
  - destruct s as [| b s]; simpl.
    + split; [discriminate | intros [t Ht]; discriminate].
    + rewrite andb_true_iff, IH. split.
      * intros [Hab [t ->]]. apply N.eqb_eq in Hab as ->. eauto.
      * intros [t Ht]. injection Ht as -> ->. rewrite N.eqb_refl. eauto.
Qed.

Lemma find_from_shift (pat s : pystr) (i : nat) :
  find_from pat s i = option_map (fun p => (i + p)%nat) (find_from pat s 0).
Proof.
  revert i. induction s as [| c s IH]; intros i; simpl.
  - destruct (prefixb pat []); simpl; f_equal; lia.
  - destruct (prefixb pat (c :: s)); simpl; [f_equal; lia |].
    rewrite (IH (S i)), (IH 1%nat). destruct (find_from pat s 0); simpl; f_equal; lia.
Qed.

Lemma find_from_first (pat s : pystr) (p : nat) :
  find_from pat s 0 = Some p <-> first_occurrence pat s p.
Proof.
  revert p. induction s as [| c s IH]; intros p; unfold first_occurrence.
  - simpl. destruct (prefixb pat []) eqn:E; split.
    + intros H. injection H as <-. split; [exact E | lia].
    + intros [_ Hq]. destruct p; [reflexivity |]. specialize (Hq 0%nat ltac:(lia)). simpl in Hq. congruence.
    + discriminate.
    + intros [H _]. rewrite drop_nil in H. congruence.
  - cbn [find_from]. destruct (prefixb pat (c :: s)) eqn:E; split.
    + intros H. injection H as <-. split; [exact E | lia].
    + intros [_ Hq]. destruct p; [reflexivity |]. specialize (Hq 0%nat ltac:(lia)). simpl in Hq. congruence.
    + rewrite find_from_shift. case_eq (find_from pat s 0); [intros p' F | intros _]; simpl; [| discriminate].
      intros H. injection H as <-. apply (IH p') in F as [F1 F2]. split; [exact F1 |].
      intros [| q] Hq; [exact E |]. simpl. apply F2. lia.
    + intros [H1 H2]. destruct p as [| p]; [simpl in H1; congruence |].
      rewrite find_from_shift.
      assert (F : find_from pat s 0 = Some p).
      { apply (IH p). split; [exact H1 |]. intros q Hq. apply (H2 (S q)). lia. }
      rewrite F. reflexivity.
Qed.

Lemma find_from_exists (pat s : pystr) (q : nat) :
  prefixb pat (drop q s) = true -> exists p, find_from pat s 0 = Some p.
Proof.
  revert q. induction s as [| c s IH]; intros q H.
  - rewrite drop_nil in H. simpl. rewrite H. eauto.
  - cbn [find_from]. destruct (prefixb pat (c :: s)) eqn:E; [eauto |].
    destruct q as [| q]; [simpl in H; congruence |].
    rewrite find_from_shift. destruct (IH q H) as [p ->]. simpl. eauto.
Qed.

Lemma py_in_true (pat s : pystr) :
  py_in pat s = true <-> exists q, prefixb pat (drop q s) = true.
Proof.
  unfold py_in. split.
  - destruct (find_from pat s 0) as [p |] eqn:F; [| discriminate].
    intros _. apply find_from_first in F as [F _]. eauto.
  - intros [q Hq]. destruct (find_from_exists pat s q Hq) as [p ->]. reflexivity.
Qed.

Lemma prefixb_drop_take (c s : pystr) (q k : nat) :
  c <> [] ->
  prefixb c (drop q (take k s)) = true <-> prefixb c (drop q s) = true /\ (q + length c <= k)%nat.
Proof.
  intros Hc. rewrite !prefixb_spec. split.
  - intros [t Ht].
    assert (Hlen : (q + length c <= k)%nat /\ (q + length c <= length s)%nat).
    { pose proof (f_equal length Ht) as L. rewrite length_drop, length_take, length_app in L.
      destruct c; [congruence |]. simpl in *. lia. }
    split; [| lia].
    exists (t ++ drop k s).
    rewrite <- (drop_take_drop s q k) by lia. rewrite Ht. by rewrite app_assoc.
  - intros [[t Ht] Hk].
    assert (E : drop q (take k s) = take (k - q) (drop q s)).
    { rewrite take_drop_commute. do 2 f_equal. lia. }
    rewrite E, Ht, take_app, (take_ge c) by lia. eauto.
Qed.

Lemma py_in_window (c s : pystr) (n : nat) :
  c <> [] ->
  py_in c (take n s ++ take 20 (drop n s)) = true <-> in_window c s (n + 20).
Proof.
  intros Hc. rewrite take_take_drop, py_in_true. unfold in_window. split.
  - intros [q Hq]. apply prefixb_drop_take in Hq as [H1 H2]; eauto.
  - intros [q [H1 H2]]. exists q. by apply prefixb_drop_take.
Qed.

Lemma hex_value_nonneg (h : pystr) : (0 <= hex_value h)%Z.
Proof.
  unfold hex_value.
  assert (G : forall l (a : Z), (0 <= a)%Z ->
            (0 <= fold_left (fun acc (c : N) =>
                   (16 * acc + Z.of_N (if (c <=? 57)%N then (c - 48)%N else (c - 87)%N))%Z) l a)%Z).
  { induction l as [| c l IH]; intros a Ha; simpl; [exact Ha |]. apply IH. lia. }
  apply G. lia.
Qed.

Lemma read_header_declared_nonneg (other h dt rest : pystr) (z : Z) :
  read_header other = HGo h dt (Some z) rest -> (0 <= z)%Z.
Proof.
  unfold read_header. intros E.
  repeat case_match; simplify_eq; apply hex_value_nonneg.
Qed.

Lemma frame_length_nonneg (d : option Z) (rest : pystr) (len : Z) :
  (forall z, d = Some z -> (0 <= z)%Z) -> frame_length d rest = Some len -> (0 <= len)%Z.
Proof.
  intros Hd. unfold frame_length. destruct d as [z |].
  - destruct (get_obj_length rest); intros E; injection E as <-; [lia | by apply Hd].
  - destruct (get_obj_length rest); simpl; intros E; [injection E as <-; lia | discriminate].
Qed.

Lemma py_take_nonneg (n : Z) (s : pystr) : (0 <= n)%Z -> py_take n s = take (Z.to_nat n) s.
Proof. intros H. unfold py_take. destruct (Z.ltb_spec n 0); [lia | reflexivity]. Qed.

Lemma py_drop_nonneg (n : Z) (s : pystr) : (0 <= n)%Z -> py_drop n s = drop (Z.to_nat n) s.
Proof. intros H. unfold py_drop. destruct (Z.ltb_spec n 0); [lia | reflexivity]. Qed.

(** the "T" case of one pass, unfolded *)
Lemma step_T_inv (other h rest : pystr) (d : option Z) (e : frame) (other' : pystr) :
  read_header other = HGo h [ch "T"] d rest ->
  step other = SNext e other' ->
  exists len, frame_length d rest = Some len /\ (0 <= len)%Z /\
    e = mkFrame h [ch "T"] len (JStr (take (Z.to_nat len) rest)) /\
    other' = resync resync_checks (take (Z.to_nat len) rest) (drop (Z.to_nat len) rest) rest.
Proof.
  intros Hh. unfold step. rewrite Hh.
  destruct (frame_length d rest) as [len |] eqn:Fl; [| discriminate].
  assert (Hnn : (0 <= len)%Z).
  { apply (frame_length_nonneg d rest); [| exact Fl].
    intros z ->. exact (read_header_declared_nonneg _ _ _ _ _ Hh). }
  rewrite bool_decide_true by reflexivity.
  rewrite !py_take_nonneg, !py_drop_nonneg by exact Hnn.
  intros E. injection E as <- <-. eauto 10.
Qed.

(** restarting two characters before the first occurrence of [c] *)
Lemma resync_restart (c backup : pystr) (p : nat) :
  first_occurrence c backup p ->
  py_drop (let i := (py_find c backup - 2)%Z in if (i <? 0)%Z then 0%Z else i) backup =
  drop (p - 2) backup.
Proof.
  intros Hp. apply find_from_first in Hp. unfold py_find. rewrite Hp.
  destruct (Z.ltb_spec (Z.of_nat p - 2) 0).
  - rewrite py_drop_nonneg by lia. f_equal. lia.
  - rewrite py_drop_nonneg by lia. f_equal. lia.
Qed.

Lemma sig_typename_nonempty : sig_typename <> [].
Proof. vm_compute. discriminate. Qed.

Lemma sig_L1f_nonempty : sig_L1f <> [].
Proof. vm_compute. discriminate. Qed.

Lemma in_window_first (c s : pystr) (p k : nat) :
  first_occurrence c s p -> (p + length c <= k)%nat -> in_window c s k.
Proof. intros [H _] Hk. exists p. auto. Qed.

(** C2 (counterexample): for the undershooting text frame above, the resync
    restarts two characters before the colon of [sig_typename], that is
    three characters before the opening brace (offset 2 in the buffer after
    the header, while the brace is at offset 5), so the next frame is read
    with the id [c5] instead of [5]. *)
Lemma resync_lands_before_id :
  read_header resync_example = HGo (str "1") (str "T") (Some 2%Z) resync_example_rest /\
  resync_example_rest !! 5%nat = Some (ch "{") /\
  step resync_example = SNext (mkFrame (str "1") (str "T") 2 (JStr (str "ab"))) (drop 2 resync_example_rest) /\
  exists e, decode resync_example = Some [mkFrame (str "1") (str "T") 2 (JStr (str "ab")); e] /\
            hex_string e = str "c5".
Proof.
  split; [vm_compute; reflexivity |].
  split; [vm_compute; reflexivity |].
  split; [vm_compute; reflexivity |].
  eexists. split; [vm_compute; reflexivity | vm_compute; reflexivity].
Qed.

(** C2 (amended): after a "T" frame is sliced from the buffer [rest] that
    follows its header, with [n] the frame's length, the loop looks for the
    signatures in the first [n + 20] characters of [rest]. If the first
    occurrence of [sig_typename] at [p] lies there, the loop continues with
    [rest] from [p - 2] (clamped at 0); otherwise, if the first occurrence of
    [sig_L1f] at [p] lies there, it continues from [p - 2]; if neither
    lies there, it continues right after the slice, from [n]. The frame's
    value is [rest] up to [n]. *)
Theorem T_frame_resync (other h rest : pystr) (d : option Z) (e : frame) (other' : pystr) :
  read_header other = HGo h [ch "T"] d rest ->
  step other = SNext e other' ->
  val e = JStr (take (Z.to_nat (obj_length e)) rest) /\
  (forall p, first_occurrence sig_typename rest p ->
     (p + length sig_typename <= Z.to_nat (obj_length e) + 20)%nat ->
     other' = drop (p - 2) rest) /\
  (~ in_window sig_typename rest (Z.to_nat (obj_length e) + 20) ->
   forall p, first_occurrence sig_L1f rest p ->
     (p + length sig_L1f <= Z.to_nat (obj_length e) + 20)%nat ->
     other' = drop (p - 2) rest) /\
  (~ in_window sig_typename rest (Z.to_nat (obj_length e) + 20) ->
   ~ in_window sig_L1f rest (Z.to_nat (obj_length e) + 20) ->
   other' = drop (Z.to_nat (obj_length e)) rest).
Proof.
  intros Hh Hs.
  destruct (step_T_inv other h rest d e other' Hh Hs) as (len & _ & Hnn & -> & ->).
  cbn [obj_length val].
  unfold resync, resync_checks.
  rewrite (py_take_nonneg 20) by lia. change (Z.to_nat 20) with 20%nat.
  set (n := Z.to_nat len).
  split; [reflexivity |]. split; [| split].
  - intros p Hp Hk.
    assert (Hin : py_in sig_typename (take n rest ++ take 20 (drop n rest)) = true).
    { apply py_in_window; [exact sig_typename_nonempty |]. eapply in_window_first; eauto. }
    rewrite Hin. apply resync_restart. exact Hp.
  - intros Hno p Hp Hk.
    assert (Hout : py_in sig_typename (take n rest ++ take 20 (drop n rest)) = false).
    { destruct (py_in sig_typename _) eqn:E; [| reflexivity].
      exfalso. apply Hno. eapply py_in_window; [exact sig_typename_nonempty | exact E]. }
    assert (Hin : py_in sig_L1f (take n rest ++ take 20 (drop n rest)) = true).
    { apply py_in_window; [exact sig_L1f_nonempty |]. eapply in_window_first; eauto. }
    rewrite Hout, Hin. apply resync_restart. exact Hp.
  - intros Hno1 Hno2.
    assert (Hout1 : py_in sig_typename (take n rest ++ take 20 (drop n rest)) = false).
    { destruct (py_in sig_typename _) eqn:E; [| reflexivity].
      exfalso. apply Hno1. eapply py_in_window; [exact sig_typename_nonempty | exact E]. }
    assert (Hout2 : py_in sig_L1f (take n rest ++ take 20 (drop n rest)) = false).
    { destruct (py_in sig_L1f _) eqn:E; [| reflexivity].
      exfalso. apply Hno2. eapply py_in_window; [exact sig_L1f_nonempty | exact E]. }
    rewrite Hout1, Hout2. reflexivity.
Qed.

Lemma T_frame_resync_witness :
  read_header resync_example = HGo (str "1") (str "T") (Some 2%Z) resync_example_rest /\
  step resync_example = SNext (mkFrame (str "1") (str "T") 2 (JStr (str "ab"))) (drop 2 resync_example_rest) /\
  drop (4 - 2) resync_example_rest = drop 2 resync_example_rest.
Proof.
  split; [vm_compute; reflexivity |].
  split; [vm_compute; reflexivity |].
  apply (proj1 (proj2 (T_frame_resync resync_example (str "1") resync_example_rest (Some 2%Z)
           (mkFrame (str "1") (str "T") 2 (JStr (str "ab"))) (drop 2 resync_example_rest)
           ltac:(vm_compute; reflexivity) ltac:(vm_compute; reflexivity))) 4%nat).
  - split; [vm_compute; reflexivity |].
    intros q Hq. destruct q as [| [| [| [| q]]]]; [vm_compute; reflexivity .. | lia].
  - vm_compute. lia.
Defined.

(** ** Effects of the extractor's statements *)

Lemma keeps_ret {A B} (proj : st -> B) (a : A) : keeps proj (ret a).
Proof. intros s. reflexivity. Qed.

Lemma keeps_raise {A B} (proj : st -> B) : keeps proj (@raise A).
Proof. intros s. reflexivity. Qed.

Lemma keeps_lift {A B} (proj : st -> B) (o : option A) : keeps proj (lift o).
Proof. destruct o; intros s; reflexivity. Qed.

Lemma keeps_get_entries {B} (proj : st -> B) : keeps proj get_entries.
Proof. intros s. reflexivity. Qed.

(** the part [proj] after [m >>= k] is the one [m] leaves when [k] keeps it *)
Lemma bind_keeps {A B C} (proj : st -> C) (m : M A) (k : A -> M B) (s : st) :
  (forall a, keeps proj (k a)) -> proj (snd (bind m k s)) = proj (snd (m s)).
Proof.
  intros Hk. unfold bind. destruct (m s) as [[a |] s']; simpl; [apply Hk | reflexivity].
Qed.

Lemma keeps_bind {A B C} (proj : st -> C) (m : M A) (k : A -> M B) :
  keeps proj m -> (forall a, keeps proj (k a)) -> keeps proj (bind m k).
Proof. intros Hm Hk s. rewrite bind_keeps by exact Hk. apply Hm. Qed.

Lemma keeps_if {A B} (proj : st -> B) (b : bool) (m1 m2 : M A) :
  keeps proj m1 -> keeps proj m2 -> keeps proj (if b then m1 else m2).
Proof. destruct b; auto. Qed.

Lemma keeps_try_except {B} (proj : st -> B) (m : M unit) : keeps proj m -> keeps proj (try_except m).
Proof. intros Hm s. apply Hm. Qed.

Lemma keeps_entry_val {B} (proj : st -> B) (idx : Z) : keeps proj (entry_val idx).
Proof.
  unfold entry_val. apply keeps_bind; [apply keeps_get_entries |].
  intros scripts. destruct (scripts !! Z.to_nat idx); [apply keeps_ret | apply keeps_raise].
Qed.

Lemma keeps_set_out_entries (k : out_key) (v : jvalue) : keeps entries (set_out k v).
Proof. intros s. reflexivity. Qed.

Lemma keeps_set_out_team_entries (d : list (jvalue * jvalue)) : keeps entries (set_out_team d).
Proof. intros s. reflexivity. Qed.

Lemma keeps_set_out_fb_url (v : jvalue) : keeps out_url (set_out KFacebookUrl v).
Proof. intros s. reflexivity. Qed.

Lemma keeps_set_out_ig_url (v : jvalue) : keeps out_url (set_out KInstagramUrl v).
Proof. intros s. reflexivity. Qed.

Lemma keeps_set_out_team_url (d : list (jvalue * jvalue)) : keeps out_url (set_out_team d).
Proof. intros s. reflexivity. Qed.

Lemma keeps_set_out_url_profile (v : jvalue) : keeps out_profile (set_out KUrl v).
Proof. intros s. reflexivity. Qed.

Lemma keeps_set_entry_val_profile (i : nat) (v : jvalue) : keeps out_profile (set_entry_val i v).
Proof. intros s. unfold set_entry_val. destruct (entries s !! i); reflexivity. Qed.

Lemma keeps_set_entry_val_ids (i : nat) (v : jvalue) : keeps entry_ids (set_entry_val i v).
Proof.
  intros s. unfold set_entry_val, entry_ids. destruct (entries s !! i) as [e |] eqn:E; [| reflexivity].
  cbn [snd entries]. rewrite list_fmap_insert. apply list_insert_id.
  rewrite list_lookup_fmap, E. reflexivity.
Qed.

Lemma keeps_set_out_ids (k : out_key) (v : jvalue) : keeps entry_ids (set_out k v).
Proof. intros s. reflexivity. Qed.

Create HintDb keeps.
#[local] Hint Resolve keeps_ret keeps_raise keeps_lift keeps_get_entries keeps_bind keeps_if
  keeps_try_except keeps_entry_val keeps_set_out_entries keeps_set_out_team_entries
  keeps_set_out_fb_url keeps_set_out_ig_url keeps_set_out_team_url keeps_set_out_url_profile
  keeps_set_entry_val_profile keeps_set_entry_val_ids keeps_set_out_ids : keeps.

Ltac keeps_tac :=
  repeat (first [ solve [auto with keeps] | apply keeps_bind | apply keeps_if
                | match goal with |- forall _, keeps _ _ => intros ? end ]).

Lemma keeps_copy_keys_entries (pro_data : jvalue) (keys : list out_key) :
  keeps entries (copy_keys pro_data keys).
Proof. induction keys as [| k ks IH]; simpl; keeps_tac. Qed.

Lemma keeps_copy_keys_url (pro_data : jvalue) :
  keeps out_url (copy_keys pro_data [KFacebookUrl; KInstagramUrl]).
Proof. cbn [copy_keys]. keeps_tac. Qed.

#[local] Hint Resolve keeps_copy_keys_entries keeps_copy_keys_url : keeps.

Lemma keeps_profile_block_entries : keeps entries profile_block.
Proof. unfold profile_block. keeps_tac. Qed.

Lemma keeps_profile_block_url : keeps out_url profile_block.
Proof. unfold profile_block. keeps_tac. Qed.

Lemma keeps_alt_index_from_ids (scripts : list frame) (i : nat) :
  keeps entry_ids (get_script2_alt_index_from scripts i).
Proof.
  revert i. induction scripts as [| script rest IH]; intros i; cbn [get_script2_alt_index_from];
    [keeps_tac |].
  repeat case_match; keeps_tac.
Qed.

Lemma keeps_alt_index_from_profile (scripts : list frame) (i : nat) :
  keeps out_profile (get_script2_alt_index_from scripts i).
Proof.
  revert i. induction scripts as [| script rest IH]; intros i; cbn [get_script2_alt_index_from];
    [keeps_tac |].
  repeat case_match; keeps_tac.
Qed.

#[local] Hint Resolve keeps_alt_index_from_profile keeps_alt_index_from_ids : keeps.

Lemma keeps_site_block_ids : keeps entry_ids site_block.
Proof. unfold site_block, get_script2_alt_index. keeps_tac. Qed.

Lemma not_profile_ids (s : st) :
  Forall not_profile (entries s) <-> Forall (fun h => h <> str "4") (entry_ids s).
Proof. unfold entry_ids. rewrite Forall_fmap. reflexivity. Qed.

Lemma keeps_site_block_profile : keeps out_profile site_block.
Proof. unfold site_block, get_script2_alt_index. keeps_tac. Qed.

Lemma bind_get_entries {B} (k : list frame -> M B) (s : st) : bind get_entries k s = k (entries s) s.
Proof. reflexivity. Qed.

Lemma bind_ok {A B} (m : M A) (k : A -> M B) (s s' : st) (a : A) :
  m s = (Some a, s') -> bind m k s = k a s'.
Proof. intros H. unfold bind. rewrite H. reflexivity. Qed.

(** extraction runs the two blocks one after the other, each under its own [try] *)
Lemma extract_out (fs : list frame) :
  fst (extract_data_from_scripts fs) =
  out (snd (profile_block (snd (site_block (mkSt fs empty_record))))).
Proof. reflexivity. Qed.

Lemma extract_entries (fs : list frame) :
  snd (extract_data_from_scripts fs) =
  entries (snd (profile_block (snd (site_block (mkSt fs empty_record))))).
Proof. reflexivity. Qed.

(** statements that touch [out] only *)
Lemma out_only_ret {A} (a : A) : out_only (ret a).
Proof. intros E1 E2 o. reflexivity. Qed.

Lemma out_only_raise {A} : out_only (@raise A).
Proof. intros E1 E2 o. reflexivity. Qed.

Lemma out_only_lift {A} (o : option A) : out_only (lift o).
Proof. destruct o; intros E1 E2 o'; reflexivity. Qed.

Lemma out_only_set_out (k : out_key) (v : jvalue) : out_only (set_out k v).
Proof. intros E1 E2 o. reflexivity. Qed.

Lemma out_only_set_out_team (d : list (jvalue * jvalue)) : out_only (set_out_team d).
Proof. intros E1 E2 o. reflexivity. Qed.

Lemma out_only_if {A} (b : bool) (m1 m2 : M A) :
  out_only m1 -> out_only m2 -> out_only (if b then m1 else m2).
Proof. destruct b; auto. Qed.

Lemma out_only_bind {A B} (m : M A) (k : A -> M B) :
  out_only m -> (forall a, out_only (k a)) -> out_only (bind m k).
Proof.
  intros Hm Hk E1 E2 o. unfold bind.
  rewrite (Hm E1 E2 o).
  pose proof (Hm E1 E1 o) as H11.
  destruct (m (mkSt E1 o)) as [[a |] s1]; cbn [fst snd] in *; [| reflexivity].
  injection H11 as Hs1. rewrite Hs1. apply Hk.
Qed.

Create HintDb out_only.
#[local] Hint Resolve out_only_ret out_only_raise out_only_lift out_only_set_out
  out_only_set_out_team out_only_if out_only_bind : out_only.

Ltac out_only_tac :=
  repeat (first [ solve [auto with out_only] | apply out_only_bind | apply out_only_if
                | match goal with |- forall _, out_only _ => intros ? end ]).

Lemma out_only_copy_keys (pro_data : jvalue) (keys : list out_key) : out_only (copy_keys pro_data keys).
Proof. induction keys as [| k ks IH]; simpl; out_only_tac. Qed.

#[local] Hint Resolve out_only_copy_keys : out_only.

Lemma out_only_out {A} (m : M A) (E1 E2 : list frame) (o : business_record) :
  out_only m -> out (snd (m (mkSt E1 o))) = out (snd (m (mkSt E2 o))).
Proof. intros H. rewrite (H E1 E2 o). reflexivity. Qed.

(** ** C9 *)

Lemma alt_index_from_effect (scripts : list frame) (i : nat) (s : st) :
  scripts = drop i (entries s) ->
  entries (snd (get_script2_alt_index_from scripts i s)) = entries s \/
  exists j f v inner, entries s !! j = Some f /\ val f = JStr v /\
    unwrap_inner_html (py_drop (py_find s_marker v) v) = Some inner /\
    entries (snd (get_script2_alt_index_from scripts i s)) = <[j := with_val f inner]> (entries s).
Proof.
  revert i. induction scripts as [| script rest IH]; intros i Hd; [left; reflexivity |].
  assert (Hi : entries s !! i = Some script).
  { rewrite <- (Nat.add_0_r i), <- lookup_drop, <- Hd. reflexivity. }
  assert (Hr : rest = drop (S i) (entries s)).
  { rewrite <- Nat.add_1_r, <- drop_drop, <- Hd. reflexivity. }
  cbn [get_script2_alt_index_from].
  destruct (val script) as [| | | | v | |] eqn:Hv; try (left; reflexivity).
  destruct (py_find s_marker v =? -1)%Z; [apply IH, Hr |].
  destruct (py_in s2 _); [| apply IH, Hr].
  destruct (unwrap_inner_html _) as [inner |] eqn:Hu; [| apply IH, Hr].
  right. exists i, script, v, inner. repeat split; try assumption.
  unfold bind, set_entry_val. rewrite Hi. reflexivity.
Qed.

(** C9: extraction changes the caller's entry list in at most one place:
    either the list comes back unchanged, or the site-metadata lookup fell
    back to the wrapper path ([get_script2_index] found nothing), and
    exactly one entry [i], whose value is a string [v] holding the wrapper,
    has its value replaced by the unwrapped inner HTML; its id, tag and
    length, and every other entry, stay as they were. *)
Theorem extraction_mutates_one_val (fs : list frame) :
  snd (extract_data_from_scripts fs) = fs \/
  exists i f v inner, get_script2_index fs = (-1)%Z /\ fs !! i = Some f /\ val f = JStr v /\
    unwrap_inner_html (py_drop (py_find s_marker v) v) = Some inner /\
    snd (extract_data_from_scripts fs) = <[i := with_val f inner]> fs.
Proof.
  set (s0 := mkSt fs empty_record).
  assert (Hx : snd (extract_data_from_scripts fs) = entries (snd (site_block s0))).
  { rewrite extract_entries. apply keeps_profile_block_entries. }
  rewrite Hx.
  unfold site_block. rewrite bind_get_entries. rewrite bind_keeps by keeps_tac.
  change (entries s0) with fs.
  destruct (get_script2_index fs =? -1)%Z eqn:E; [| left; reflexivity].
  apply Z.eqb_eq in E.
  unfold get_script2_alt_index. rewrite bind_get_entries.
  destruct (alt_index_from_effect fs 0 s0 (eq_sym (drop_0 fs)))
    as [H | (j & f & v & inner & Hj & Hv & Hu & H)].
  - left. exact H.
  - right. exists j, f, v, inner. auto.
Qed.

(** ** C7 *)

Lemma get_script4_index_from_first (pre post : list frame) (f : frame) (i : nat) :
  Forall not_profile pre -> hex_string f = str "4" ->
  get_script4_index_from (pre ++ f :: post) i = Z.of_nat (i + length pre).
Proof.
  revert i. induction pre as [| g pre IH]; intros i Hpre Hf; cbn [app get_script4_index_from].
  - rewrite bool_decide_true by exact Hf. f_equal. simpl. lia.
  - inversion Hpre as [| ? ? Hg Hrest]; subst.
    rewrite bool_decide_false by exact Hg. rewrite IH by assumption. f_equal. simpl. lia.
Qed.

Lemma get_script4_index_from_none (fs : list frame) (i : nat) :
  Forall not_profile fs -> get_script4_index_from fs i = (-1)%Z.
Proof.
  revert i. induction fs as [| g fs IH]; intros i Hfs; cbn [get_script4_index_from]; [reflexivity |].
  inversion Hfs as [| ? ? Hg Hrest]; subst.
  rewrite bool_decide_false by exact Hg. auto.
Qed.

Lemma set_entry_val_raise (i : nat) (v : jvalue) (s s' : st) :
  set_entry_val i v s = (None, s') -> s' = s.
Proof. unfold set_entry_val. destruct (entries s !! i); congruence. Qed.

(** the alternative lookup changes the state only when it selects an entry *)
Lemma alt_index_from_state (scripts : list frame) (i : nat) (s : st) :
  snd (get_script2_alt_index_from scripts i s) = s \/
  exists j, fst (get_script2_alt_index_from scripts i s) = Some (Z.of_nat j).
Proof.
  revert i. induction scripts as [| g rest IH]; intros i; cbn [get_script2_alt_index_from];
    [left; reflexivity |].
  destruct (val g); try (left; reflexivity).
  destruct (py_find s_marker _ =? -1)%Z; [apply IH |].
  destruct (py_in s2 _); [| apply IH].
  destruct (unwrap_inner_html _) as [inner |]; [| apply IH].
  unfold bind. destruct (set_entry_val i inner s) as [[[] |] s'] eqn:E.
  - right. exists i. reflexivity.
  - left. cbn [snd]. by apply set_entry_val_raise in E.
Qed.

(** when the site-metadata lookup selects no entry, the first block
    changes nothing *)
Lemma site_block_unselected (fs : list frame) :
  site_unselected fs -> snd (site_block (mkSt fs empty_record)) = mkSt fs empty_record.
Proof.
  intros [Hidx Halt]. unfold site_block. rewrite bind_get_entries. cbn [entries].
  rewrite Hidx, Z.eqb_refl. unfold get_script2_alt_index in *. unfold bind at 1.
  rewrite bind_get_entries in *. cbn [entries] in *.
  destruct (alt_index_from_state fs 0 (mkSt fs empty_record)) as [Hs | (j & Hj)].
  - destruct (get_script2_alt_index_from fs 0 (mkSt fs empty_record)) as [[i |] s'] eqn:E;
      cbn [fst snd] in *; subst s'; [| reflexivity].
    subst i. reflexivity.
  - rewrite Hj in Halt. lia.
Qed.

(** without a profile entry the second block changes nothing *)
Lemma profile_block_noop (s : st) :
  Forall not_profile (entries s) -> profile_block s = (Some tt, s).
Proof.
  intros Hfs. unfold profile_block. rewrite bind_get_entries.
  unfold get_script4_index. rewrite get_script4_index_from_none by exact Hfs. reflexivity.
Qed.

Lemma entry_val_lookup (E : list frame) (o : business_record) (idx : nat) (g : frame) :
  E !! idx = Some g -> entry_val (Z.of_nat idx) (mkSt E o) = (Some (val g), mkSt E o).
Proof.
  intros H. unfold entry_val. rewrite bind_get_entries. cbn [entries].
  rewrite Nat2Z.id, H. reflexivity.
Qed.

(** the profile block reads the first profile entry and nothing else *)
Lemma profile_block_first (pre post : list frame) (f : frame) (o : business_record) :
  Forall not_profile pre -> hex_string f = str "4" ->
  out (snd (profile_block (mkSt (pre ++ f :: post) o))) = out (snd (profile_block (mkSt [f] o))).
Proof.
  intros Hpre Hf. unfold profile_block. rewrite !bind_get_entries. cbn [entries].
  unfold get_script4_index.
  rewrite (get_script4_index_from_first pre post f 0) by assumption.
  rewrite (get_script4_index_from_first [] [] f 0 (Forall_nil_2 _) Hf : get_script4_index_from [f] 0 = _).
  cbn [length]. rewrite !Nat.add_0_l.
  rewrite (proj2 (Z.eqb_neq _ _)) by lia.
  rewrite (proj2 (Z.eqb_neq (Z.of_nat 0) _)) by lia.
  rewrite (bind_ok _ _ _ _ _ (entry_val_lookup (pre ++ f :: post) o (length pre) f
             ltac:(rewrite lookup_app_r, Nat.sub_diag by lia; reflexivity))).
  rewrite (bind_ok _ _ _ _ _ (entry_val_lookup [f] o 0 f eq_refl)).
  apply out_only_out. out_only_tac.
Qed.

(** C7 (counterexample): a frame list with two profile entries and no
    site-metadata entry, the second being the profile of [example_buffer]
    with a facebookUrl and a team: only the first, empty, profile entry is
    read, and the record stays empty; the same profile entry alone fills
    facebookUrl and teamMembers. *)
Lemma profile_fields_not_populated :
  hex_string bare_profile_frame = str "4" /\ hex_string example_frame = str "4" /\
  decode example_buffer = Some [example_frame] /\
  fst (extract_data_from_scripts [bare_profile_frame; example_frame]) = empty_record /\
  facebookUrl (fst (extract_data_from_scripts [example_frame])) = Some (JStr (str "https://fb.com/x")).
Proof.
  split; [reflexivity |]. split; [reflexivity |].
  split; [vm_compute; reflexivity |].
  split; vm_compute; reflexivity.
Qed.

(** C7 (amended): the two lookups are independent.
    (a) When the site-metadata lookup selects no entry (no value starts
    with the context marker, and the alternative lookup returns -1 or
    raises) and [f] is the first entry with id "4", extraction gives
    exactly the record that the profile lookup gives on the list [[f]],
    with no url: facebookUrl, instagramUrl and teamMembers come from [f],
    each present when [f]'s profile has it truthy and reading it did not
    raise first.
    (b) When no entry has id "4", extraction gives exactly the record of
    the site-metadata lookup, with no facebookUrl, instagramUrl or
    teamMembers. *)
Theorem lookups_independent :
  (forall (pre post : list frame) (f : frame),
     site_unselected (pre ++ f :: post) -> Forall not_profile pre -> hex_string f = str "4" ->
     fst (extract_data_from_scripts (pre ++ f :: post)) = out (snd (profile_block (mkSt [f] empty_record))) /\
     url (fst (extract_data_from_scripts (pre ++ f :: post))) = None) /\
  (forall fs : list frame,
     Forall not_profile fs ->
     fst (extract_data_from_scripts fs) = out (snd (site_block (mkSt fs empty_record))) /\
     facebookUrl (fst (extract_data_from_scripts fs)) = None /\
     instagramUrl (fst (extract_data_from_scripts fs)) = None /\
     teamMembers (fst (extract_data_from_scripts fs)) = None).
Proof.
  split.
  - intros pre post f Hsite Hpre Hf.
    rewrite !extract_out, site_block_unselected by assumption.
    split; [apply profile_block_first; assumption |].
    change (url (out (snd (profile_block (mkSt (pre ++ f :: post) empty_record)))))
      with (out_url (snd (profile_block (mkSt (pre ++ f :: post) empty_record)))).
    rewrite keeps_profile_block_url. reflexivity.
  - intros fs Hfs.
    assert (Hs1 : Forall not_profile (entries (snd (site_block (mkSt fs empty_record))))).
    { apply not_profile_ids. rewrite (keeps_site_block_ids (mkSt fs empty_record)).
      apply not_profile_ids. exact Hfs. }
    rewrite !extract_out, (profile_block_noop _ Hs1). cbn [snd].
    pose proof (keeps_site_block_profile (mkSt fs empty_record)) as Hp.
    unfold out_profile in Hp. cbn [out] in Hp. injection Hp as H1 H2 H3.
    auto.
Qed.

Lemma lookups_independent_witness :
  (site_unselected ([wrapper_frame] ++ example_frame :: []) /\
   fst (extract_data_from_scripts ([wrapper_frame] ++ example_frame :: [])) =
     out (snd (profile_block (mkSt [example_frame] empty_record))) /\
   url (fst (extract_data_from_scripts ([wrapper_frame] ++ example_frame :: []))) = None) /\
  (fst (extract_data_from_scripts [site_frame]) = out (snd (site_block (mkSt [site_frame] empty_record))) /\
   facebookUrl (fst (extract_data_from_scripts [site_frame])) = None /\
   instagramUrl (fst (extract_data_from_scripts [site_frame])) = None /\
   teamMembers (fst (extract_data_from_scripts [site_frame])) = None).
Proof.
  split.
  - assert (Hu : site_unselected ([wrapper_frame] ++ example_frame :: [])).
    { split; vm_compute; reflexivity. }
    split; [exact Hu |].
    apply (proj1 lookups_independent [wrapper_frame] [] example_frame Hu).
    + constructor; [| constructor]. unfold not_profile. intros H. vm_compute in H. discriminate H.
    + reflexivity.
  - apply (proj2 lookups_independent [site_frame]).
    constructor; [| constructor]. unfold not_profile. intros H. vm_compute in H. discriminate H.
Defined.

(** ** C6 *)

(** *** Whitespace and digit runs *)

Lemma skip_ws_app (w s : pystr) : ws_only w -> skip_ws (w ++ s) = skip_ws s.
Proof. induction 1 as [| c w Hc _ IH]; simpl; [reflexivity | by rewrite Hc]. Qed.

Lemma skip_ws_nonws (c : N) (s : pystr) : is_ws c = false -> skip_ws (c :: s) = c :: s.
Proof. intros H. simpl. by rewrite H. Qed.

Lemma skip_ws_spec (s : pystr) :
  exists w, s = w ++ skip_ws s /\ ws_only w /\
    (forall c r, skip_ws s = c :: r -> is_ws c = false).
Proof.
  induction s as [| c s IH]; simpl.
  - exists []. split; [reflexivity |]. split; [constructor | discriminate].
  - destruct (is_ws c) eqn:E.
    + destruct IH as (w & Hw & Hws & Hh). exists (c :: w). simpl. rewrite <- Hw.
      split; [reflexivity |]. split; [by constructor | exact Hh].
    + exists []. split; [reflexivity |]. split; [constructor |]. intros c' r H. by injection H as -> _.
Qed.

Lemma skip_ws_length (s : pystr) : (length (skip_ws s) <= length s)%nat.
Proof. induction s as [| c s IH]; simpl; [lia |]. destruct (is_ws c); simpl; lia. Qed.

Lemma ws_only_app (w1 w2 : pystr) : ws_only w1 -> ws_only w2 -> ws_only (w1 ++ w2).
Proof. intros H1 H2. by apply Forall_app. Qed.

Lemma span_digits_spec (s ds r : pystr) :
  span_digits s = (ds, r) -> s = ds ++ r /\ digit_list ds /\ (forall c r0, r = c :: r0 -> is_digit c = false).
Proof.
  revert ds r. induction s as [| c s IH]; intros ds r H; simpl in H.
  - injection H as <- <-. split; [reflexivity |]. split; [constructor | discriminate].
  - destruct (is_digit c) eqn:E.
    + destruct (span_digits s) as [ds' r'] eqn:Es. injection H as <- <-.
      destruct (IH ds' r' eq_refl) as (-> & Hd & Hr). split; [reflexivity |].
      split; [by constructor | exact Hr].
    + injection H as <- <-. split; [reflexivity |]. split; [constructor |].
      intros c' r0 Hc. by injection Hc as -> _.
Qed.

Lemma span_digits_app (ds s : pystr) :
  digit_list ds -> span_digits (ds ++ s) = (ds ++ fst (span_digits s), snd (span_digits s)).
Proof.
  induction 1 as [| c ds Hc _ IH]; simpl.
  - by destruct (span_digits s).
  - rewrite Hc, IH. reflexivity.
Qed.

Lemma span_digits_stop (c : N) (s : pystr) : is_digit c = false -> span_digits (c :: s) = ([], c :: s).
Proof. intros H. simpl. by rewrite H. Qed.

Lemma span_digits_suffix (s : pystr) : snd (span_digits s) `suffix_of` s.
Proof.
  destruct (span_digits s) as [ds r] eqn:E. apply span_digits_spec in E as (-> & _ & _).
  simpl. by exists ds.
Qed.

(** a character that continues a number stops neither a digit run nor a
    fraction nor an exponent; all other characters stop each of them *)
Lemma nocont_span (s : pystr) : nocont s -> span_digits s = ([], s).
Proof. destruct s as [| c s]; [reflexivity |]. intros (H & _). by apply span_digits_stop. Qed.

Lemma nocont_frac (s : pystr) : nocont s -> num_frac s = ([], s).
Proof.
  destruct s as [| c [| d s]]; try reflexivity. intros (_ & H & _).
  unfold num_frac. destruct (N.eqb_spec c 46); [contradiction | reflexivity].
Qed.

Lemma nocont_exp (s : pystr) : nocont s -> num_exp s = (false, false, [], s).
Proof.
  destruct s as [| c s]; [reflexivity |]. intros (_ & _ & H1 & H2).
  unfold num_exp. destruct (N.eqb_spec c 101); [contradiction |].
  destruct (N.eqb_spec c 69); [contradiction | reflexivity].
Qed.

Lemma num_frac_suffix (s : pystr) : snd (num_frac s) `suffix_of` s.
Proof.
  unfold num_frac. destruct s as [| d0 [| d1 r]]; try reflexivity.
  destruct ((d0 =? 46) && is_digit d1); [| reflexivity].
  destruct (span_digits r) as [ds r'] eqn:E. simpl.
  apply span_digits_spec in E as (-> & _ & _). by exists (d0 :: d1 :: ds).
Qed.

Lemma num_exp_suffix (s : pystr) : snd (num_exp s) `suffix_of` s.
Proof.
  unfold num_exp. destruct s as [| e r]; [reflexivity |].
  destruct ((e =? 101) || (e =? 69)); [| reflexivity].
  assert (Hsg : snd (match r with
                     | x :: r'' => if x =? 45 then (true, r'') else if x =? 43 then (false, r'') else (false, r)
                     | [] => (false, r)
                     end) `suffix_of` (e :: r)).
  { destruct r as [| x r'']; simpl; [by exists [e] |].
    destruct (x =? 45); [by exists [e; x] |]. destruct (x =? 43); [by exists [e; x] | by exists [e]]. }
  destruct (match r with
            | x :: r'' => if x =? 45 then (true, r'') else if x =? 43 then (false, r'') else (false, r)
            | [] => (false, r)
            end) as [sg r'] eqn:Esg.
  simpl in Hsg.
  destruct (span_digits r') as [ds r''] eqn:E.
  pose proof (span_digits_suffix r') as Hs. rewrite E in Hs. simpl in Hs.
  destruct ds; simpl; [reflexivity |]. by transitivity r'.
Qed.

(** *** Numbers *)

Lemma is_digit_range (d : N) : is_digit d = true <-> 48 <= d <= 57.
Proof. unfold is_digit. rewrite andb_true_iff, !N.leb_le. reflexivity. Qed.

Ltac digit_facts :=
  repeat match goal with
  | H : is_digit _ = true |- _ => apply is_digit_range in H
  | H : is_digit _ = false |- _ =>
      let H' := fresh in assert (H' := H); rewrite <- not_true_iff_false, is_digit_range in H'; clear H
  | |- is_digit _ = true => apply is_digit_range
  | |- is_digit _ = false => apply not_true_iff_false; rewrite is_digit_range
  | |- (_ =? _) = false => apply N.eqb_neq
  end.

Lemma frac_stop (c : N) (s : pystr) : c <> 46 -> num_frac (c :: s) = ([], c :: s).
Proof.
  intros H. destruct s as [| d s]; [reflexivity |].
  unfold num_frac. destruct (N.eqb_spec c 46); [contradiction | reflexivity].
Qed.

Lemma num_sign_spec (s s1 : pystr) (neg : bool) :
  num_sign s = (neg, s1) -> exists sg, s = sg ++ s1 /\ (sg = [] \/ sg = [45]).
Proof.
  unfold num_sign. destruct s as [| c r].
  - intros E. injection E as <- <-. exists []. auto.
  - destruct (N.eqb_spec c 45) as [-> |]; intros E; injection E as <- <-.
    + exists [45]. auto.
    + exists []. auto.
Qed.

Lemma num_int_spec (s ip r : pystr) : num_int s = Some (ip, r) -> s = ip ++ r /\ int_lit ip.
Proof.
  unfold num_int. destruct s as [| c s]; [discriminate |].
  destruct ((49 <=? c) && (c <=? 57)) eqn:E.
  - destruct (span_digits s) as [ds r2] eqn:Es. intros H. injection H as <- <-.
    apply span_digits_spec in Es as (-> & Hd & _). split; [reflexivity |].
    apply andb_true_iff in E as [E1 E2]. apply N.leb_le in E1, E2. constructor; [lia | exact Hd].
  - destruct (N.eqb_spec c 48) as [-> |]; [| discriminate].
    intros H. injection H as <- <-. split; [reflexivity | constructor].
Qed.

Lemma num_frac_spec (s fp r : pystr) : num_frac s = (fp, r) -> exists ft, s = ft ++ r /\ frac_lit ft.
Proof.
  unfold num_frac. destruct s as [| d0 [| d1 s]];
    try (intros H; injection H as <- <-; exists []; split; [reflexivity | constructor]).
  destruct ((d0 =? 46) && is_digit d1) eqn:E.
  - destruct (span_digits s) as [ds r'] eqn:Es. intros H. injection H as <- <-.
    apply span_digits_spec in Es as (-> & Hd & _).
    apply andb_true_iff in E as [E1 E2]. apply N.eqb_eq in E1 as ->.
    exists (46 :: d1 :: ds). split; [reflexivity |]. constructor; [discriminate | by constructor].
  - intros H. injection H as <- <-. exists []. split; [reflexivity | constructor].
Qed.

Lemma num_exp_spec (s ep r : pystr) (h eneg : bool) :
  num_exp s = (h, eneg, ep, r) -> exists et, s = et ++ r /\ exp_lit et.
Proof.
  unfold num_exp. destruct s as [| e s].
  { intros H. injection H as <- <- <- <-. exists []. split; [reflexivity | constructor]. }
  destruct ((e =? 101) || (e =? 69)) eqn:Ee.
  2:{ intros H. injection H as <- <- <- <-. exists []. split; [reflexivity | constructor]. }
  assert (Hsg : exists sgt, s = sgt ++ snd (match s with
                     | x :: r'' => if x =? 45 then (true, r'') else if x =? 43 then (false, r'') else (false, s)
                     | [] => (false, s)
                     end) /\ (sgt = [] \/ sgt = [43] \/ sgt = [45])).
  { destruct s as [| x r'']; simpl; [exists []; auto |].
    destruct (N.eqb_spec x 45) as [-> |]; [exists [45]; auto |].
    destruct (N.eqb_spec x 43) as [-> |]; [exists [43]; auto | exists []; auto]. }
  destruct (match s with
            | x :: r'' => if x =? 45 then (true, r'') else if x =? 43 then (false, r'') else (false, s)
            | [] => (false, s)
            end) as [sg r'] eqn:Esg.
  destruct Hsg as (sgt & Hs & Hsgt). simpl in Hs.
  destruct (span_digits r') as [ds r''] eqn:Ed.
  apply span_digits_spec in Ed as (-> & Hd & _).
  destruct ds as [| d ds].
  - intros H. injection H as <- <- <- <-. exists []. split; [reflexivity | constructor].
  - intros H. injection H as <- <- <- <-. exists (e :: sgt ++ d :: ds).
    split; [rewrite Hs; simpl; f_equal; by rewrite <- app_assoc |].
    constructor; [| exact Hsgt | discriminate | exact Hd].
    apply orb_true_iff in Ee as [E | E]; apply N.eqb_eq in E; auto.
Qed.

Lemma num_frac_empty (s r : pystr) : num_frac s = ([], r) -> r = s.
Proof.
  unfold num_frac. destruct s as [| d0 [| d1 s]]; try congruence.
  destruct ((d0 =? 46) && is_digit d1); [| congruence].
  destruct (span_digits s); discriminate.
Qed.

Lemma num_exp_empty (s ep r : pystr) (eneg : bool) : num_exp s = (false, eneg, ep, r) -> r = s.
Proof. unfold num_exp. repeat case_match; congruence. Qed.

Lemma num_frac_moves (s fp : pystr) : num_frac s = (fp, s) -> fp = [].
Proof.
  unfold num_frac. destruct s as [| d0 [| d1 s]]; try congruence.
  destruct ((d0 =? 46) && is_digit d1); [| congruence].
  pose proof (span_digits_suffix s) as Hs. destruct (span_digits s) as [ds r']. cbn [snd] in Hs.
  intros H. injection H as _ H. subst r'. apply suffix_length in Hs. simpl in Hs. lia.
Qed.

Lemma num_exp_moves (s ep : pystr) (eneg : bool) : num_exp s <> (true, eneg, ep, s).
Proof.
  unfold num_exp. intros H. repeat case_match; simplify_eq;
    repeat match goal with
    | E : span_digits ?x = (_, ?y) |- _ =>
        let Hs := fresh in
        pose proof (span_digits_suffix x) as Hs; rewrite E in Hs; cbn [snd] in Hs;
        apply suffix_length in Hs; clear E
    end; simpl in *; lia.
Qed.

Lemma int_lit_head (ip : pystr) : int_lit ip -> digit_list ip /\ exists d r, ip = d :: r /\ 48 <= d <= 57.
Proof.
  intros [| d ds Hd Hds].
  - split; [constructor; [reflexivity | constructor] | exists 48, []; split; [reflexivity | lia]].
  - split; [constructor; [apply is_digit_range; lia | exact Hds] | exists d, ds; split; [reflexivity | lia]].
Qed.

(** a number literal that is also an integer literal is its sign and its
    integer part *)
Lemma int_form_unique (sg ip ft et sg' ip' : pystr) :
  (sg = [] \/ sg = [45]) -> int_lit ip -> frac_lit ft -> exp_lit et ->
  (sg' = [] \/ sg' = [45]) -> int_lit ip' ->
  sg ++ ip ++ ft ++ et = sg' ++ ip' -> ip' = ip /\ ft = [] /\ et = [].
Proof.
  intros Hsg Hip Hft Het Hsg' Hip' Heq.
  destruct (int_lit_head _ Hip) as (_ & d & r & -> & Hd).
  destruct (int_lit_head _ Hip') as (Hdl' & d' & r' & -> & Hd').
  assert (sg' = sg) as ->.
  { destruct Hsg as [-> | ->], Hsg' as [-> | ->]; try reflexivity;
      simpl in Heq; injection Heq; intros; lia. }
  apply app_inv_head in Heq. rewrite <- Heq in Hdl'.
  unfold digit_list in Hdl'. rewrite !Forall_app in Hdl'. destruct Hdl' as (_ & Hf & He).
  assert (ft = []) as ->.
  { destruct Hft as [| ds _ _]; [reflexivity |]. apply Forall_cons in Hf as [Hf _]. discriminate. }
  assert (et = []) as ->.
  { destruct Het as [| e sg2 ds [-> | ->] _ _ _]; [reflexivity | |];
      apply Forall_cons in He as [He _]; discriminate. }
  rewrite !app_nil_r in Heq. auto.
Qed.

(** what the number scanner reads once it has an integer part: a number
    literal [t0], which it turns into a value unless [t0] is an integer
    literal over the digit limit *)
Lemma match_number_read (s ip r2 : pystr) :
  num_int (snd (num_sign s)) = Some (ip, r2) ->
  exists t0, s = t0 ++ snd (num_exp (snd (num_frac r2))) /\ number_lit t0 /\
    (int_digits_ok t0 -> exists v, match_number s = Some (v, snd (num_exp (snd (num_frac r2))))).
Proof.
  unfold match_number. destruct (num_sign s) as [neg s1] eqn:E1. cbn [snd]. intros E2. rewrite E2.
  apply num_sign_spec in E1 as (sg & -> & Hsg).
  apply num_int_spec in E2 as (-> & Hip).
  destruct (num_frac r2) as [fp r3] eqn:E3. cbn [snd].
  destruct (num_exp r3) as [[[h eneg] ep] r4] eqn:E4. cbn [snd].
  destruct fp as [| x fp]; [destruct h |].
  - apply num_frac_empty in E3 as ->.
    destruct (num_exp_spec _ _ _ _ _ E4) as (et & -> & Het).
    exists (sg ++ ip ++ et). split; [by rewrite <- !app_assoc |].
    split; [exists sg, ip, [], et; repeat split; auto; constructor |].
    intros _. eexists. reflexivity.
  - apply num_frac_empty in E3 as ->. apply num_exp_empty in E4 as ->.
    exists (sg ++ ip). split; [by rewrite <- app_assoc |].
    split; [exists sg, ip, [], []; rewrite !app_nil_r; repeat split; auto; constructor |].
    intros Hok. specialize (Hok sg ip eq_refl Hsg Hip).
    destruct (Nat.ltb_spec int_max_str_digits (length ip)); [lia |]. eexists. reflexivity.
  - destruct (num_frac_spec _ _ _ E3) as (ft & -> & Hft).
    destruct (num_exp_spec _ _ _ _ _ E4) as (et & -> & Het).
    exists (sg ++ ip ++ ft ++ et). split; [by rewrite <- !app_assoc |].
    split; [exists sg, ip, ft, et; auto |].
    intros _. destruct h; eexists; reflexivity.
Qed.

(** where the number scanner stops *)
Lemma match_number_rest (s ip r2 r : pystr) (v : jvalue) :
  num_int (snd (num_sign s)) = Some (ip, r2) -> match_number s = Some (v, r) ->
  r = snd (num_exp (snd (num_frac r2))).
Proof.
  unfold match_number. destruct (num_sign s) as [neg s1]. cbn [snd]. intros E2. rewrite E2.
  destruct (num_frac r2) as [fp r3]. cbn [snd]. destruct (num_exp r3) as [[[h eneg] ep] r4]. cbn [snd].
  destruct fp, h; try (destruct (int_max_str_digits <? length ip)%nat); congruence.
Qed.

(** the number scanner reads a number literal within the digit limit *)
Lemma match_number_sound (s r : pystr) (v : jvalue) :
  match_number s = Some (v, r) -> exists t, s = t ++ r /\ number_lit t /\ int_digits_ok t.
Proof.
  intros H. pose proof H as H0. unfold match_number in H0.
  destruct (num_sign s) as [neg s1] eqn:E1.
  destruct (num_int s1) as [[ip r2] |] eqn:E2; [| discriminate].
  destruct (num_frac r2) as [fp r3] eqn:E3.
  destruct (num_exp r3) as [[[h eneg] ep] r4] eqn:E4.
  apply num_sign_spec in E1 as (sg & -> & Hsg).
  apply num_int_spec in E2 as (-> & Hip).
  destruct (num_frac_spec _ _ _ E3) as (ft & -> & Hft).
  destruct (num_exp_spec _ _ _ _ _ E4) as (et & -> & Het).
  assert (Hn : number_lit (sg ++ ip ++ ft ++ et)) by (exists sg, ip, ft, et; auto).
  destruct fp as [| x fp], h.
  - injection H0 as _ <-. exists (sg ++ ip ++ ft ++ et). split; [by rewrite <- !app_assoc |].
    split; [exact Hn |]. intros sg' ip' Heq Hsg' Hip'.
    destruct (int_form_unique _ _ _ _ _ _ Hsg Hip Hft Het Hsg' Hip' Heq) as (_ & _ & ->).
    exfalso. apply (num_exp_moves r4 ep eneg). exact E4.
  - destruct (Nat.ltb_spec int_max_str_digits (length ip)); [discriminate |].
    injection H0 as _ <-. exists (sg ++ ip ++ ft ++ et). split; [by rewrite <- !app_assoc |].
    split; [exact Hn |]. intros sg' ip' Heq Hsg' Hip'.
    destruct (int_form_unique _ _ _ _ _ _ Hsg Hip Hft Het Hsg' Hip' Heq) as (-> & _). lia.
  - injection H0 as _ <-. exists (sg ++ ip ++ ft ++ et). split; [by rewrite <- !app_assoc |].
    split; [exact Hn |]. intros sg' ip' Heq Hsg' Hip'.
    destruct (int_form_unique _ _ _ _ _ _ Hsg Hip Hft Het Hsg' Hip' Heq) as (_ & -> & _).
    cbn [app] in E3. apply num_frac_moves in E3. discriminate.
  - injection H0 as _ <-. exists (sg ++ ip ++ ft ++ et). split; [by rewrite <- !app_assoc |].
    split; [exact Hn |]. intros sg' ip' Heq Hsg' Hip'.
    destruct (int_form_unique _ _ _ _ _ _ Hsg Hip Hft Het Hsg' Hip' Heq) as (_ & -> & _).
    cbn [app] in E3. apply num_frac_moves in E3. discriminate.
Qed.

Lemma num_int_complete (ip X : pystr) :
  int_lit ip ->
  exists ip' r2, num_int (ip ++ X) = Some (ip', r2) /\ r2 `suffix_of` X /\
    (span_digits X = ([], X) -> r2 = X).
Proof.
  intros [| d ds Hd Hds]; simpl.
  - eexists _, X. split; [reflexivity |]. split; [reflexivity | auto].
  - assert (E : (49 <=? d) && (d <=? 57) = true).
    { apply andb_true_iff. rewrite !N.leb_le. lia. }
    rewrite E, span_digits_app by exact Hds.
    eexists _, _. split; [reflexivity |]. split; [apply span_digits_suffix |].
    intros ->. reflexivity.
Qed.

Lemma num_frac_complete (ds X : pystr) :
  ds <> [] -> digit_list ds -> snd (num_frac (46 :: ds ++ X)) = snd (span_digits X).
Proof.
  intros Hne Hd. destruct ds as [| d1 ds]; [contradiction |].
  inversion Hd as [| ? ? Hd1 Hds]; subst.
  simpl. rewrite Hd1. cbn [andb]. rewrite span_digits_app by exact Hds. reflexivity.
Qed.

Lemma num_exp_complete (e : N) (sg ds X : pystr) :
  (e = 101 \/ e = 69) -> (sg = [] \/ sg = [43] \/ sg = [45]) -> ds <> [] -> digit_list ds ->
  snd (num_exp (e :: sg ++ ds ++ X)) = snd (span_digits X).
Proof.
  intros He Hsg Hne Hd. destruct ds as [| d ds]; [contradiction |].
  inversion Hd as [| ? ? Hd1 Hds]; subst.
  assert (Hee : (e =? 101) || (e =? 69) = true).
  { apply orb_true_iff. destruct He as [-> | ->]; [left | right]; reflexivity. }
  unfold num_exp. rewrite Hee.
  assert (Hd45 : (d =? 45) = false) by (digit_facts; lia).
  assert (Hd43 : (d =? 43) = false) by (digit_facts; lia).
  destruct Hsg as [-> | [-> | ->]]; cbn [app]; rewrite ?Hd45, ?Hd43; cbn;
    rewrite ?Hd1, span_digits_app by exact Hds; reflexivity.
Qed.

Lemma first_digit_not (d : N) : is_digit d = true -> d <> 45 /\ d <> 46 /\ d <> 101 /\ d <> 69.
Proof. intros H. digit_facts. lia. Qed.

(** the number scanner reads at least a number literal that starts its
    input, and exactly that literal when no number can continue after it *)
Lemma match_number_complete (t r' : pystr) :
  number_lit t ->
  exists ip r2, num_int (snd (num_sign (t ++ r'))) = Some (ip, r2) /\
    snd (num_exp (snd (num_frac r2))) `suffix_of` r' /\
    (nocont r' -> snd (num_exp (snd (num_frac r2))) = r').
Proof.
  intros (sg & ip & fp & ep & -> & Hsg & Hip & Hfp & Hep).
  assert (Hsign : snd (num_sign ((sg ++ ip ++ fp ++ ep) ++ r')) = ip ++ fp ++ ep ++ r').
  { rewrite <- !app_assoc. destruct Hsg as [-> | ->]; [| reflexivity].
    destruct Hip as [| d ds Hd _]; simpl; [reflexivity |].
    destruct (N.eqb_spec d 45); [lia | reflexivity]. }
  destruct (num_int_complete ip (fp ++ ep ++ r') Hip) as (ip' & r2 & Hint & Hsuf2 & Hex2).
  rewrite <- Hsign in Hint.
  exists ip', r2. split; [exact Hint |].
  destruct Hfp as [| ds Hne Hds]; destruct Hep as [| e sg' ds' He Hsg' Hne' Hds'].
  - (* no fraction, no exponent *)
    simpl in *. split.
    + transitivity (snd (num_frac r2)); [apply num_exp_suffix |].
      transitivity r2; [apply num_frac_suffix | exact Hsuf2].
    + intros Hn. rewrite Hex2 by (by apply nocont_span). rewrite nocont_frac by exact Hn.
      rewrite nocont_exp by exact Hn. reflexivity.
  - (* exponent only *)
    rewrite Hex2 by (apply span_digits_stop; destruct He as [-> | ->]; reflexivity).
    cbn [app]. rewrite frac_stop by (destruct He as [-> | ->]; discriminate). cbn [snd].
    rewrite <- app_assoc, num_exp_complete by assumption.
    split; [apply span_digits_suffix |]. intros Hn. by rewrite nocont_span.
  - (* fraction only *)
    rewrite Hex2 by reflexivity. cbn [app]. rewrite num_frac_complete by assumption.
    split.
    + transitivity (snd (span_digits r')); [apply num_exp_suffix | apply span_digits_suffix].
    + intros Hn. rewrite nocont_span by exact Hn. cbn [snd]. by rewrite nocont_exp.
  - (* fraction and exponent *)
    rewrite Hex2 by reflexivity. cbn [app].
    rewrite num_frac_complete by assumption.
    rewrite span_digits_stop by (destruct He as [-> | ->]; reflexivity). cbn [snd].
    rewrite <- app_assoc, num_exp_complete by assumption.
    split; [apply span_digits_suffix |]. intros Hn. by rewrite nocont_span.
Qed.

(** a number literal within the digit limit, followed by what cannot
    continue it, is read exactly *)
Lemma match_number_exact (t r' : pystr) :
  number_lit t -> int_digits_ok t -> nocont r' -> exists v, match_number (t ++ r') = Some (v, r').
Proof.
  intros Hn Hok Hc. destruct (match_number_complete t r' Hn) as (ip & r2 & Hint & _ & Hr).
  destruct (match_number_read _ _ _ Hint) as (t0 & Hs & _ & Hv).
  rewrite Hr in Hs, Hv by exact Hc. apply app_inv_tail in Hs as <-. by apply Hv.
Qed.

(** the number scanner reads a number literal at least as long as any
    that starts its input, and succeeds unless that literal is an integer
    literal over the digit limit *)
Lemma match_number_reads (t r' : pystr) :
  number_lit t ->
  exists t0 r, t ++ r' = t0 ++ r /\ number_lit t0 /\ r `suffix_of` r' /\
    (int_digits_ok t0 -> exists v, match_number (t ++ r') = Some (v, r)).
Proof.
  intros Hn. destruct (match_number_complete t r' Hn) as (ip & r2 & Hint & Hsuf & _).
  destruct (match_number_read _ _ _ Hint) as (t0 & Hs & Hn0 & Hv). eauto 6.
Qed.

(** *** String literals *)

Lemma hex4_is_hex (a b c d u : N) :
  hex4 a b c d = Some u ->
  is_hex a = true /\ is_hex b = true /\ is_hex c = true /\ is_hex d = true.
Proof.
  unfold hex4, is_hex.
  destruct (hex_digit_value a), (hex_digit_value b), (hex_digit_value c), (hex_digit_value d);
    try discriminate; auto.
Qed.

Lemma hex4_of_hex (a b c d : N) :
  is_hex a = true -> is_hex b = true -> is_hex c = true -> is_hex d = true ->
  exists u, hex4 a b c d = Some u.
Proof.
  unfold hex4, is_hex.
  destruct (hex_digit_value a), (hex_digit_value b), (hex_digit_value c), (hex_digit_value d);
    intros; try discriminate; eauto.
Qed.

Lemma scan_string_sound (s acc x r : pystr) :
  scan_string s acc = Some (x, r) ->
  exists chunks, s = concat chunks ++ 34 :: r /\ Forall str_chunk chunks.
Proof.
  remember (length s) as n eqn:Hn. assert (Hlen : (length s <= n)%nat) by lia. clear Hn.
  revert s acc Hlen. induction n as [| n IH]; intros s acc Hlen H;
    (destruct s as [| c r0]; [discriminate |]); simpl in Hlen; [lia |].
  cbn [scan_string] in H.
  destruct (N.eqb_spec c 34) as [-> | Hc34].
  { injection H as _ <-. exists []. split; [reflexivity | constructor]. }
  destruct (N.eqb_spec c 92) as [-> | Hc92].
  - destruct r0 as [| e r1]; [discriminate |].
    destruct (N.eqb_spec e 117) as [-> | He117].
    + destruct r1 as [| h1 [| h2 [| h3 [| h4 r2]]]]; try discriminate.
      destruct (hex4 h1 h2 h3 h4) as [u |] eqn:Hh; [| discriminate].
      destruct (hex4_is_hex _ _ _ _ _ Hh) as (Ha1 & Ha2 & Ha3 & Ha4).
      destruct r2 as [| z2 r2']; [discriminate |].
      cbv beta iota in H.
      assert (Hone : scan_string (z2 :: r2') (u :: acc) = Some (x, r) ->
        exists chunks, 92 :: 117 :: h1 :: h2 :: h3 :: h4 :: z2 :: r2' = concat chunks ++ 34 :: r /\
          Forall str_chunk chunks).
      { intros H'. apply IH in H' as (chunks & Heq & Hf); [| simpl in *; lia].
        exists ([92; 117; h1; h2; h3; h4] :: chunks). rewrite Heq.
        split; [reflexivity | constructor; [constructor |]; assumption]. }
      destruct (is_high_surrogate u); [| exact (Hone H)].
      destruct r2' as [| v [| g1 [| g2 [| g3 [| g4 [| z r3]]]]]]; try exact (Hone H).
      destruct ((z2 =? 92) && (v =? 117)) eqn:E; [| exact (Hone H)].
      apply andb_true_iff in E as [E1 E2]. apply N.eqb_eq in E1, E2. subst z2 v.
      destruct (hex4 g1 g2 g3 g4) as [u2 |] eqn:Hg; [| discriminate].
      destruct (hex4_is_hex _ _ _ _ _ Hg) as (Hb1 & Hb2 & Hb3 & Hb4).
      destruct (is_low_surrogate u2); [| exact (Hone H)].
      apply IH in H as (chunks & -> & Hf); [| simpl in *; lia].
      exists ([92; 117; h1; h2; h3; h4] :: [92; 117; g1; g2; g3; g4] :: chunks).
      split; [reflexivity |]. repeat constructor; assumption.
    + repeat (match type of H with
              | (if e =? ?k then _ else _) = _ =>
                  destruct (N.eqb_spec e k) as [Hk | ?];
                  [ apply IH in H as (chunks & -> & Hf); [| simpl in *; lia];
                    exists ([92; e] :: chunks); split; [reflexivity |];
                    constructor; [constructor; subst e; simpl; tauto | assumption] | ]
              end).
      discriminate.
  - destruct (c <=? 31) eqn:Hc31; [discriminate |].
    apply IH in H as (chunks & -> & Hf); [| simpl in *; lia].
    exists ([c] :: chunks). split; [reflexivity |].
    constructor; [| assumption]. apply N.leb_gt in Hc31. constructor; [lia | assumption | assumption].
Qed.

Lemma scan_string_u_single (h1 h2 h3 h4 u : N) (r2 acc : pystr) :
  hex4 h1 h2 h3 h4 = Some u -> r2 <> [] ->
  (is_high_surrogate u = true -> forall g1 g2 g3 g4 r3,
     r2 = 92 :: 117 :: g1 :: g2 :: g3 :: g4 :: r3 -> r3 <> [] ->
     exists u2, hex4 g1 g2 g3 g4 = Some u2 /\ is_low_surrogate u2 = false) ->
  scan_string (92 :: 117 :: h1 :: h2 :: h3 :: h4 :: r2) acc = scan_string r2 (u :: acc).
Proof.
  intros Hh Hne Hno. cbn [scan_string N.eqb Pos.eqb]. rewrite Hh.
  destruct r2 as [| b r2']; [contradiction |]. cbv beta iota.
  destruct (is_high_surrogate u) eqn:Hs; [| reflexivity].
  destruct r2' as [| v [| g1 [| g2 [| g3 [| g4 [| z r3]]]]]]; try reflexivity.
  destruct ((b =? 92) && (v =? 117)) eqn:E; [| reflexivity].
  apply andb_true_iff in E as [E1 E2]. apply N.eqb_eq in E1, E2. subst b v.
  destruct (Hno eq_refl g1 g2 g3 g4 (z :: r3) eq_refl ltac:(discriminate)) as (u2 & Hg & Hl).
  rewrite Hg, Hl. reflexivity.
Qed.

Lemma scan_string_u_pair (h1 h2 h3 h4 g1 g2 g3 g4 u u2 : N) (r3 acc : pystr) :
  hex4 h1 h2 h3 h4 = Some u -> is_high_surrogate u = true ->
  hex4 g1 g2 g3 g4 = Some u2 -> is_low_surrogate u2 = true -> r3 <> [] ->
  scan_string (92 :: 117 :: h1 :: h2 :: h3 :: h4 :: 92 :: 117 :: g1 :: g2 :: g3 :: g4 :: r3) acc =
  scan_string r3 ((65536 + (u - 55296) * 1024 + (u2 - 56320)) :: acc).
Proof.
  intros Hh Hs Hg Hl Hne. cbn [scan_string N.eqb Pos.eqb]. rewrite Hh. cbv beta iota.
  rewrite Hs. destruct r3 as [| z r3]; [contradiction |]. cbn [N.eqb Pos.eqb andb].
  rewrite Hg, Hl. reflexivity.
Qed.

Lemma scan_string_complete (chunks : list pystr) (r : pystr) :
  Forall str_chunk chunks ->
  forall acc, exists x, scan_string (concat chunks ++ 34 :: r) acc = Some (x, r).
Proof.
  remember (length chunks) as n eqn:Hn. assert (Hlen : (length chunks <= n)%nat) by lia. clear Hn.
  revert chunks Hlen. induction n as [| n IH]; intros chunks Hlen Hf acc;
    (destruct chunks as [| ch rest]; [eexists; reflexivity |]); simpl in Hlen; [lia |].
  apply Forall_cons in Hf as [Hch Hrest].
  destruct Hch as [c Hc Hc34 Hc92 | e Hin | h1 h2 h3 h4 Ha1 Ha2 Ha3 Ha4].
  - cbn [concat app scan_string].
    destruct (N.eqb_spec c 34); [contradiction |]. destruct (N.eqb_spec c 92); [contradiction |].
    destruct (N.leb_spec c 31); [lia |]. apply IH; [lia | exact Hrest].
  - simpl in Hin.
    destruct Hin as [<- | [<- | [<- | [<- | [<- | [<- | [<- | [<- | []]]]]]]]];
      cbn [concat app scan_string N.eqb Pos.eqb]; (apply IH; [lia | exact Hrest]).
  - destruct (hex4_of_hex _ _ _ _ Ha1 Ha2 Ha3 Ha4) as [u Hh].
    cbn [concat app].
    assert (Hsingle : (is_high_surrogate u = true -> forall g1 g2 g3 g4 r3,
        concat rest ++ 34 :: r = 92 :: 117 :: g1 :: g2 :: g3 :: g4 :: r3 -> r3 <> [] ->
        exists u2, hex4 g1 g2 g3 g4 = Some u2 /\ is_low_surrogate u2 = false) ->
      exists x, scan_string (92 :: 117 :: h1 :: h2 :: h3 :: h4 :: concat rest ++ 34 :: r) acc = Some (x, r)).
    { intros Hno. rewrite scan_string_u_single with (u := u) by (auto; destruct (concat rest); discriminate).
      apply IH; [lia | exact Hrest]. }
    destruct rest as [| ch2 rest'].
    + apply Hsingle. intros _ g1 g2 g3 g4 r3 Heq. discriminate.
    + apply Forall_cons in Hrest as [Hch2 Hrest'].
      destruct Hch2 as [c2 Hc2 Hc234 Hc292 | e2 Hin2 | g1 g2 g3 g4 Hb1 Hb2 Hb3 Hb4].
      * apply Hsingle. intros _ g1 g2 g3 g4 r3 Heq. simpl in Heq. injection Heq as Heq. contradiction.
      * apply Hsingle. intros _ g1 g2 g3 g4 r3 Heq. simpl in Heq. injection Heq as He2 _. subst e2.
        simpl in Hin2. intuition discriminate.
      * destruct (hex4_of_hex _ _ _ _ Hb1 Hb2 Hb3 Hb4) as [u2 Hg].
        destruct (is_high_surrogate u && is_low_surrogate u2) eqn:Hp.
        -- apply andb_true_iff in Hp as [Hs Hl]. cbn [concat app].
           rewrite scan_string_u_pair with (u := u) (u2 := u2) by (auto; destruct (concat rest'); discriminate).
           apply IH; [simpl in Hlen; lia | exact Hrest'].
        -- apply Hsingle. intros Hs g1' g2' g3' g4' r3 Heq _. simpl in Heq.
           injection Heq as <- <- <- <- _. exists u2. split; [exact Hg |].
           rewrite Hs in Hp. exact Hp.
Qed.

(** *** The value scanner reads JSON texts *)

Lemma skip_ws_eq (s s' : pystr) : skip_ws s = s' -> exists w, s = w ++ s' /\ ws_only w.
Proof. intros <-. destruct (skip_ws_spec s) as (w & Hw & Hws & _). eauto. Qed.

Lemma json_in_members_ws (b : nat) (w m : pystr) :
  ws_only w -> json_in_members b m -> json_in_members b (w ++ m).
Proof.
  intros Hw Hm. destruct Hm; rewrite app_assoc; [apply JIM_one | apply JIM_cons]; auto using ws_only_app.
Qed.

Lemma json_in_elems_ws (b : nat) (w e : pystr) :
  ws_only w -> json_in_elems b e -> json_in_elems b (w ++ e).
Proof.
  intros Hw He. destruct He; rewrite app_assoc; [apply JIE_one | apply JIE_cons]; auto using ws_only_app.
Qed.

Ltac const_case H c r0 :=
  match type of H with
  | (if (c =? ?k) && prefixb ?p r0 then _ else _) = _ =>
      let E := fresh "E" in let E1 := fresh "E" in let E2 := fresh "E" in let t' := fresh "t" in
      destruct ((c =? k) && prefixb p r0) eqn:E;
      [ apply andb_true_iff in E as [E1 E2]; apply N.eqb_eq in E1; subst c;
        apply prefixb_spec in E2 as [t' ->]; injection H as _ <-;
        exists (k :: p); split; [reflexivity |];
        first [ apply JI_null | apply JI_true | apply JI_false
              | apply JI_nan | apply JI_inf | apply JI_ninf ]
      | ]
  end.

(** what the scanner reads is a JSON text within the limits *)
Lemma scan_sound (f : nat) :
  (forall b s v r, scan_once f b s = Some (v, r) -> exists t, s = t ++ r /\ json_in b t) /\
  (forall b s acc v r, parse_members f b s acc = Some (v, r) ->
     exists m, s = m ++ [125] ++ r /\ json_in_members b m) /\
  (forall b s acc v r, parse_elements f b s acc = Some (v, r) ->
     exists e, s = e ++ [93] ++ r /\ json_in_elems b e).
Proof.
  induction f as [| f (IHo & IHm & IHe)]; [split; [| split]; intros; discriminate |].
  split; [| split].
  - intros b s v r H. destruct s as [| c r0]; [discriminate |]. cbn [scan_once] in H.
    destruct (N.eqb_spec c 123) as [-> | ?].
    { destruct b as [| b]; [discriminate |].
      destruct (skip_ws r0) as [| c' r'] eqn:Hs; [discriminate |].
      apply skip_ws_eq in Hs as (w & -> & Hw).
      destruct (N.eqb_spec c' 125) as [-> | ?].
      - injection H as _ <-. exists ([123] ++ w ++ [125]). split; [by rewrite <- !app_assoc |].
        by apply JI_obj_empty.
      - apply IHm in H as (m & Heq & Hm). exists ([123] ++ (w ++ m) ++ [125]). rewrite Heq.
        split; [by rewrite <- !app_assoc |]. apply JI_obj. by apply json_in_members_ws. }
    destruct (N.eqb_spec c 91) as [-> | ?].
    { destruct b as [| b]; [discriminate |].
      destruct (skip_ws r0) as [| c' r'] eqn:Hs; [discriminate |].
      apply skip_ws_eq in Hs as (w & -> & Hw).
      destruct (N.eqb_spec c' 93) as [-> | ?].
      - injection H as _ <-. exists ([91] ++ w ++ [93]). split; [by rewrite <- !app_assoc |].
        by apply JI_arr_empty.
      - apply IHe in H as (e & Heq & He). exists ([91] ++ (w ++ e) ++ [93]). rewrite Heq.
        split; [by rewrite <- !app_assoc |]. apply JI_arr. by apply json_in_elems_ws. }
    destruct (N.eqb_spec c 34) as [-> | ?].
    { destruct (scan_string r0 []) as [[x r'] |] eqn:Hs; [| discriminate]. injection H as _ <-.
      apply scan_string_sound in Hs as (chunks & -> & Hf). exists ([34] ++ concat chunks ++ [34]).
      split; [by rewrite <- !app_assoc |]. apply JI_string. by exists chunks. }
    do 6 const_case H c r0.
    apply match_number_sound in H as (t & Ht & Hn & Hok). exists t. split; [exact Ht |].
    by apply JI_number.
  - intros b s acc v r H. destruct s as [| c r0]; [discriminate |]. cbn [parse_members] in H.
    destruct (N.eqb_spec c 34) as [-> | ?]; [| discriminate].
    destruct (scan_string r0 []) as [[key r1] |] eqn:Hk; [| discriminate].
    apply scan_string_sound in Hk as (chunks & -> & Hf).
    assert (Hk : string_lit ([34] ++ concat chunks ++ [34])) by (by exists chunks).
    destruct (skip_ws r1) as [| d r2] eqn:Hs1; [discriminate |].
    apply skip_ws_eq in Hs1 as (w2 & -> & Hw2).
    destruct (N.eqb_spec d 58) as [-> | ?]; [| discriminate].
    destruct (scan_once f b (skip_ws r2)) as [[v1 r3] |] eqn:Hv; [| discriminate].
    destruct (skip_ws_spec r2) as (w3 & Hr2 & Hw3 & _).
    apply IHo in Hv as (t & Ht & Htext). rewrite Ht in Hr2. subst r2. clear Ht.
    destruct (skip_ws r3) as [| e r4] eqn:Hs3; [discriminate |].
    apply skip_ws_eq in Hs3 as (w4 & -> & Hw4).
    destruct (N.eqb_spec e 125) as [-> | ?].
    + injection H as _ <-.
      exists ([] ++ ([34] ++ concat chunks ++ [34]) ++ w2 ++ [58] ++ w3 ++ t ++ w4).
      split; [by rewrite <- !app_assoc |]. apply JIM_one; auto. constructor.
    + destruct (N.eqb_spec e 44) as [-> | ?]; [| discriminate].
      destruct (skip_ws_spec r4) as (w5 & Hr4 & Hw5 & _).
      apply IHm in H as (m & Hm & Hmem). rewrite Hm in Hr4. subst r4.
      exists ([] ++ ([34] ++ concat chunks ++ [34]) ++ w2 ++ [58] ++ w3 ++ t ++ w4 ++ [44] ++ (w5 ++ m)).
      split; [by rewrite <- !app_assoc |].
      apply JIM_cons; auto; [constructor | by apply json_in_members_ws].
  - intros b s acc v r H. cbn [parse_elements] in H.
    destruct (scan_once f b s) as [[v1 r3] |] eqn:Hv; [| discriminate].
    apply IHo in Hv as (t & -> & Ht).
    destruct (skip_ws r3) as [| e r4] eqn:Hs3; [discriminate |].
    apply skip_ws_eq in Hs3 as (w2 & -> & Hw2).
    destruct (N.eqb_spec e 93) as [-> | ?].
    + injection H as _ <-. exists ([] ++ t ++ w2).
      split; [by rewrite <- !app_assoc |]. apply JIE_one; auto. constructor.
    + destruct (N.eqb_spec e 44) as [-> | ?]; [| discriminate].
      destruct (skip_ws_spec r4) as (w5 & Hr4 & Hw5 & _).
      apply IHe in H as (e & He & Hel). rewrite He in Hr4. subst r4.
      exists ([] ++ t ++ w2 ++ [44] ++ (w5 ++ e)).
      split; [by rewrite <- !app_assoc |].
      apply JIE_cons; auto; [constructor | by apply json_in_elems_ws].
Qed.

(** the texts within the limits are JSON texts *)
Lemma json_in_text :
  (forall b t, json_in b t -> json_text true t) /\
  (forall b e, json_in_elems b e -> json_elems true e) /\
  (forall b m, json_in_members b m -> json_members true m).
Proof.
  apply json_in_mutind.
  1-3: intros; constructor.
  1-3: intros; constructor; reflexivity.
  - intros b t Hn _. by apply JT_number.
  - intros b t Hs. by apply JT_string.
  - intros b w Hw. by apply JT_arr_empty.
  - intros b e _ IH. by apply JT_arr.
  - intros b w Hw. by apply JT_obj_empty.
  - intros b m _ IH. by apply JT_obj.
  - intros b w1 t w2 Hw1 _ IH Hw2. by apply JE_one.
  - intros b w1 t w2 e Hw1 _ IH Hw2 _ IHe. by apply JE_cons.
  - intros b w1 k w2 w3 t w4 Hw1 Hk Hw2 Hw3 _ IH Hw4. by apply JM_one.
  - intros b w1 k w2 w3 t w4 m Hw1 Hk Hw2 Hw3 _ IH Hw4 _ IHm. by apply JM_cons.
Qed.

(** *** The value scanner reads every JSON text within the limits *)

Lemma digit_head (d : N) : 48 <= d <= 57 -> is_ws d = false /\ d <> 93 /\ d <> 125 /\ d <> 44.
Proof.
  intros Hd. unfold is_ws.
  destruct (N.eqb_spec d 32), (N.eqb_spec d 9), (N.eqb_spec d 10), (N.eqb_spec d 13); try lia.
Qed.

Lemma json_text_head (ext : bool) (t : pystr) :
  json_text ext t -> exists c rest, t = c :: rest /\ is_ws c = false /\ c <> 93 /\ c <> 125 /\ c <> 44.
Proof.
  intros Ht. destruct Ht as [| | | | | | t Hn | t Hs | w | e | w | m].
  1-6, 9-12: eexists _, _; split; [reflexivity | repeat split; (reflexivity || discriminate)].
  - destruct Hn as (sg & ip & fp & ep & -> & [-> | ->] & Hip & _ & _).
    + destruct Hip as [| d ds Hd _]; [eexists _, _; split; [reflexivity | repeat split; (reflexivity || discriminate)] |].
      exists d, (ds ++ fp ++ ep). split; [reflexivity |]. apply digit_head. lia.
    + eexists _, _; split; [reflexivity | repeat split; (reflexivity || discriminate)].
  - destruct Hs as (chunks & -> & _).
    eexists _, _; split; [reflexivity | repeat split; (reflexivity || discriminate)].
Qed.

Lemma skip_ws_text (ext : bool) (t X : pystr) : json_text ext t -> skip_ws (t ++ X) = t ++ X.
Proof.
  intros Ht. destruct (json_text_head _ _ Ht) as (c & rest & -> & Hc & _). by apply skip_ws_nonws.
Qed.

Lemma json_text_nonempty (ext : bool) (t : pystr) : json_text ext t -> (0 < length t)%nat.
Proof. intros Ht. destruct (json_text_head _ _ Ht) as (c & rest & -> & _). simpl. lia. Qed.

Lemma nocont_ws_sep (w X : pystr) (c : N) :
  ws_only w -> (c = 44 \/ c = 93 \/ c = 125) -> nocont (w ++ c :: X).
Proof.
  intros Hw Hc. destruct Hw as [| c0 w' H0 _]; simpl.
  - destruct Hc as [-> | [-> | ->]]; repeat split; (reflexivity || discriminate).
  - unfold is_ws in H0.
    repeat (apply orb_true_iff in H0 as [H0 | H0]); apply N.eqb_eq in H0; subst c0;
      repeat split; (reflexivity || discriminate).
Qed.

Lemma elems_skip_head (ext : bool) (e X : pystr) :
  json_elems ext e -> exists c rest, skip_ws (e ++ X) = c :: rest /\ c <> 93.
Proof.
  intros He. destruct He as [w1 t w2 Hw1 Ht Hw2 | w1 t w2 e Hw1 Ht Hw2 He];
    rewrite <- !app_assoc, skip_ws_app, (skip_ws_text ext) by assumption;
    destruct (json_text_head _ _ Ht) as (c & rest & -> & _ & Hc & _); eauto.
Qed.

Lemma members_skip_head (ext : bool) (m X : pystr) :
  json_members ext m -> exists rest, skip_ws (m ++ X) = 34 :: rest.
Proof.
  intros Hm. destruct Hm as [w1 k w2 w3 t w4 Hw1 Hk | w1 k w2 w3 t w4 m Hw1 Hk];
    destruct Hk as (chunks & -> & _); rewrite <- !app_assoc, skip_ws_app by assumption;
    eexists; reflexivity.
Qed.

Lemma prefixb_Infinity_digit (d : N) (X : pystr) :
  48 <= d <= 57 -> prefixb (str "Infinity") (d :: X) = false.
Proof.
  intros Hd. change (prefixb (str "Infinity") (d :: X)) with ((73 =? d) && prefixb (str "nfinity") X).
  destruct (N.eqb_spec 73 d); [lia | reflexivity].
Qed.

Lemma scan_once_number (f b : nat) (t r' : pystr) :
  number_lit t -> scan_once (S f) b (t ++ r') = match_number (t ++ r').
Proof.
  intros (sg & ip & fp & ep & -> & [-> | ->] & Hip & _ & _);
    (destruct Hip as [| d ds Hd _]; [reflexivity |]).
  - rewrite <- !app_assoc. cbn [app scan_once].
    repeat match goal with
           | |- context [d =? ?k] => destruct (N.eqb_spec d k); [lia |]
           end.
    reflexivity.
  - rewrite <- !app_assoc. cbn [app scan_once]. rewrite prefixb_Infinity_digit by lia.
    reflexivity.
Qed.

Lemma number_lit_head (t : pystr) :
  number_lit t -> exists d rest, (t = d :: rest \/ t = 45 :: d :: rest) /\ 48 <= d <= 57.
Proof.
  intros (sg & ip & fp & ep & -> & [-> | ->] & Hip & _ & _);
    destruct (int_lit_head _ Hip) as (_ & d & r & -> & Hd); exists d, (r ++ fp ++ ep);
    (split; [first [left; reflexivity | right; reflexivity] | exact Hd]).
Qed.

Ltac not_number Hn :=
  let d := fresh "d" in let rest := fresh "rest" in let E := fresh "E" in let Hd := fresh "Hd" in
  destruct (number_lit_head _ Hn) as (d & rest & [E | E] & Hd);
  cbn in E; injection E; intros; subst; lia.

(** a text within the limits is a number literal within the digit limit,
    or no number literal at all *)
Lemma json_in_number (b : nat) (t : pystr) :
  json_in b t -> (number_lit t /\ int_digits_ok t) \/ ~ number_lit t.
Proof.
  intros Ht. destruct Ht as [| | | | | | b t Hn Hok | b t (chunks & -> & _) | | | |];
    try (left; split; assumption); right; intros Hn'; not_number Hn'.
Qed.

Ltac fuel_len Hl :=
  rewrite ?length_app in Hl; simpl in Hl; rewrite ?length_app in Hl; simpl in Hl; lia.

(** the fuel [S (length s)] of [raw_decode_in] suffices: every JSON text
    within the limits is read, exactly, unless it is a number that the
    rest [r'] continues *)
Lemma scan_once_complete :
  (forall b t, json_in b t -> forall fuel r', (length t < fuel)%nat -> (number_lit t -> nocont r') ->
     exists v, scan_once fuel b (t ++ r') = Some (v, r')) /\
  (forall b e, json_in_elems b e -> forall fuel r' acc, (length e + 1 < fuel)%nat ->
     exists v, parse_elements fuel b (skip_ws (e ++ 93 :: r')) acc = Some (v, r')) /\
  (forall b m, json_in_members b m -> forall fuel r' acc, (length m + 1 < fuel)%nat ->
     exists v, parse_members fuel b (skip_ws (m ++ 125 :: r')) acc = Some (v, r')).
Proof.
  apply json_in_mutind.
  1-6: intros b fuel r' Hl _; destruct fuel as [| f]; [lia |]; eexists; reflexivity.
  - (* numbers *)
    intros b t Hn Hok fuel r' Hl Hc. destruct fuel as [| f]; [lia |].
    rewrite scan_once_number by assumption. apply match_number_exact; auto.
  - (* strings *)
    intros b t (chunks & -> & Hf) fuel r' Hl _. destruct fuel as [| f]; [lia |].
    destruct (scan_string_complete chunks r' Hf []) as [x Hx].
    exists (JStr x). rewrite <- !app_assoc. cbn [app scan_once N.eqb Pos.eqb]. by rewrite Hx.
  - (* empty arrays *)
    intros b w Hw fuel r' Hl _. destruct fuel as [| f]; [lia |].
    exists (JArr []). rewrite <- !app_assoc. cbn [app scan_once N.eqb Pos.eqb]. by rewrite skip_ws_app.
  - (* arrays *)
    intros b e He IHe fuel r' Hl _. destruct fuel as [| f]; [lia |].
    rewrite <- !app_assoc. cbn [app scan_once N.eqb Pos.eqb].
    destruct (elems_skip_head _ e (93 :: r') (proj1 (proj2 json_in_text) _ _ He)) as (c & rest & Hs & Hc).
    destruct (IHe f r' []) as [v Hv]; [fuel_len Hl |].
    rewrite Hs in Hv |- *. destruct (N.eqb_spec c 93); [contradiction |].
    exists v. exact Hv.
  - (* empty objects *)
    intros b w Hw fuel r' Hl _. destruct fuel as [| f]; [lia |].
    exists (JObj []). rewrite <- !app_assoc. cbn [app scan_once N.eqb Pos.eqb]. by rewrite skip_ws_app.
  - (* objects *)
    intros b m Hm IHm fuel r' Hl _. destruct fuel as [| f]; [lia |].
    rewrite <- !app_assoc. cbn [app scan_once N.eqb Pos.eqb].
    destruct (members_skip_head _ m (125 :: r') (proj2 (proj2 json_in_text) _ _ Hm)) as (rest & Hs).
    destruct (IHm f r' []) as [v Hv]; [fuel_len Hl |].
    rewrite Hs in Hv |- *. exists v. exact Hv.
  - (* one element *)
    intros b w1 t w2 Hw1 Ht IHt Hw2 fuel r' acc Hl. destruct fuel as [| f]; [lia |].
    pose proof (proj1 json_in_text _ _ Ht) as Ht'.
    rewrite <- !app_assoc, (skip_ws_app w1), (skip_ws_text true) by assumption.
    cbn [parse_elements].
    destruct (IHt f (w2 ++ 93 :: r')) as (v & Hv); [fuel_len Hl | intros _; apply nocont_ws_sep; auto |].
    rewrite Hv, (skip_ws_app w2) by assumption. eexists. reflexivity.
  - (* more elements *)
    intros b w1 t w2 e Hw1 Ht IHt Hw2 He IHe fuel r' acc Hl. destruct fuel as [| f]; [lia |].
    pose proof (proj1 json_in_text _ _ Ht) as Ht'. pose proof (json_text_nonempty _ _ Ht').
    rewrite <- !app_assoc, (skip_ws_app w1), (skip_ws_text true) by assumption.
    cbn [parse_elements app].
    destruct (IHt f (w2 ++ 44 :: e ++ 93 :: r')) as (v & Hv);
      [fuel_len Hl | intros _; apply nocont_ws_sep; auto |].
    rewrite Hv, (skip_ws_app w2) by assumption.
    destruct (IHe f r' (v :: acc)) as [v' Hv']; [fuel_len Hl |].
    exists v'. exact Hv'.
  - (* one member *)
    intros b w1 k w2 w3 t w4 Hw1 Hk Hw2 Hw3 Ht IHt Hw4 fuel r' acc Hl.
    pose proof (proj1 json_in_text _ _ Ht) as Ht'.
    destruct Hk as (chunks & -> & Hf). destruct fuel as [| f]; [lia |].
    rewrite <- !app_assoc, (skip_ws_app w1) by assumption. cbn [app parse_members N.eqb Pos.eqb].
    destruct (scan_string_complete chunks (w2 ++ 58 :: w3 ++ t ++ w4 ++ 125 :: r') Hf []) as [x Hx].
    rewrite skip_ws_nonws by reflexivity. cbv beta iota.
    rewrite Hx, (skip_ws_app w2), skip_ws_nonws by (auto || reflexivity). cbv beta iota.
    rewrite (skip_ws_app w3), (skip_ws_text true) by assumption.
    destruct (IHt f (w4 ++ 125 :: r')) as (v & Hv); [fuel_len Hl | intros _; apply nocont_ws_sep; auto |].
    rewrite Hv, (skip_ws_app w4), skip_ws_nonws by (auto || reflexivity). cbv beta iota.
    eexists. reflexivity.
  - (* more members *)
    intros b w1 k w2 w3 t w4 m Hw1 Hk Hw2 Hw3 Ht IHt Hw4 Hm IHm fuel r' acc Hl.
    pose proof (proj1 json_in_text _ _ Ht) as Ht'.
    destruct Hk as (chunks & -> & Hf). destruct fuel as [| f]; [lia |].
    pose proof (json_text_nonempty _ _ Ht').
    rewrite <- !app_assoc, (skip_ws_app w1) by assumption. cbn [app parse_members N.eqb Pos.eqb].
    destruct (scan_string_complete chunks (w2 ++ 58 :: w3 ++ t ++ w4 ++ 44 :: m ++ 125 :: r') Hf [])
      as [x Hx].
    rewrite skip_ws_nonws by reflexivity. cbv beta iota.
    rewrite Hx, (skip_ws_app w2), skip_ws_nonws by (auto || reflexivity). cbv beta iota.
    rewrite (skip_ws_app w3), (skip_ws_text true) by assumption.
    destruct (IHt f (w4 ++ 44 :: m ++ 125 :: r')) as (v & Hv);
      [fuel_len Hl | intros _; apply nocont_ws_sep; auto |].
    rewrite Hv, (skip_ws_app w4), skip_ws_nonws by (auto || reflexivity). cbv beta iota.
    destruct (IHm f r' ((x, v) :: acc)) as [v' Hv']; [fuel_len Hl |].
    exists v'. exact Hv'.
Qed.

(** *** The scanner reads no less than any JSON text *)

(** when the scanner succeeds on a JSON text [t] followed by [r'], it
    stops in [r'], and at its start if nothing there continues a number *)
Lemma scan_past :
  (forall t, json_text true t -> forall fuel b r' v r, scan_once fuel b (t ++ r') = Some (v, r) ->
     r `suffix_of` r' /\ (nocont r' -> r = r')) /\
  (forall e, json_elems true e -> forall fuel b r' acc v r,
     parse_elements fuel b (skip_ws (e ++ 93 :: r')) acc = Some (v, r) -> r = r') /\
  (forall m, json_members true m -> forall fuel b r' acc v r,
     parse_members fuel b (skip_ws (m ++ 125 :: r')) acc = Some (v, r) -> r = r').
Proof.
  apply json_mutind.
  1-3: intros fuel b r' v r H; destruct fuel as [| f]; [discriminate |];
    simpl in H; injection H as _ <-; split; [reflexivity | auto].
  1-3: intros _ fuel b r' v r H; destruct fuel as [| f]; [discriminate |];
    simpl in H; injection H as _ <-; split; [reflexivity | auto].
  - (* numbers *)
    intros t Hn fuel b r' v r H. destruct fuel as [| f]; [discriminate |].
    rewrite scan_once_number in H by assumption.
    destruct (match_number_complete t r' Hn) as (ip & r2 & Hint & Hsuf & Hex).
    rewrite (match_number_rest _ _ _ _ _ Hint H). auto.
  - (* strings *)
    intros t (chunks & -> & Hf) fuel b r' v r H. destruct fuel as [| f]; [discriminate |].
    destruct (scan_string_complete chunks r' Hf []) as [x Hx].
    rewrite <- !app_assoc in H. cbn [app scan_once N.eqb Pos.eqb] in H. rewrite Hx in H.
    injection H as _ <-. split; [reflexivity | auto].
  - (* empty arrays *)
    intros w Hw fuel b r' v r H. destruct fuel as [| f]; [discriminate |].
    rewrite <- !app_assoc in H. cbn [app scan_once N.eqb Pos.eqb] in H.
    destruct b as [| b]; [discriminate |].
    rewrite skip_ws_app in H by assumption. cbn [N.eqb Pos.eqb] in H.
    injection H as _ <-. split; [reflexivity | auto].
  - (* arrays *)
    intros e He IHe fuel b r' v r H. destruct fuel as [| f]; [discriminate |].
    rewrite <- !app_assoc in H. cbn [app scan_once N.eqb Pos.eqb] in H.
    destruct b as [| b]; [discriminate |].
    destruct (elems_skip_head _ e (93 :: r') He) as (c & rest & Hs & Hc).
    rewrite Hs in H. cbv beta iota in H. destruct (N.eqb_spec c 93); [contradiction |].
    rewrite <- Hs in H. apply IHe in H as ->. split; [reflexivity | auto].
  - (* empty objects *)
    intros w Hw fuel b r' v r H. destruct fuel as [| f]; [discriminate |].
    rewrite <- !app_assoc in H. cbn [app scan_once N.eqb Pos.eqb] in H.
    destruct b as [| b]; [discriminate |].
    rewrite skip_ws_app in H by assumption. cbn [N.eqb Pos.eqb] in H.
    injection H as _ <-. split; [reflexivity | auto].
  - (* objects *)
    intros m Hm IHm fuel b r' v r H. destruct fuel as [| f]; [discriminate |].
    rewrite <- !app_assoc in H. cbn [app scan_once N.eqb Pos.eqb] in H.
    destruct b as [| b]; [discriminate |].
    destruct (members_skip_head _ m (125 :: r') Hm) as (rest & Hs).
    rewrite Hs in H. cbn [N.eqb Pos.eqb] in H.
    rewrite <- Hs in H. apply IHm in H as ->. split; [reflexivity | auto].
  - (* one element *)
    intros w1 t w2 Hw1 Ht IHt Hw2 fuel b r' acc v r H. destruct fuel as [| f]; [discriminate |].
    rewrite <- !app_assoc, (skip_ws_app w1), (skip_ws_text true) in H by assumption.
    cbn [parse_elements] in H.
    destruct (scan_once f b (t ++ w2 ++ 93 :: r')) as [[v1 r3] |] eqn:Hv; [| discriminate].
    destruct (IHt f b _ _ _ Hv) as [_ Hr].
    rewrite Hr in H by (apply nocont_ws_sep; auto).
    rewrite skip_ws_app in H by assumption. cbn [N.eqb Pos.eqb] in H.
    injection H as _ <-. reflexivity.
  - (* more elements *)
    intros w1 t w2 e Hw1 Ht IHt Hw2 He IHe fuel b r' acc v r H. destruct fuel as [| f]; [discriminate |].
    rewrite <- !app_assoc, (skip_ws_app w1), (skip_ws_text true) in H by assumption.
    cbn [parse_elements app] in H.
    destruct (scan_once f b (t ++ w2 ++ 44 :: e ++ 93 :: r')) as [[v1 r3] |] eqn:Hv; [| discriminate].
    destruct (IHt f b _ _ _ Hv) as [_ Hr].
    rewrite Hr in H by (apply nocont_ws_sep; auto).
    rewrite skip_ws_app in H by assumption. cbn [N.eqb Pos.eqb] in H.
    by apply IHe in H.
  - (* one member *)
    intros w1 k w2 w3 t w4 Hw1 Hk Hw2 Hw3 Ht IHt Hw4 fuel b r' acc v r H.
    destruct Hk as (chunks & -> & Hf). destruct fuel as [| f]; [discriminate |].
    rewrite <- !app_assoc, (skip_ws_app w1) in H by assumption.
    cbn [app parse_members N.eqb Pos.eqb] in H.
    destruct (scan_string_complete chunks (w2 ++ 58 :: w3 ++ t ++ w4 ++ 125 :: r') Hf []) as [x Hx].
    rewrite skip_ws_nonws in H by reflexivity. cbv beta iota in H.
    rewrite Hx, (skip_ws_app w2), skip_ws_nonws in H by (auto || reflexivity). cbv beta iota in H.
    rewrite (skip_ws_app w3), (skip_ws_text true) in H by assumption.
    destruct (scan_once f b (t ++ w4 ++ 125 :: r')) as [[v1 r3] |] eqn:Hv; [| discriminate].
    destruct (IHt f b _ _ _ Hv) as [_ Hr].
    rewrite Hr in H by (apply nocont_ws_sep; auto).
    rewrite (skip_ws_app w4), skip_ws_nonws in H by (auto || reflexivity).
    cbn [N.eqb Pos.eqb] in H. injection H as _ <-. reflexivity.
  - (* more members *)
    intros w1 k w2 w3 t w4 m Hw1 Hk Hw2 Hw3 Ht IHt Hw4 Hm IHm fuel b r' acc v r H.
    destruct Hk as (chunks & -> & Hf). destruct fuel as [| f]; [discriminate |].
    rewrite <- !app_assoc, (skip_ws_app w1) in H by assumption.
    cbn [app parse_members N.eqb Pos.eqb] in H.
    destruct (scan_string_complete chunks (w2 ++ 58 :: w3 ++ t ++ w4 ++ 44 :: m ++ 125 :: r') Hf [])
      as [x Hx].
    rewrite skip_ws_nonws in H by reflexivity. cbv beta iota in H.
    rewrite Hx, (skip_ws_app w2), skip_ws_nonws in H by (auto || reflexivity). cbv beta iota in H.
    rewrite (skip_ws_app w3), (skip_ws_text true) in H by assumption.
    destruct (scan_once f b (t ++ w4 ++ 44 :: m ++ 125 :: r')) as [[v1 r3] |] eqn:Hv; [| discriminate].
    destruct (IHt f b _ _ _ Hv) as [_ Hr].
    rewrite Hr in H by (apply nocont_ws_sep; auto).
    rewrite (skip_ws_app w4), skip_ws_nonws in H by (auto || reflexivity).
    cbn [N.eqb Pos.eqb] in H. by apply IHm in H.
Qed.

(** the scanner reads a text within the limits when no JSON text starting
    there is longer *)
Lemma scan_longest (b : nat) (t r' : pystr) (fuel : nat) :
  json_in b t -> (length t < fuel)%nat ->
  (forall t' r'', t ++ r' = t' ++ r'' -> json_text true t' -> (length t' <= length t)%nat) ->
  exists v, scan_once fuel b (t ++ r') = Some (v, r').
Proof.
  intros Ht Hl Hmax. destruct (json_in_number b t Ht) as [[Hn Hok] | Hn].
  - destruct fuel as [| f]; [lia |]. rewrite scan_once_number by assumption.
    destruct (match_number_reads t r' Hn) as (t0 & r & Heq & Hn0 & Hsuf & Hv).
    assert (Hle : (length t0 <= length t)%nat) by (apply (Hmax t0 r Heq); by apply JT_number).
    apply suffix_length in Hsuf.
    assert (Hlen : (length t + length r' = length t0 + length r)%nat)
      by (rewrite <- !length_app; by rewrite Heq).
    destruct (app_inj_1 t t0 r' r ltac:(lia) Heq) as [<- <-]. by apply Hv.
  - apply (proj1 scan_once_complete b t Ht fuel r' Hl). intros H'. by destruct (Hn H').
Qed.

(** *** The probe *)

Lemma probe_sound (b : nat) (s : pystr) (n : nat) :
  get_obj_length_in b s = Some n ->
  exists w1 t w2 r, s = w1 ++ t ++ w2 ++ r /\ ws_only w1 /\ json_in b t /\ ws_only w2 /\
    n = length (w1 ++ t ++ w2) /\ (forall c r0, r = c :: r0 -> is_ws c = false) /\
    (forall t' r', s = w1 ++ t' ++ r' -> json_text true t' -> (length t' <= length t)%nat).
Proof.
  unfold get_obj_length_in, raw_decode_in.
  destruct (skip_ws_spec s) as (w1 & Hs & Hw1 & _).
  remember (skip_ws s) as s' eqn:Es.
  destruct (scan_once (S (length s')) b s') as [[v r1] |] eqn:Hv; [| discriminate].
  intros Hn; injection Hn as <-.
  pose proof Hv as Hv'. apply (proj1 (scan_sound _)) in Hv' as (t & Ht & Htext).
  destruct (skip_ws_spec r1) as (w2 & Hr1 & Hw2 & Hhead).
  remember (skip_ws r1) as r eqn:Er.
  exists w1, t, w2, r. repeat split; try assumption.
  - by rewrite Hs, Ht, Hr1.
  - rewrite Hs, Ht, Hr1, !length_app. lia.
  - intros t' r' Hs2 Ht'. rewrite Hs in Hs2. apply app_inv_head in Hs2.
    assert (Hl1 : length s' = (length t + length r1)%nat) by (rewrite Ht, length_app; lia).
    assert (Hl2 : length s' = (length t' + length r')%nat) by (rewrite Hs2, length_app; lia).
    rewrite Hs2 in Hv. destruct (proj1 scan_past t' Ht' _ _ _ _ _ Hv) as [Hsuf _].
    apply suffix_length in Hsuf. lia.
Qed.

Lemma probe_complete (b : nat) (s w1 t r : pystr) :
  s = w1 ++ t ++ r -> ws_only w1 -> json_in b t ->
  (forall t' r', s = w1 ++ t' ++ r' -> json_text true t' -> (length t' <= length t)%nat) ->
  get_obj_length_in b s <> None.
Proof.
  intros -> Hw Ht Hmax. pose proof (proj1 json_in_text _ _ Ht) as Ht'.
  unfold get_obj_length_in, raw_decode_in.
  rewrite skip_ws_app, (skip_ws_text true) by assumption.
  destruct (scan_longest b t r (S (length (t ++ r))) Ht) as [v Hv]; [rewrite length_app; lia | |].
  - intros t' r'' Heq Ht''. apply (Hmax t' r''); [by rewrite Heq | exact Ht''].
  - rewrite Hv. discriminate.
Qed.

Lemma probe_exact (b : nat) (t w rest : pystr) :
  json_in b t -> ws_only w -> nocont (w ++ rest) ->
  (forall c r0, rest = c :: r0 -> is_ws c = false) ->
  get_obj_length_in b (t ++ w ++ rest) = Some (length (t ++ w)).
Proof.
  intros Ht Hw Hn Hr. pose proof (proj1 json_in_text _ _ Ht) as Ht'.
  unfold get_obj_length_in, raw_decode_in.
  rewrite (skip_ws_text true) by assumption.
  destruct (proj1 scan_once_complete b t Ht (S (length (t ++ w ++ rest))) (w ++ rest))
    as (v & Hv); [rewrite length_app; lia | intros _; exact Hn |].
  rewrite Hv. rewrite skip_ws_app by assumption.
  assert (skip_ws rest = rest) as ->.
  { destruct rest as [| c r0]; [reflexivity |]. apply skip_ws_nonws. by eapply Hr. }
  rewrite !length_app. f_equal. lia.
Qed.

Lemma nocont_ws (w X : pystr) : ws_only w -> w <> [] -> nocont (w ++ X).
Proof.
  intros Hw Hne. destruct Hw as [| c0 w' H0 _]; [contradiction |]. simpl.
  unfold is_ws in H0.
  repeat (apply orb_true_iff in H0 as [H0 | H0]); apply N.eqb_eq in H0; subst c0;
    repeat split; (reflexivity || discriminate).
Qed.

Lemma chain_text_head (b : nat) (tws : list (pystr * pystr)) :
  chain_ok b tws -> forall c r0, chain_text tws = c :: r0 -> is_ws c = false.
Proof.
  destruct tws as [| [t w] rest]; simpl; [discriminate |].
  intros (Ht & _) c r0 H.
  destruct (json_text_head _ _ (proj1 json_in_text _ _ Ht)) as (c' & rest' & -> & Hc & _).
  simpl in H. by injection H as <- _.
Qed.

Lemma probe_all_cons (b f : nat) (s : pystr) :
  s <> [] ->
  probe_all b (S f) s =
    match get_obj_length_in b s with
    | Some n => option_map (cons n) (probe_all b f (drop n s))
    | None => None
    end.
Proof. destruct s; [contradiction | reflexivity]. Qed.

Lemma probe_chain (b : nat) (tws : list (pystr * pystr)) (fuel : nat) :
  chain_ok b tws -> (length tws < fuel)%nat ->
  probe_all b fuel (chain_text tws) = Some (map (fun tw => length (fst tw ++ snd tw)) tws).
Proof.
  revert fuel. induction tws as [| [t w] rest IH]; intros fuel Hc Hl;
    (destruct fuel as [| f]; [simpl in Hl; lia |]); [reflexivity |].
  destruct Hc as (Ht & Hw & Hsep & Hrest). cbn [chain_text].
  destruct (json_text_head _ _ (proj1 json_in_text _ _ Ht)) as (c & r0 & Heq & _).
  rewrite probe_all_cons by (rewrite Heq; discriminate).
  rewrite (probe_exact b); [| assumption | assumption | | by apply (chain_text_head b)].
  - rewrite app_assoc, drop_app_length, IH by (simpl in Hl; auto with lia).
    reflexivity.
  - destruct rest as [| tw rest'].
    + destruct w as [| c0 w']; [exact I |]. apply nocont_ws; [assumption | discriminate].
    + apply nocont_ws; [assumption | apply Hsep; discriminate].
Qed.

Lemma chain_lengths_sum (tws : list (pystr * pystr)) :
  sum_list (map (fun tw => length (fst tw ++ snd tw)) tws) = length (chain_text tws).
Proof.
  induction tws as [| [t w] rest IH]; [reflexivity |].
  simpl. rewrite IH, !length_app. lia.
Qed.

Lemma json_text_rfc_head (t : pystr) :
  json_text false t -> exists c rest, t = c :: rest /\ c <> 78.
Proof.
  intros Ht. destruct Ht as [| | | Hx | Hx | Hx | t Hn | t Hs | w | e | w | m];
    try discriminate.
  1-3, 6-9: eexists _, _; split; [reflexivity | discriminate].
  - destruct Hn as (sg & ip & fp & ep & -> & [-> | ->] & Hip & _ & _).
    + destruct Hip as [| d ds Hd _]; [eexists _, _; split; [reflexivity | discriminate] |].
      exists d, (ds ++ fp ++ ep). split; [reflexivity | lia].
    + eexists _, _; split; [reflexivity | discriminate].
  - destruct Hs as (chunks & -> & _). eexists _, _; split; [reflexivity | discriminate].
Qed.

(** ** C6: the JSON probe *)

(** C6, counterexample: the probe accepts [NaN] (and likewise [Infinity]
    and [-Infinity]), which is no JSON value of RFC 8259: no prefix of the
    input after its whitespace is a JSON text of the RFC grammar
    ([json_text false]). *)
Lemma probe_accepts_nan :
  get_obj_length (str "NaN") = Some 3%nat /\
  ~ exists w1 t r, str "NaN" = w1 ++ t ++ r /\ ws_only w1 /\ json_text false t.
Proof.
  split; [reflexivity |].
  intros (w1 & t & r & Heq & Hw & Ht).
  destruct (json_text_rfc_head _ Ht) as (c & rest & -> & Hc).
  change (str "NaN") with [78; 97; 78] in Heq.
  destruct w1 as [| c0 w1'].
  - simpl in Heq. injection Heq as <- _. contradiction.
  - simpl in Heq. injection Heq as <- _. apply Forall_cons in Hw as [Hw _]. discriminate.
Qed.

(** C6 (amended).  For every input [s] and every number [b] of nesting
    levels the interpreter has left before RecursionError (the probe is
    [get_obj_length_in recursion_budget]), with JSON texts as Python's
    [json] reads them (RFC 8259 and the constants [NaN], [Infinity],
    [-Infinity], [json_text true]) and [json_in b] those among them that
    it turns into a value (no integer literal over 4300 digits, no array
    or object nested more than [b] deep): if the probe returns [n], then
    [s] is leading whitespace [w1], a text [t] of [json_in b], whitespace
    [w2] and a rest that does not start with whitespace, [n] is the
    length of [w1 ++ t ++ w2], and no JSON text starting where [t] starts
    is longer than [t]; the probe fails exactly when no longest JSON text
    starting at the first non-whitespace character is in [json_in b].
    Probing a chain of texts of [json_in b], each followed by whitespace
    that is non-empty between two texts, and then re-probing what follows
    each consumed prefix consumes exactly one text with its whitespace per
    probe, so the consumed lengths add up to the length of the chain. *)
Theorem get_obj_length_spec :
  (forall (b : nat) (s : pystr),
     match get_obj_length_in b s with
     | Some n =>
         exists w1 t w2 r, s = w1 ++ t ++ w2 ++ r /\ ws_only w1 /\ json_in b t /\
           ws_only w2 /\ n = length (w1 ++ t ++ w2) /\
           (forall c r0, r = c :: r0 -> is_ws c = false) /\
           (forall t' r', s = w1 ++ t' ++ r' -> json_text true t' -> (length t' <= length t)%nat)
     | None =>
         ~ exists w1 t r, s = w1 ++ t ++ r /\ ws_only w1 /\ json_in b t /\
           (forall t' r', s = w1 ++ t' ++ r' -> json_text true t' -> (length t' <= length t)%nat)
     end) /\
  (forall (b : nat) (tws : list (pystr * pystr)) (fuel : nat),
     chain_ok b tws -> (length tws < fuel)%nat ->
     probe_all b fuel (chain_text tws) = Some (map (fun tw => length (fst tw ++ snd tw)) tws) /\
     sum_list (map (fun tw => length (fst tw ++ snd tw)) tws) = length (chain_text tws)).
Proof.
  split.
  - intros b s. destruct (get_obj_length_in b s) as [n |] eqn:E.
    + by apply probe_sound.
    + intros (w1 & t & r & Hs & Hw & Ht & Hmax). by apply (probe_complete b s w1 t r).
  - intros b tws fuel Hc Hl. split; [by apply probe_chain | apply chain_lengths_sum].
Qed.

Lemma get_obj_length_spec_witness :
  chain_ok 1 [(str "1", str " "); (str "{}", [])] /\
  probe_all 1 3 (chain_text [(str "1", str " "); (str "{}", [])]) = Some [2; 2]%nat.
Proof.
  assert (Hc : chain_ok 1 [(str "1", str " "); (str "{}", [])]).
  { cbn [chain_ok]. repeat split.
    - apply JI_number.
      + exists [], [49], [], []. repeat split; [left; reflexivity | | constructor | constructor].
        constructor; [lia | constructor].
      + intros sg ip Heq _ _. assert (Hl : length (sg ++ ip) = 1%nat) by (rewrite <- Heq; reflexivity).
        rewrite length_app in Hl. unfold int_max_str_digits. lia.
    - constructor; [reflexivity | constructor].
    - discriminate.
    - exact (JI_obj_empty 0 [] (Forall_nil_2 _)).
    - constructor.
    - intros H. contradiction. }
  split; [exact Hc |].
  exact (proj1 (proj2 get_obj_length_spec 1%nat _ 3%nat Hc ltac:(simpl; lia))).
Defined.

(** ** C5: how the frames lie in the buffer *)

Lemma get_next_hex_string_prefix (s : pystr) : get_next_hex_string s `prefix_of` s.
Proof.
  induction s as [| c s IH]; cbn [get_next_hex_string]; [done |].
  destruct (existsb (N.eqb c) hex_alpha); [by apply prefix_cons | apply prefix_nil].
Qed.

Lemma split1_tail_drop (sep s t : pystr) :
  split1_tail sep s = Some t -> exists i, t = drop (i + length sep) s.
Proof.
  unfold split1_tail. destruct sep as [| a sep']; [discriminate |].
  destruct (find_from (a :: sep') s 0) as [i |]; [| discriminate].
  intros E; injection E as <-. eauto.
Qed.

Lemma read_header_drop (buf hex dt : pystr) (d : option Z) (other : pystr) :
  read_header buf = HGo hex dt d other ->
  exists k, other = drop k buf /\ (length hex <= k)%nat /\ hex `prefix_of` buf.
Proof.
  unfold read_header. intros E.
  assert (Hpre := get_next_hex_string_prefix buf).
  destruct (get_next_hex_string buf) as [| h hs] eqn:Eh; [discriminate |].
  destruct (split1_tail (h :: hs) buf) as [t |] eqn:Et; [| discriminate].
  apply split1_tail_drop in Et as [i ->].
  rewrite drop_drop in E.
  destruct (get_next_data_type_string _) as [| x xs] eqn:Ed.
  { injection E as <- <- <- <-. eexists. split; [reflexivity |]. split; [simpl; lia | exact Hpre]. }
  case_bool_decide.
  - destruct (get_next_hex_string (drop 1 _)) as [| y ys]; [discriminate |].
    destruct (split1_tail (y :: ys) _) as [t' |] eqn:Et'; [| discriminate].
    apply split1_tail_drop in Et' as [j ->]. rewrite !drop_drop in E.
    injection E as <- <- <- <-. eexists. split; [reflexivity |]. split; [simpl; lia | exact Hpre].
  - destruct (split1_tail (x :: xs) _) as [t' |] eqn:Et'; [| discriminate].
    apply split1_tail_drop in Et' as [j ->]. rewrite !drop_drop in E.
    injection E as <- <- <- <-. eexists. split; [reflexivity |]. split; [simpl; lia | exact Hpre].
Qed.

Lemma py_drop_suffix (n : Z) (s : pystr) : py_drop n s `suffix_of` s.
Proof. unfold py_drop. destruct (n <? 0)%Z; apply suffix_drop. Qed.

Lemma resync_suffix (cs : list pystr) (v other backup : pystr) :
  other `suffix_of` backup -> resync cs v other backup `suffix_of` backup.
Proof.
  intros H. induction cs as [| c cs IH]; simpl; [exact H |].
  destruct (py_in c _); [apply py_drop_suffix | exact IH].
Qed.

Lemma step_tile (buf : pystr) (e : frame) (r : pystr) :
  step buf = SNext e r ->
  exists hdr v rest, buf = hdr ++ v ++ rest /\ hex_string e `prefix_of` hdr /\ val e = JStr v /\
    v = py_take (obj_length e) (v ++ rest) /\ (data_type e <> [ch "T"] -> r = rest) /\
    r `suffix_of` (v ++ rest).
Proof.
  unfold step. destruct (read_header buf) as [| | hex dt d other] eqn:Hh; try discriminate.
  destruct (frame_length d other) as [len |] eqn:Fl; [| discriminate].
  assert (Hnn : (0 <= len)%Z).
  { apply (frame_length_nonneg d other); [| exact Fl].
    intros z ->. exact (read_header_declared_nonneg _ _ _ _ _ Hh). }
  rewrite !py_take_nonneg, !py_drop_nonneg by exact Hnn.
  intros E. injection E as <- <-.
  destruct (read_header_drop _ _ _ _ _ Hh) as (k & -> & Hk & Hpre).
  exists (take k buf), (take (Z.to_nat len) (drop k buf)), (drop (Z.to_nat len) (drop k buf)).
  rewrite !take_drop. repeat split.
  - destruct Hpre as [z Hz]. exists (take (k - length hex) z).
    rewrite Hz, firstn_app, firstn_all2 by lia. reflexivity.
  - by rewrite py_take_nonneg.
  - intros Hn. case_bool_decide as Hb; [exfalso; exact (Hn Hb) | reflexivity].
  - case_bool_decide; [| apply suffix_drop].
    exact (resync_suffix resync_checks (take (Z.to_nat len) (drop k buf))
             (drop (Z.to_nat len) (drop k buf)) (drop k buf) (suffix_drop _ _)).
Qed.

Lemma frames_loop_tiling (fuel : nat) (other : pystr) (acc res : list frame) :
  frames_loop fuel other acc = Some res -> exists es, res = acc ++ es /\ tiling other es.
Proof.
  revert other acc. induction fuel as [| f IH]; intros other acc H; [discriminate |].
  cbn [frames_loop] in H.
  destruct (step other) as [| | e other'] eqn:Hs; try discriminate.
  - injection H as <-. exists []. split; [by rewrite app_nil_r |].
    apply TL_stop. right. unfold step in Hs. by destruct (read_header other); try case_match.
  - destruct (step_tile _ _ _ Hs) as (hdr & v & rest & -> & Hpre & Hv & Htake & Hnt & Hsuf).
    destruct other' as [| c o'].
    + injection H as <-. exists [e]. split; [reflexivity |].
      apply TL_frame with (r := []); auto. apply TL_stop. by left.
    + apply IH in H as (es & -> & Ht). exists (e :: es). split; [by rewrite <- app_assoc |].
      by apply TL_frame with (r := c :: o').
Qed.

(** C5, counterexample: decoding [overlap_example] succeeds with two
    frames.  The first ([T], declared length 5, the probe fails on
    [ab:...]) has the header at positions 0-4 and the value at positions
    5-9; the signature [sig_typename] is found in the value and the next
    20 characters, and its first occurrence starts at position 7, so the
    buffer restarts two characters before it, at position 5, and the
    second frame reads its id [ab] at positions 5-6, inside the first
    frame's value: the consumed regions overlap. *)
Lemma frames_overlap :
  decode overlap_example =
    Some [mkFrame (str "1") (str "T") 5 (JStr (take 5 (drop 5 overlap_example)));
          mkFrame (take 2 (drop 5 overlap_example)) [] 18 (JStr (drop 8 overlap_example))].
Proof. vm_compute. reflexivity. Qed.

(** C5 (amended).  When decoding succeeds, the frames lie in the buffer as
    [tiling] says: each frame is a header starting with its id, followed by
    its value, which is exactly the next [obj_length] characters (fewer at
    the end of the buffer); the next frame starts right after the value,
    except after a [T] frame, where it starts at some suffix of the buffer
    from that value on, which may re-read the value or skip characters;
    what remains when decoding stops is empty or reads as a stop header,
    and is in no frame. *)
Theorem frames_tile (buf : pystr) (es : list frame) : decode buf = Some es -> tiling buf es.
Proof.
  unfold decode. intros H. apply frames_loop_tiling in H as (es' & -> & Ht). exact Ht.
Qed.

Lemma frames_tile_witness : exists es, decode overlap_example = Some es /\ tiling overlap_example es.
Proof.
  eexists. split; [vm_compute; reflexivity |].
  apply frames_tile. vm_compute. reflexivity.
Defined.

(* ================================================================== *)
(** ** Further properties of the framer *)

Lemma get_next_hex_string_hex (s : pystr) :
  Forall (fun c => c ∈ hex_alpha) (get_next_hex_string s).
Proof.
  induction s as [| c s IH]; cbn [get_next_hex_string]; [constructor |].
  destruct (existsb (N.eqb c) hex_alpha) eqn:E; [| constructor].
  constructor; [| exact IH].
  apply existsb_exists in E as (x & Hx & Hc). apply N.eqb_eq in Hc. subst x.
  by apply list_elem_of_In.
Qed.

(** X1.  [get_next_hex_string] returns the longest prefix made of the
    lowercase hex digits [0-9a-f]: what follows it is empty or starts with
    another character. *)
Theorem get_next_hex_string_longest (s : pystr) :
  exists r, s = get_next_hex_string s ++ r /\
    Forall (fun c => c ∈ hex_alpha) (get_next_hex_string s) /\
    (forall c r', r = c :: r' -> c ∉ hex_alpha).
Proof.
  induction s as [| c s (r & Hs & Hf & Hr)]; [exists []; split; [reflexivity | split; [constructor | discriminate]] |].
  cbn [get_next_hex_string]. destruct (existsb (N.eqb c) hex_alpha) eqn:E.
  - exists r. split; [simpl; congruence |]. split; [| exact Hr].
    constructor; [| exact Hf].
    apply existsb_exists in E as (x & Hx & Hc). apply N.eqb_eq in Hc. subst x.
    by apply list_elem_of_In.
  - exists (c :: s). split; [reflexivity |]. split; [constructor |].
    intros c' r' Heq. injection Heq as -> ->. intros Hin.
    apply list_elem_of_In in Hin.
    assert (existsb (N.eqb c') hex_alpha = true) as E' by (apply existsb_exists; exists c'; split; [exact Hin | apply N.eqb_refl]).
    congruence.
Qed.

Lemma get_next_data_type_string_from_tags (s res : pystr) :
  Forall tag_char_ok res ->
  get_next_data_type_string_from s res = [ch "T"] \/ Forall tag_char_ok (get_next_data_type_string_from s res).
Proof.
  revert res. induction s as [| c s IH]; intros res Hres; cbn [get_next_data_type_string_from]; [by right |].
  destruct (N.eqb_spec c (ch "T")) as [-> | HT]; [by left |].
  destruct (existsb (N.eqb c) alpha_stop) eqn:Es; [by right |].
  apply IH. apply Forall_app. split; [exact Hres |]. constructor; [| constructor]. split; assumption.
Qed.

Lemma read_header_go (buf hex dt : pystr) (d : option Z) (other : pystr) :
  read_header buf = HGo hex dt d other ->
  hex = get_next_hex_string buf /\ hex <> [] /\ (exists s, dt = get_next_data_type_string s) /\
  (d = None <-> dt <> [ch "T"]).
Proof.
  unfold read_header. intros E.
  destruct (get_next_hex_string buf) as [| h hs] eqn:Eh; [discriminate |].
  destruct (split1_tail (h :: hs) buf) as [t |]; [| discriminate].
  destruct (get_next_data_type_string (skipn 1 t)) as [| x xs] eqn:Ed.
  { injection E as <- <- <- <-. split; [done |]. split; [done |].
    split; [by exists (skipn 1 t) |]. split; [discriminate | reflexivity]. }
  case_bool_decide as Hb.
  - destruct (get_next_hex_string (skipn 1 _)) as [| y ys]; [discriminate |].
    destruct (split1_tail (y :: ys) _); [| discriminate].
    injection E as <- <- <- <-. split; [done |]. split; [done |].
    split; [by exists (skipn 1 t) |]. split; [discriminate | intros H; contradiction].
  - destruct (split1_tail (x :: xs) _); [| discriminate].
    injection E as <- <- <- <-. split; [done |]. split; [done |].
    split; [by exists (skipn 1 t) |]. split; [intros _; exact Hb | reflexivity].
Qed.

Lemma get_obj_length_le (s : pystr) (n : nat) : get_obj_length s = Some n -> (n <= length s)%nat.
Proof.
  unfold get_obj_length, get_obj_length_in. destruct (raw_decode_in recursion_budget (skip_ws s)) as [[x r] |]; [| discriminate].
  intros E. injection E as <-. lia.
Qed.

(** what one pass that emits an entry guarantees about it *)
Lemma step_entry (buf : pystr) (e : frame) (r : pystr) :
  step buf = SNext e r ->
  hex_string e = get_next_hex_string buf /\ hex_string e <> [] /\
  (data_type e = [ch "T"] \/ Forall tag_char_ok (data_type e)) /\
  (0 <= obj_length e)%Z /\
  exists v, val e = JStr v /\ (Z.of_nat (length v) <= obj_length e)%Z /\
    (data_type e <> [ch "T"] -> Z.of_nat (length v) = obj_length e).
Proof.
  unfold step. destruct (read_header buf) as [| | hex dt d other] eqn:Hh; try discriminate.
  destruct (frame_length d other) as [len |] eqn:Fl; [| discriminate].
  intros E. injection E as <- _. cbn [hex_string data_type obj_length val].
  destruct (read_header_go _ _ _ _ _ Hh) as (-> & Hne & [s ->] & Hd).
  assert (Hnn : (0 <= len)%Z).
  { apply (frame_length_nonneg d other); [| exact Fl].
    intros z ->. exact (read_header_declared_nonneg _ _ _ _ _ Hh). }
  split; [reflexivity |]. split; [exact Hne |].
  split; [apply get_next_data_type_string_from_tags; constructor |].
  split; [exact Hnn |].
  exists (py_take len other). split; [reflexivity |].
  rewrite py_take_nonneg by exact Hnn. rewrite length_take. split; [lia |].
  intros HT. apply Hd in HT. subst d. cbn [frame_length] in Fl.
  destruct (get_obj_length other) as [n |] eqn:Hn; [| discriminate].
  injection Fl as <-. apply get_obj_length_le in Hn. rewrite Nat2Z.id. lia.
Qed.

Lemma frames_loop_forall (P : frame -> Prop) (fuel : nat) (other : pystr) (acc res : list frame) :
  (forall b e r, step b = SNext e r -> P e) ->
  frames_loop fuel other acc = Some res -> exists es, res = acc ++ es /\ Forall P es.
Proof.
  intros HP. revert other acc. induction fuel as [| f IH]; intros other acc H; [discriminate |].
  cbn [frames_loop] in H.
  destruct (step other) as [| | e other'] eqn:Hs; try discriminate.
  - injection H as <-. exists []. split; [by rewrite app_nil_r | constructor].
  - destruct other' as [| c o'].
    + injection H as <-. exists [e]. split; [reflexivity |]. constructor; [exact (HP _ _ _ Hs) | constructor].
    + apply IH in H as (es & -> & Hes). exists (e :: es). split; [by rewrite <- app_assoc |].
      constructor; [exact (HP _ _ _ Hs) | exact Hes].
Qed.

(** X2.  Every entry [merge_next_f_scripts] emits has a non-empty id made
    of lowercase hex digits. *)
Theorem decode_ids_hex (buf : pystr) (es : list frame) :
  decode buf = Some es ->
  Forall (fun e => hex_string e <> [] /\ Forall (fun c => c ∈ hex_alpha) (hex_string e)) es.
Proof.
  unfold decode. intros H.
  match goal with |- Forall ?P _ =>
    enough (HP : forall b e r, step b = SNext e r -> P e)
      by (destruct (frames_loop_forall _ _ _ _ _ HP H) as (es' & -> & Hf); exact Hf) end.
  intros b e r Hs. cbn beta. destruct (step_entry _ _ _ Hs) as (-> & Hne & _).
  split; [congruence | apply get_next_hex_string_hex].
Qed.

Lemma decode_ids_hex_witness :
  exists es, decode overlap_example = Some es /\
    Forall (fun e => hex_string e <> [] /\ Forall (fun c => c ∈ hex_alpha) (hex_string e)) es.
Proof.
  eexists. split; [vm_compute; reflexivity |].
  apply (decode_ids_hex overlap_example). vm_compute. reflexivity.
Defined.

(** X3.  Every entry's type tag is either [T] or a run of characters none
    of which is [T], a double quote, [{], [[] or [n]. *)
Theorem decode_data_types (buf : pystr) (es : list frame) :
  decode buf = Some es ->
  Forall (fun e => data_type e = [ch "T"] \/ Forall tag_char_ok (data_type e)) es.
Proof.
  unfold decode. intros H.
  match goal with |- Forall ?P _ =>
    enough (HP : forall b e r, step b = SNext e r -> P e)
      by (destruct (frames_loop_forall _ _ _ _ _ HP H) as (es' & -> & Hf); exact Hf) end.
  intros b e r Hs. cbn beta. destruct (step_entry _ _ _ Hs) as (_ & _ & Hd & _). exact Hd.
Qed.

Lemma decode_data_types_witness :
  exists es, decode overlap_example = Some es /\
    Forall (fun e => data_type e = [ch "T"] \/ Forall tag_char_ok (data_type e)) es.
Proof.
  eexists. split; [vm_compute; reflexivity |].
  apply (decode_data_types overlap_example). vm_compute. reflexivity.
Defined.

(** X4.  Every entry's value is a string no longer than its non-negative
    [obj_length]; outside [T] entries it is exactly [obj_length] long. *)
Theorem decode_value_lengths (buf : pystr) (es : list frame) :
  decode buf = Some es ->
  Forall (fun e => (0 <= obj_length e)%Z /\ exists v, val e = JStr v /\
            (Z.of_nat (length v) <= obj_length e)%Z /\
            (data_type e <> [ch "T"] -> Z.of_nat (length v) = obj_length e)) es.
Proof.
  unfold decode. intros H.
  match goal with |- Forall ?P _ =>
    enough (HP : forall b e r, step b = SNext e r -> P e)
      by (destruct (frames_loop_forall _ _ _ _ _ HP H) as (es' & -> & Hf); exact Hf) end.
  intros b e r Hs. cbn beta. destruct (step_entry _ _ _ Hs) as (_ & _ & _ & Hl). exact Hl.
Qed.

Lemma decode_value_lengths_witness :
  exists es, decode resync_example = Some es /\
    Forall (fun e => (0 <= obj_length e)%Z /\ exists v, val e = JStr v /\
            (Z.of_nat (length v) <= obj_length e)%Z /\
            (data_type e <> [ch "T"] -> Z.of_nat (length v) = obj_length e)) es.
Proof.
  eexists. split; [vm_compute; reflexivity |].
  apply (decode_value_lengths resync_example). vm_compute. reflexivity.
Defined.

Lemma step_shortens (buf : pystr) (e : frame) (r : pystr) :
  step buf = SNext e r -> (length r < length buf)%nat.
Proof.
  intros Hs. destruct (step_entry _ _ _ Hs) as (_ & Hne & _).
  destruct (step_tile _ _ _ Hs) as (hdr & v & rest & -> & [z Hz] & _ & _ & _ & Hsuf).
  apply suffix_length in Hsuf. rewrite Hz in *.
  destruct (hex_string e) as [| h hs]; [congruence |].
  rewrite !length_app in *. simpl. lia.
Qed.

Lemma frames_loop_runs (fuel : nat) (other : pystr) (acc : list frame) :
  (length other < fuel)%nat -> loop_runs other acc (frames_loop fuel other acc).
Proof.
  revert other acc. induction fuel as [| f IH]; intros other acc Hl; [lia |].
  cbn [frames_loop]. destruct (step other) as [| | e other'] eqn:Hs.
  - by apply LR_break.
  - by apply LR_raise.
  - destruct other' as [| c o'].
    + by apply LR_last.
    + apply (LR_next other acc e c o'); [exact Hs |].
      apply step_shortens in Hs. apply IH. lia.
Qed.

Lemma loop_runs_frames_loop (other : pystr) (acc : list frame) (res : option (list frame)) :
  loop_runs other acc res -> forall fuel, (length other < fuel)%nat -> res = frames_loop fuel other acc.
Proof.
  induction 1 as [other acc Hs | other acc Hs | other acc e Hs | other acc e c rest res Hs _ IH];
    intros fuel Hl; (destruct fuel as [| f]; [lia |]); cbn [frames_loop]; rewrite Hs; try reflexivity.
  apply IH. apply step_shortens in Hs. lia.
Qed.

(** X5.  The [while True] loop of [merge_next_f_scripts] always ends: run
    with no bound on its passes ([loop_runs]), it ends on every buffer,
    with exactly one outcome, and that outcome is [decode]'s; so a [None]
    of [decode] is an exception escaping the loop, never a cut-off. *)
Theorem frames_loop_terminates (combined : pystr) (res : option (list frame)) :
  loop_runs combined [] res <-> res = decode combined.
Proof.
  split.
  - intros H. unfold decode. apply (loop_runs_frames_loop _ _ _ H). lia.
  - intros ->. unfold decode. apply frames_loop_runs. lia.
Qed.

(* ================================================================== *)
(** ** The push-call front end *)

Lemma marker_index_from_app (marker : pystr) (pre post : list tag) (m : tag) (i : nat) :
  Forall (fun t => has_marker marker t = false) pre -> has_marker marker m = true ->
  marker_index_from marker (pre ++ m :: post) i = Some (i + length pre)%nat.
Proof.
  intros Hpre Hm. revert i. induction Hpre as [| t pre Ht Hpre IH]; intros i; simpl.
  - rewrite Hm. f_equal. lia.
  - rewrite Ht, IH. f_equal. lia.
Qed.

Lemma marker_index_from_none (marker : pystr) (tags : list tag) (i : nat) :
  Forall (fun t => has_marker marker t = false) tags -> marker_index_from marker tags i = None.
Proof.
  intros H. revert i. induction H as [| t tags Ht H IH]; intros i; simpl; [reflexivity |].
  by rewrite Ht, IH.
Qed.

(** X6.  When no tag's [src] contains the marker, [merge_next_f_scripts]
    returns an empty list, whatever the scripts hold. *)
Theorem merge_no_marker (marker : pystr) (tags : list tag) :
  Forall (fun t => has_marker marker t = false) tags -> merge_next_f_scripts marker tags = Some [].
Proof. intros H. unfold merge_next_f_scripts. by rewrite marker_index_from_none. Qed.

Lemma merge_no_marker_witness :
  Forall (fun t => has_marker (str "webpack") t = false) [push_script (str "0:1")] /\
  merge_next_f_scripts (str "webpack") [push_script (str "0:1")] = Some [].
Proof.
  split; [vm_compute; repeat constructor |].
  apply merge_no_marker. vm_compute. repeat constructor.
Defined.

Lemma merge_after_marker (marker : pystr) (pre post : list tag) (m : tag) :
  Forall (fun t => has_marker marker t = false) pre -> has_marker marker m = true ->
  merge_next_f_scripts marker (pre ++ m :: post) =
    match parse_items (raw_items post) with
    | None => None
    | Some items => match combine_items items [] with None => None | Some c => decode c end
    end.
Proof.
  intros Hpre Hm. unfold merge_next_f_scripts. rewrite marker_index_from_app by assumption.
  rewrite Nat.add_0_l. replace (S (length pre)) with (length (pre ++ [m])) by (rewrite length_app; simpl; lia).
  change (pre ++ m :: post) with (pre ++ [m] ++ post). rewrite app_assoc, drop_app_length.
  reflexivity.
Qed.

(** X7.  Only the scripts after the first marker tag count: the result does
    not depend on the tags before it, nor on the marker tag itself. *)
Theorem merge_ignores_before_marker (marker : pystr) (pre pre' post : list tag) (m m' : tag) :
  Forall (fun t => has_marker marker t = false) pre -> has_marker marker m = true ->
  Forall (fun t => has_marker marker t = false) pre' -> has_marker marker m' = true ->
  merge_next_f_scripts marker (pre ++ m :: post) = merge_next_f_scripts marker (pre' ++ m' :: post).
Proof. intros. by rewrite !merge_after_marker. Qed.

Lemma merge_ignores_before_marker_witness :
  let mk := mkTag (Some (str "/chunks/webpack.js")) None [] in
  let other := mkTag None (Some (push_lit ++ str "[1,[2]])")) [] in
  Forall (fun t => has_marker (str "webpack") t = false) [other] /\ has_marker (str "webpack") mk = true /\
  Forall (fun t => has_marker (str "webpack") t = false) [] /\ has_marker (str "webpack") mk = true /\
  merge_next_f_scripts (str "webpack") ([other] ++ mk :: [push_script (str "0:1")]) =
    merge_next_f_scripts (str "webpack") ([] ++ mk :: [push_script (str "0:1")]).
Proof.
  intros mk other.
  assert (H1 : Forall (fun t => has_marker (str "webpack") t = false) [other]) by (vm_compute; repeat constructor).
  assert (H2 : has_marker (str "webpack") mk = true) by (vm_compute; reflexivity).
  assert (H3 : Forall (fun t => has_marker (str "webpack") t = false) (@nil tag)) by constructor.
  split; [exact H1 |]. split; [exact H2 |]. split; [exact H3 |]. split; [exact H2 |].
  exact (merge_ignores_before_marker _ _ _ _ _ _ H1 H2 H3 H2).
Defined.

Lemma hex_char_value (n : N) : n < 16 -> hex_digit_value (hex_char n) = Some n.
Proof.
  intros Hn. unfold hex_char, hex_digit_value.
  destruct (N.ltb_spec n 10);
  repeat match goal with |- context [?a <=? ?b] => destruct (N.leb_spec a b) end;
  cbn [andb]; try lia; f_equal; lia.
Qed.

Lemma hex4_escape (c : N) : c < 32 -> hex4 48 48 (hex_char (c / 16)) (hex_char (c mod 16)) = Some c.
Proof.
  intros Hc. unfold hex4.
  rewrite (hex_char_value (c / 16)), (hex_char_value (c mod 16)).
  - change (hex_digit_value 48) with (Some 0). cbv iota beta. f_equal.
    pose proof (N.div_mod c 16 ltac:(discriminate)). pose proof (N.mod_lt c 16 ltac:(discriminate)). lia.
  - apply N.mod_lt. discriminate.
  - apply N.Div0.div_lt_upper_bound. lia.
Qed.

Lemma scan_string_quote (s acc r : pystr) :
  scan_string (flat_map json_escape_char s ++ 34 :: r) acc = Some (rev acc ++ s, r).
Proof.
  revert acc. induction s as [| c s IH]; intros acc.
  { cbn [flat_map app scan_string N.eqb Pos.eqb]. by rewrite app_nil_r. }
  cbn [flat_map]. rewrite <- app_assoc.
  remember (flat_map json_escape_char s ++ 34 :: r) as T eqn:HT.
  unfold json_escape_char.
  destruct (N.eqb_spec c 34) as [-> | H34].
  { cbn [app scan_string N.eqb Pos.eqb]. rewrite IH. cbn [rev]. by rewrite <- app_assoc. }
  destruct (N.eqb_spec c 92) as [-> | H92].
  { cbn [app scan_string N.eqb Pos.eqb]. rewrite IH. cbn [rev]. by rewrite <- app_assoc. }
  destruct (N.ltb_spec c 32) as [Hlt | Hge].
  - cbn [app scan_string N.eqb Pos.eqb]. rewrite hex4_escape by exact Hlt.
    assert (Hh : is_high_surrogate c = false).
    { unfold is_high_surrogate. destruct (N.leb_spec 55296 c); [lia | reflexivity]. }
    rewrite Hh.
    destruct T as [| x y]; [destruct (flat_map json_escape_char s); discriminate |].
    rewrite IH. cbn [rev]. by rewrite <- app_assoc.
  - cbn [app scan_string].
    rewrite (proj2 (N.eqb_neq c 34) H34), (proj2 (N.eqb_neq c 92) H92).
    destruct (N.leb_spec c 31); [lia |].
    rewrite IH. cbn [rev]. by rewrite <- app_assoc.
Qed.

(** the JSON text of a push of type 1 *)
Lemma json_loads_push (s : pystr) :
  json_loads (JStr (str "[1," ++ json_quote s ++ str "]")) = Some (JArr [JInt 1; JStr s]).
Proof.
  unfold json_loads, json_quote, raw_decode.
  remember (flat_map json_escape_char s) as E eqn:HE.
  simpl. rewrite <- app_assoc. simpl. rewrite HE, scan_string_quote. simpl. reflexivity.
Qed.

Lemma hex_char_not93 (n : N) : hex_char n <> 93.
Proof. unfold hex_char. destruct (N.ltb_spec n 10); lia. Qed.

Lemma escape_no93 (c : N) : c <> 93 -> 93 ∉ json_escape_char c.
Proof.
  intros Hc Hin. apply list_elem_of_In in Hin.
  pose proof (hex_char_not93 (c / 16)). pose proof (hex_char_not93 (c mod 16)).
  unfold json_escape_char in Hin. repeat case_match; cbn [In] in Hin; lia.
Qed.

Lemma quote_no93 (s : pystr) : 93 ∉ s -> 93 ∉ flat_map json_escape_char s.
Proof.
  induction s as [| c s IH]; intros Hs; cbn [flat_map]; [apply not_elem_of_nil |].
  apply not_elem_of_cons in Hs as [Hc Hs]. apply not_elem_of_app. split; [| exact (IH Hs)].
  apply escape_no93. congruence.
Qed.

Lemma push_close_app (b r : pystr) : 93 ∉ b -> push_close (b ++ [93; 41] ++ r) = Some (b, r).
Proof.
  induction b as [| c b IH]; intros Hb; [reflexivity |].
  apply not_elem_of_cons in Hb as [Hc Hb].
  change ((c :: b) ++ [93; 41] ++ r) with (c :: (b ++ [93; 41] ++ r)). cbn [push_close].
  rewrite (proj2 (N.eqb_neq c 93)) by congruence.
  rewrite IH by exact Hb. reflexivity.
Qed.

Lemma push_groups_cons (f : nat) (s : pystr) :
  s <> [] ->
  push_groups (S f) s = match push_match s with
                        | Some (g, r) => g :: push_groups f r
                        | None => push_groups f (tail s)
                        end.
Proof. destruct s; [congruence | reflexivity]. Qed.

Lemma push_groups_nil (f : nat) : push_groups f [] = [].
Proof. by destruct f. Qed.

Lemma skip_py_space_nonspace (c : N) (s : pystr) : is_py_space c = false -> skip_py_space (c :: s) = c :: s.
Proof. intros H. simpl. by rewrite H. Qed.

Lemma py_strip_brackets (B : pystr) : py_strip ([91] ++ B ++ [93]) = [91] ++ B ++ [93].
Proof.
  unfold py_strip. cbn [app]. rewrite skip_py_space_nonspace by reflexivity.
  rewrite app_comm_cons, rev_unit, skip_py_space_nonspace by reflexivity.
  cbn [rev]. by rewrite rev_app_distr, rev_involutive.
Qed.

Lemma raw_items_push (ss : list pystr) :
  Forall (fun s => 93 ∉ s) ss ->
  raw_items (map push_script ss) = map (fun s => str "[1," ++ json_quote s ++ str "]") ss.
Proof.
  induction 1 as [| s ss Hs Hss IH]; [reflexivity |].
  unfold raw_items in *. cbn [map flat_map]. rewrite IH. f_equal.
  unfold push_finditer, tag_text, push_script. cbn [tag_string].
  rewrite push_groups_cons by (unfold push_lit; simpl; discriminate).
  assert (Hq : 93 ∉ [49; 44] ++ json_quote s).
  { unfold json_quote. rewrite !not_elem_of_app, !not_elem_of_cons.
    pose proof (quote_no93 s Hs). repeat split; auto using not_elem_of_nil; discriminate. }
  replace (push_lit ++ str "[1," ++ json_quote s ++ str "])")
    with (push_lit ++ 91 :: (([49; 44] ++ json_quote s) ++ [93; 41] ++ [])) by (simpl; by rewrite <- !app_assoc).
  unfold push_match. rewrite prefixb_app, drop_app_length, skip_py_space_nonspace by reflexivity.
  cbv beta iota. rewrite (N.eqb_refl 91), push_close_app by exact Hq. cbn [option_map fst snd].
  rewrite push_groups_nil. cbn [map]. rewrite py_strip_brackets.
  simpl. by rewrite <- !app_assoc.
Qed.

Lemma parse_items_push (ss : list pystr) :
  parse_items (map (fun s => str "[1," ++ json_quote s ++ str "]") ss) =
    Some (map (fun s => JArr [JInt 1; JStr s]) ss).
Proof.
  induction ss as [| s ss IH]; [reflexivity |].
  unfold parse_items in *. cbn [map map_opt]. rewrite json_loads_push, IH. reflexivity.
Qed.

Lemma combine_items_push (ss : list pystr) (acc : pystr) :
  combine_items (map (fun s => JArr [JInt 1; JStr s]) ss) acc = Some (acc ++ concat ss).
Proof.
  revert acc. induction ss as [| s ss IH]; intros acc; [by rewrite app_nil_r |].
  cbn [map combine_items unpack2]. change (key_eq (JInt 1) (JInt 1)) with true. cbv iota.
  rewrite IH. by rewrite <- app_assoc.
Qed.

(** X8.  Round trip through the front end: when the scripts after the
    marker tag each push one text chunk of type 1, written as a JSON string
    literal, [merge_next_f_scripts] decodes exactly the concatenation of
    the chunks, in order.  A chunk must not contain [\]], which the lazy
    [_PUSH_RE] could take for the end of the push call. *)
Theorem merge_push_roundtrip (marker : pystr) (pre : list tag) (m : tag) (ss : list pystr) :
  Forall (fun t => has_marker marker t = false) pre -> has_marker marker m = true ->
  Forall (fun s => 93 ∉ s) ss ->
  merge_next_f_scripts marker (pre ++ m :: map push_script ss) = decode (concat ss).
Proof.
  intros Hpre Hm Hss. rewrite merge_after_marker by assumption.
  rewrite raw_items_push, parse_items_push, combine_items_push by exact Hss. reflexivity.
Qed.

Lemma merge_push_roundtrip_witness :
  let mk := mkTag (Some (str "/chunks/webpack.js")) None [] in
  let ss := [qstr "0:{`a`:"; str "1}"; [10]] in
  Forall (fun t => has_marker (str "webpack") t = false) [] /\ has_marker (str "webpack") mk = true /\
  Forall (fun s => 93 ∉ s) ss /\
  merge_next_f_scripts (str "webpack") ([] ++ mk :: map push_script ss) = decode (concat ss).
Proof.
  intros mk ss.
  assert (H1 : Forall (fun t => has_marker (str "webpack") t = false) (@nil tag)) by constructor.
  assert (H2 : has_marker (str "webpack") mk = true) by (vm_compute; reflexivity).
  assert (H3 : Forall (fun s => 93 ∉ s) ss).
  { repeat constructor; intros Hin; apply list_elem_of_In in Hin; vm_compute in Hin; lia. }
  split; [exact H1 |]. split; [exact H2 |]. split; [exact H3 |].
  exact (merge_push_roundtrip _ _ _ _ H1 H2 H3).
Defined.

(* ================================================================== *)
(** ** Vendors *)

Lemma dict_lookup_notin (d : list (pystr * jvalue)) (k : pystr) :
  k ∉ map fst d -> dict_lookup d k = None.
Proof.
  induction d as [| [k' v'] d IH]; intros Hk; [reflexivity |].
  cbn [map fst] in Hk. apply not_elem_of_cons in Hk as [Hk1 Hk2].
  cbn [dict_lookup]. rewrite IH by exact Hk2. case_bool_decide; [congruence | reflexivity].
Qed.

Lemma sdict_set_keys (d : list (pystr * jvalue)) (k : pystr) (v : jvalue) :
  map fst (sdict_set d k v) = if bool_decide (k ∈ map fst d) then map fst d else map fst d ++ [k].
Proof.
  induction d as [| [k' v'] d IH]; cbn [sdict_set map fst]; [reflexivity |].
  destruct (decide (k' = k)) as [-> | E].
  - rewrite (bool_decide_true (k = k)) by reflexivity. cbn [map fst].
    rewrite bool_decide_true by apply list_elem_of_here. reflexivity.
  - rewrite (bool_decide_false (k' = k)) by exact E. cbn [map fst]. rewrite IH.
    destruct (decide (k ∈ map fst d)) as [Hin | Hnin].
    + rewrite (bool_decide_true (k ∈ map fst d)) by exact Hin.
      rewrite bool_decide_true by (by apply list_elem_of_further). reflexivity.
    + rewrite (bool_decide_false (k ∈ map fst d)) by exact Hnin.
      rewrite bool_decide_false; [reflexivity |].
      intros Hc. apply elem_of_cons in Hc as [-> | Hc]; [congruence | contradiction].
Qed.

Lemma sdict_set_nodup (d : list (pystr * jvalue)) (k : pystr) (v : jvalue) :
  NoDup (map fst d) -> NoDup (map fst (sdict_set d k v)).
Proof.
  intros H. rewrite sdict_set_keys. case_bool_decide as E; [exact H |].
  apply NoDup_app. split; [exact H |]. split; [| apply NoDup_singleton].
  intros x Hx Hx'. apply list_elem_of_singleton in Hx'. subst x. contradiction.
Qed.

Lemma sdict_set_lookup (d : list (pystr * jvalue)) (k k' : pystr) (v : jvalue) :
  NoDup (map fst d) ->
  dict_lookup (sdict_set d k v) k' = if bool_decide (k = k') then Some v else dict_lookup d k'.
Proof.
  induction d as [| [k0 v0] d IH]; intros Hd; cbn [sdict_set].
  - cbn [dict_lookup]. reflexivity.
  - cbn [map fst] in Hd. apply NoDup_cons in Hd as [Hk0 Hd].
    destruct (decide (k0 = k)) as [-> | E].
    + rewrite (bool_decide_true (k = k)) by reflexivity. cbn [dict_lookup].
      destruct (decide (k = k')) as [<- | E1].
      * rewrite bool_decide_true by reflexivity. by rewrite dict_lookup_notin.
      * rewrite bool_decide_false by exact E1. destruct (dict_lookup d k'); reflexivity.
    + rewrite (bool_decide_false (k0 = k)) by exact E. cbn [dict_lookup]. rewrite IH by exact Hd.
      destruct (decide (k = k')) as [<- | E1].
      * rewrite bool_decide_true by reflexivity. reflexivity.
      * rewrite bool_decide_false by exact E1. reflexivity.
Qed.

Lemma sdict_pop_keys (d : list (pystr * jvalue)) (k : pystr) :
  NoDup (map fst d) -> NoDup (map fst (sdict_pop d k)) /\ k ∉ map fst (sdict_pop d k).
Proof.
  induction d as [| [k0 v0] d IH]; intros Hd; cbn [sdict_pop].
  - split; [constructor | apply not_elem_of_nil].
  - cbn [map fst] in Hd. apply NoDup_cons in Hd as [Hk0 Hd].
    case_bool_decide as E.
    + subst k0. split; assumption.
    + destruct (IH Hd) as [H1 H2]. cbn [map fst]. split.
      * apply NoDup_cons. split; [| exact H1].
        intros Hin. apply Hk0. clear -Hin.
        induction d as [| [k1 v1] d IH]; cbn [sdict_pop map fst] in *; [exact Hin |].
        case_bool_decide; [by apply list_elem_of_further |].
        apply elem_of_cons in Hin as [-> | Hin]; [apply list_elem_of_here | by apply list_elem_of_further, IH].
      * apply not_elem_of_cons. split; [congruence | exact H2].
Qed.

Lemma sdict_pop_lookup (d : list (pystr * jvalue)) (k k' : pystr) :
  NoDup (map fst d) -> k <> k' -> dict_lookup (sdict_pop d k) k' = dict_lookup d k'.
Proof.
  induction d as [| [k0 v0] d IH]; intros Hd Hk; cbn [sdict_pop]; [reflexivity |].
  cbn [map fst] in Hd. apply NoDup_cons in Hd as [Hk0 Hd].
  case_bool_decide as E.
  - subst k0. cbn [dict_lookup]. destruct (dict_lookup d k'); [reflexivity |].
    rewrite bool_decide_false by exact Hk. reflexivity.
  - cbn [dict_lookup]. rewrite IH by assumption. reflexivity.
Qed.

Lemma update_fold (ps d : list (pystr * jvalue)) :
  NoDup (map fst d) ->
  NoDup (map fst (fold_left (fun d p => sdict_set d p.1 p.2) ps d)) /\
  forall k, dict_lookup (fold_left (fun d p => sdict_set d p.1 p.2) ps d) k =
            match dict_lookup ps k with Some x => Some x | None => dict_lookup d k end.
Proof.
  revert d. induction ps as [| [k0 v0] ps IH]; intros d Hd; cbn [fold_left fst snd].
  - split; [exact Hd | reflexivity].
  - destruct (IH (sdict_set d k0 v0) (sdict_set_nodup _ _ _ Hd)) as [H1 H2].
    split; [exact H1 |]. intros k. rewrite H2. cbn [dict_lookup].
    destruct (dict_lookup ps k); [reflexivity |].
    rewrite sdict_set_lookup by exact Hd. case_bool_decide; reflexivity.
Qed.

Lemma asdict_nodup (v : vendor) : NoDup (map fst (asdict v)).
Proof.
  unfold asdict. cbn [map fst]. apply NoDup_ListNoDup. vm_compute.
  repeat constructor; intros H; repeat (destruct H as [H | H]; [discriminate H |]); exact H.
Qed.

(** X9.  [Vendor.to_dict] never has the key [extra], even when [extra]
    itself has it, and has no key twice; every other key of [extra] takes
    its value from [extra], overriding the dataclass field of that name. *)
Theorem to_dict_keys (v : vendor) :
  NoDup (map fst (to_dict v)) /\ (str "extra" ∉ map fst (to_dict v)) /\
  forall k, k <> str "extra" ->
    dict_lookup (to_dict v) k =
      match dict_lookup (extra v) k with Some x => Some x | None => dict_lookup (asdict v) k end.
Proof.
  unfold to_dict.
  destruct (update_fold (extra v) (asdict v) (asdict_nodup v)) as [H1 H2].
  destruct (sdict_pop_keys _ (str "extra") H1) as [H3 H4].
  split; [exact H3 |]. split; [exact H4 |].
  intros k Hk. rewrite sdict_pop_lookup by (done || congruence). apply H2.
Qed.

Lemma map_opt_length {A B} (f : A -> option B) (l : list A) (l' : list B) :
  map_opt f l = Some l' -> length l' = length l.
Proof.
  revert l'. induction l as [| x l IH]; intros l' H; cbn [map_opt] in H.
  - by injection H as <-.
  - destruct (f x); [| discriminate]. destruct (map_opt f l) as [l0 |] eqn:E; [| discriminate].
    injection H as <-. cbn [length]. by rewrite (IH l0).
Qed.

Lemma py_min_from_in (cur : jvalue) (l : list jvalue) (m : jvalue) :
  py_min_from cur l = Some m -> m = cur \/ m ∈ l.
Proof.
  revert cur. induction l as [| x l IH]; intros cur H; cbn [py_min_from] in H.
  - injection H as <-. by left.
  - destruct (py_lt x cur) as [[] |]; [| | discriminate].
    + apply IH in H as [-> | H]; right; [apply list_elem_of_here | by apply list_elem_of_further].
    + apply IH in H as [-> | H]; [by left | right; by apply list_elem_of_further].
Qed.

(** what a successful [from_api_item] computed *)
Lemma from_api_item_inv (item : jvalue) (v : vendor) :
  from_api_item item = Some v ->
  exists prices ps nn,
    py_get_default item (str "prices") (JArr []) = Some prices /\
    py_iter (if py_truthy prices then prices else JArr []) = Some ps /\
    non_null_prices ps = Some nn /\ extra v = [] /\ url_extra v = JObj [] /\
    (nn = [] -> minimum_spend v = JNull) /\
    (nn <> [] -> exists x xs, map_opt (fun p => py_getitem_str p MSC) nn = Some (x :: xs) /\
                  py_min_from x xs = Some (minimum_spend v)).
Proof.
  unfold from_api_item. intros H.
  destruct (py_get_default item (str "prices") (JArr [])) as [prices |] eqn:Hpr; [| discriminate].
  destruct (py_iter _) as [ps |] eqn:Hit; [| discriminate].
  destruct (non_null_prices ps) as [nn |] eqn:Hnn; [| discriminate].
  exists prices, ps, nn. split; [reflexivity |]. split; [exact Hit |]. split; [exact Hnn |].
  destruct nn as [| p nn'].
  - destruct (py_get_default item (str "slug") (JStr [])), (py_get_default item (str "name") (JStr [])),
      (py_get item (str "phone_number")); try discriminate.
    injection H as <-. cbn. split; [reflexivity |]. split; [reflexivity |]. split; [reflexivity | congruence].
  - destruct (map_opt _ (p :: nn')) as [[| x xs] |] eqn:Hm.
    + apply map_opt_length in Hm. discriminate.
    + destruct (py_min_from x xs) as [ms |] eqn:Hmin; [| discriminate].
      destruct (py_get_default item (str "slug") (JStr [])), (py_get_default item (str "name") (JStr [])),
        (py_get item (str "phone_number")); try discriminate.
      injection H as <-. cbn. split; [reflexivity |]. split; [reflexivity |]. split; [discriminate |].
      intros _. exists x, xs. split; [reflexivity | exact Hmin].
    + discriminate.
Qed.

Lemma non_null_prices_spec (ps nn : list jvalue) :
  non_null_prices ps = Some nn ->
  (nn = [] <-> Forall (fun p => py_get p MSC = Some JNull) ps) /\
  Forall (fun p => exists kvp x, p = JObj kvp /\ dict_lookup kvp MSC = Some x /\ x <> JNull) nn.
Proof.
  revert nn. induction ps as [| p ps IH]; intros nn H; cbn [non_null_prices] in H.
  - injection H as <-. split; [split; constructor | constructor].
  - destruct (py_get p MSC) as [x |] eqn:Hp; [| discriminate].
    assert (Hx : forall x', x = x' -> x' <> JNull -> exists kvp, p = JObj kvp /\ dict_lookup kvp MSC = Some x').
    { intros x' -> Hn. destruct p; try discriminate. unfold py_get, py_get_default in Hp. injection Hp as Hp.
      destruct (dict_lookup kv MSC) eqn:E; [| congruence]. subst. eauto. }
    destruct x; try (destruct (non_null_prices ps) as [nn' |] eqn:E; [| discriminate];
      cbn [option_map] in H; injection H as <-;
      destruct (IH nn' eq_refl) as [_ Hf];
      split; [split; [discriminate | intros Hc; apply Forall_cons in Hc as [Hc _]; congruence] |];
      constructor; [| exact Hf];
      (edestruct Hx as (kvp & -> & Hk); [reflexivity | discriminate | eauto])).
    destruct (IH nn H) as [Hiff Hf]. split; [| exact Hf].
    rewrite Hiff. split; [intros Hall; by constructor | intros Hall; by apply Forall_cons in Hall as [_ Hall]].
Qed.

(** X10.  [from_api_item] leaves [minimum_spend] at [None] exactly when no
    price has a non-null [minimum_spend_cents] (a missing key counts as
    null, and so does a missing or empty [prices]). *)
Theorem from_api_item_no_spend (item : jvalue) (ps : list jvalue) (v : vendor) :
  py_get_default item (str "prices") (JArr []) = Some (JArr ps) ->
  from_api_item item = Some v ->
  (minimum_spend v = JNull <-> Forall (fun p => py_get p MSC = Some JNull) ps).
Proof.
  intros Hp H. destruct (from_api_item_inv _ _ H) as (prices & ps' & nn & Hp' & Hi & Hnn & _ & _ & Hnil & Hcons).
  rewrite Hp in Hp'. injection Hp' as <-.
  assert (Hps : ps' = ps) by (destruct ps; cbn in Hi; congruence). subst ps'.
  destruct (non_null_prices_spec _ _ Hnn) as [Hiff Hf].
  rewrite <- Hiff. destruct nn as [| p nn'].
  - split; [reflexivity | intros _; exact (Hnil eq_refl)].
  - destruct (Hcons ltac:(discriminate)) as (x & xs & Hm & Hmin).
    split; [| discriminate]. intros Hms. exfalso.
    apply py_min_from_in in Hmin. rewrite Hms in Hmin.
    assert (Hx : JNull ∈ x :: xs) by (destruct Hmin as [-> | Hmin]; [apply list_elem_of_here | by apply list_elem_of_further]).
    clear -Hm Hf Hx. revert Hm Hx. generalize (x :: xs). intros ys Hm Hx.
    revert ys Hm Hx. induction Hf as [| q nn Hq Hf IH]; intros ys Hm Hx; cbn [map_opt] in Hm.
    + injection Hm as <-. by apply not_elem_of_nil in Hx.
    + destruct Hq as (kvp & x' & -> & Hk & Hn). cbn [py_getitem_str] in Hm. rewrite Hk in Hm.
      destruct (map_opt _ nn) as [ys' |]; [| discriminate]. injection Hm as <-.
      apply elem_of_cons in Hx as [Hx | Hx]; [congruence | exact (IH ys' eq_refl Hx)].
Qed.

Lemma from_api_item_no_spend_witness :
  let item := JObj [(str "prices", JArr [JObj [(MSC, JNull)]; JObj []])] in
  py_get_default item (str "prices") (JArr []) = Some (JArr [JObj [(MSC, JNull)]; JObj []]) /\
  exists v, from_api_item item = Some v /\
    (minimum_spend v = JNull <-> Forall (fun p => py_get p MSC = Some JNull) [JObj [(MSC, JNull)]; JObj []]).
Proof.
  intros item. split; [reflexivity |]. eexists. split; [reflexivity |].
  apply (from_api_item_no_spend item); reflexivity.
Defined.

Lemma py_lt_int (a b : Z) : py_lt (JInt a) (JInt b) = Some (a <? b)%Z.
Proof. cbn. by rewrite !Z.mul_1_r. Qed.

Lemma py_min_from_int (m : Z) (zs : list Z) :
  exists m', py_min_from (JInt m) (map JInt zs) = Some (JInt m') /\ (m' = m \/ m' ∈ zs) /\
    (m' <= m)%Z /\ Forall (fun z => m' <= z)%Z zs.
Proof.
  revert m. induction zs as [| z zs IH]; intros m; cbn [map py_min_from].
  - exists m. split; [reflexivity |]. split; [by left |]. split; [lia | constructor].
  - rewrite py_lt_int. destruct (Z.ltb_spec z m).
    + destruct (IH z) as (m' & Hm & Hin & Hle & Hf). exists m'. split; [exact Hm |].
      split; [destruct Hin as [-> | Hin]; right; [apply list_elem_of_here | by apply list_elem_of_further] |].
      split; [lia |]. constructor; [lia | exact Hf].
    + destruct (IH m) as (m' & Hm & Hin & Hle & Hf). exists m'. split; [exact Hm |].
      split; [destruct Hin as [-> | Hin]; [by left | right; by apply list_elem_of_further] |].
      split; [lia |]. constructor; [lia | exact Hf].
Qed.

Lemma int_prices_cents (ps : list jvalue) :
  Forall (fun p => exists kvp, p = JObj kvp /\
            forall x, dict_lookup kvp MSC = Some x -> x = JNull \/ exists z, x = JInt z) ps ->
  exists nn zs, non_null_prices ps = Some nn /\
    map_opt (fun p => py_getitem_str p MSC) nn = Some (map JInt zs) /\
    (forall z, z ∈ zs <-> exists p, p ∈ ps /\ py_get p MSC = Some (JInt z)) /\
    (nn = [] <-> zs = []).
Proof.
  induction 1 as [| p ps (kvp & -> & Hp) Hps (nn & zs & Hnn & Hm & Hz & He)].
  - exists [], []. split; [reflexivity |]. split; [reflexivity |].
    split; [| done]. intros z. split; [intros Hz; by apply not_elem_of_nil in Hz |].
    intros (p & Hp & _). by apply not_elem_of_nil in Hp.
  - assert (Hget : py_get (JObj kvp) MSC = Some (match dict_lookup kvp MSC with Some w => w | None => JNull end))
      by reflexivity.
    destruct (dict_lookup kvp MSC) as [x |] eqn:Hk.
    + destruct (Hp x eq_refl) as [-> | [z0 ->]].
      * exists nn, zs. cbn [non_null_prices]. rewrite Hget, Hnn. split; [reflexivity |].
        split; [exact Hm |]. split; [| exact He]. intros z. rewrite Hz. split.
        -- intros (q & Hq & Hq'). exists q. split; [by apply list_elem_of_further | exact Hq'].
        -- intros (q & Hq & Hq'). apply elem_of_cons in Hq as [-> | Hq]; [congruence | eauto].
      * exists (JObj kvp :: nn), (z0 :: zs). cbn [non_null_prices]. rewrite Hget, Hnn.
        split; [reflexivity |]. cbn [map_opt py_getitem_str]. rewrite Hk, Hm.
        split; [reflexivity |]. split; [| split; discriminate]. intros z. split.
        -- intros Hin. apply elem_of_cons in Hin as [-> | Hin].
           ++ exists (JObj kvp). split; [apply list_elem_of_here | exact Hget].
           ++ apply Hz in Hin as (q & Hq & Hq'). exists q. split; [by apply list_elem_of_further | exact Hq'].
        -- intros (q & Hq & Hq'). apply elem_of_cons in Hq as [-> | Hq].
           ++ rewrite Hget in Hq'. injection Hq' as ->. apply list_elem_of_here.
           ++ apply list_elem_of_further, Hz. eauto.
    + exists nn, zs. cbn [non_null_prices]. rewrite Hget, Hnn. split; [reflexivity |].
      split; [exact Hm |]. split; [| exact He]. intros z. rewrite Hz. split.
      * intros (q & Hq & Hq'). exists q. split; [by apply list_elem_of_further | exact Hq'].
      * intros (q & Hq & Hq'). apply elem_of_cons in Hq as [-> | Hq]; [congruence | eauto].
Qed.

(** X11.  When every price is a dict whose [minimum_spend_cents] is
    missing, null or an integer, [from_api_item] succeeds, and
    [minimum_spend] is [None] or the least of those integers. *)
Theorem from_api_item_min_int (item : jvalue) (ps : list jvalue) :
  py_get_default item (str "prices") (JArr []) = Some (JArr ps) ->
  Forall (fun p => exists kvp, p = JObj kvp /\
            forall x, dict_lookup kvp MSC = Some x -> x = JNull \/ exists z, x = JInt z) ps ->
  exists v, from_api_item item = Some v /\
    (minimum_spend v = JNull \/
     exists m, minimum_spend v = JInt m /\ (exists p, p ∈ ps /\ py_get p MSC = Some (JInt m)) /\
       forall p z, p ∈ ps -> py_get p MSC = Some (JInt z) -> (m <= z)%Z).
Proof.
  intros Hp Hps. destruct item as [| | | | | | kv]; try discriminate.
  destruct (int_prices_cents ps Hps) as (nn & zs & Hnn & Hm & Hz & He).
  unfold from_api_item. rewrite Hp.
  replace (if py_truthy (JArr ps) then JArr ps else JArr []) with (JArr ps) by (destruct ps; reflexivity).
  cbn [py_iter]. rewrite Hnn.
  destruct nn as [| p nn'].
  - eexists. split; [reflexivity |]. by left.
  - destruct zs as [| z0 zs']; [destruct He as [_ He]; discriminate (He eq_refl) |].
    cbn [map] in Hm. rewrite Hm.
    destruct (py_min_from_int z0 zs') as (m & Hmin & Hin & Hle & Hf). rewrite Hmin.
    eexists. split; [reflexivity |]. right. exists m. split; [reflexivity |]. split.
    + apply Hz. destruct Hin as [-> | Hin]; [apply list_elem_of_here | by apply list_elem_of_further].
    + intros q z Hq Hq'. assert (Hzin : z ∈ z0 :: zs') by (apply Hz; eauto).
      apply elem_of_cons in Hzin as [-> | Hzin]; [exact Hle |].
      rewrite Forall_forall in Hf. exact (Hf z Hzin).
Qed.

Lemma from_api_item_min_int_witness :
  let ps := [JObj [(MSC, JInt 500)]; JObj [(MSC, JNull)]; JObj [(MSC, JInt 300)]] in
  py_get_default (JObj [(str "prices", JArr ps)]) (str "prices") (JArr []) = Some (JArr ps) /\
  Forall (fun p => exists kvp, p = JObj kvp /\
            forall x, dict_lookup kvp MSC = Some x -> x = JNull \/ exists z, x = JInt z) ps /\
  exists v, from_api_item (JObj [(str "prices", JArr ps)]) = Some v /\
    (minimum_spend v = JNull \/
     exists m, minimum_spend v = JInt m /\ (exists p, p ∈ ps /\ py_get p MSC = Some (JInt m)) /\
       forall p z, p ∈ ps -> py_get p MSC = Some (JInt z) -> (m <= z)%Z).
Proof.
  intros ps.
  assert (H1 : py_get_default (JObj [(str "prices", JArr ps)]) (str "prices") (JArr []) = Some (JArr ps))
    by reflexivity.
  assert (H2 : Forall (fun p => exists kvp, p = JObj kvp /\
            forall x, dict_lookup kvp MSC = Some x -> x = JNull \/ exists z, x = JInt z) ps).
  { repeat constructor; (eexists; split; [reflexivity |]); intros x Hx; vm_compute in Hx;
      injection Hx as <-; eauto. }
  split; [exact H1 |]. split; [exact H2 |].
  exact (from_api_item_min_int _ _ H1 H2).
Defined.

Lemma dict_keys_fold_len (kv : list (pystr * jvalue)) (ks : list pystr) :
  (length ks <= length (fold_left (fun ks p => if bool_decide (p.1 ∈ ks) then ks else ks ++ [p.1]) kv ks))%nat.
Proof.
  revert ks. induction kv as [| p kv IH]; intros ks; cbn [fold_left]; [lia |].
  etransitivity; [| apply IH]. case_match; [lia | rewrite length_app; cbn; lia].
Qed.

Lemma py_iter_truthy (v : jvalue) (items : list jvalue) :
  py_truthy v = true -> py_iter v = Some items -> items <> [].
Proof.
  intros Ht Hi ->. destruct v as [| | | | s | l | kv]; try discriminate; cbn in Hi, Ht.
  - destruct s; [discriminate | discriminate Hi].
  - injection Hi as ->. discriminate.
  - destruct kv as [| p kv]; [discriminate |]. injection Hi as Hi.
    apply map_eq_nil in Hi. unfold dict_keys in Hi. cbn [fold_left] in Hi.
    rewrite (bool_decide_false (p.1 ∈ [])) in Hi by apply not_elem_of_nil. cbn [app] in Hi.
    pose proof (dict_keys_fold_len kv [p.1]) as Hl. rewrite Hi in Hl. cbn in Hl. lia.
Qed.

Lemma add_until_len (n : Z) (vs c : list vendor) :
  (Z.of_nat (length c) <= Z.of_nat (length (add_until n vs c)) <= Z.max n (Z.of_nat (length c)))%Z.
Proof.
  revert c. induction vs as [| v vs IH]; intros c; cbn [add_until]; [lia |].
  destruct (Z.leb_spec n (Z.of_nat (length c))); [lia |].
  specialize (IH (c ++ [v])). rewrite length_app in IH. cbn [length] in IH. lia.
Qed.

Lemma add_until_grows (n : Z) (vs c : list vendor) :
  (Z.of_nat (length c) < n)%Z -> vs <> [] ->
  (Z.of_nat (length c) < Z.of_nat (length (add_until n vs c)))%Z.
Proof.
  intros Hlt Hne. destruct vs as [| v vs]; [done |]. cbn [add_until].
  destruct (Z.leb_spec n (Z.of_nat (length c))); [lia |].
  pose proof (add_until_len n vs (c ++ [v])) as Hl. rewrite length_app in Hl. cbn [length] in Hl. lia.
Qed.

Lemma add_until_forall (P : vendor -> Prop) (n : Z) (vs c : list vendor) :
  Forall P c -> Forall P vs -> Forall P (add_until n vs c).
Proof.
  revert c. induction vs as [| v vs IH]; intros c Hc Hvs; cbn [add_until]; [exact Hc |].
  apply Forall_cons in Hvs as [Hv Hvs]. case_match; [exact Hc |].
  apply IH; [apply Forall_app; split; [exact Hc | by constructor] | exact Hvs].
Qed.

Lemma map_opt_from_api_item (items : list jvalue) (pv : list vendor) :
  map_opt from_api_item items = Some pv ->
  Forall (fun v => extra v = [] /\ url_extra v = JObj []) pv.
Proof.
  revert pv. induction items as [| it items IH]; intros pv H; cbn [map_opt] in H.
  - by injection H as <-.
  - destruct (from_api_item it) as [v |] eqn:Hv; [| discriminate].
    destruct (map_opt from_api_item items) as [pv' |]; [| discriminate]. injection H as <-.
    destruct (from_api_item_inv _ _ Hv) as (_ & _ & _ & _ & _ & _ & He & Hu & _).
    constructor; [split; assumption | exact (IH pv' eq_refl)].
Qed.

(** a pass that does not stop adds at least one vendor *)
Lemma collect_pass_grows (n : Z) (vs : jvalue) (items : list jvalue) (pv c : list vendor) :
  (Z.of_nat (length c) < n)%Z -> py_truthy vs = true -> py_iter vs = Some items ->
  map_opt from_api_item items = Some pv ->
  (Z.of_nat (length c) < Z.of_nat (length (add_until n pv c)))%Z.
Proof.
  intros Hlt Ht Hi Hm. apply add_until_grows; [exact Hlt |].
  apply map_opt_length in Hm. intros ->. apply (py_iter_truthy _ _ Ht Hi).
  by destruct items.
Qed.

Lemma collect_loop_spec (fuel : nat) (fetch : Z -> option jvalue) (n start page : Z)
    (c c' : list vendor) :
  (start <= page)%Z -> (page - start <= Z.of_nat (length c))%Z ->
  (Z.of_nat (length c) <= Z.max n 0)%Z ->
  Forall (fun v => extra v = [] /\ url_extra v = JObj []) c ->
  collect_loop fuel fetch n page c = Some c' ->
  (Z.of_nat (length c') <= Z.max n 0)%Z /\
  Forall (fun v => extra v = [] /\ url_extra v = JObj []) c' /\
  ((n <= Z.of_nat (length c'))%Z \/
   exists p json vs, (start <= p < start + n)%Z /\ fetch p = Some json /\
     py_get_default json (str "vendors") (JArr []) = Some vs /\ py_truthy vs = false).
Proof.
  revert page c. induction fuel as [| f IH]; intros page c Hs Hp Hl Hf H; cbn [collect_loop] in H;
    [discriminate |].
  destruct (Z.ltb_spec (Z.of_nat (length c)) n) as [Hlt |]; [| injection H as <-; split; [| split]; auto].
  destruct (fetch page) as [json |] eqn:Hj; [| discriminate].
  destruct (py_get_default json (str "vendors") (JArr [])) as [vs |] eqn:Hv; [| discriminate].
  destruct (py_truthy vs) eqn:Ht; cbn [negb py_truthy length Nat.eqb] in H; rewrite ?Ht in H; cbn [negb] in H.
  - destruct (py_iter vs) as [items |] eqn:Hi; [| discriminate].
    destruct (map_opt from_api_item items) as [pv |] eqn:Hm; [| discriminate].
    pose proof (collect_pass_grows n vs items pv c Hlt Ht Hi Hm) as Hg.
    pose proof (add_until_len n pv c) as Hb.
    apply (IH (page + 1)%Z (add_until n pv c)); [lia | lia | lia | | exact H].
    apply add_until_forall; [exact Hf | exact (map_opt_from_api_item _ _ Hm)].
  - injection H as <-. split; [exact Hl |]. split; [exact Hf |]. right.
    exists page, json, vs. split; [lia |]. auto.
Qed.

Lemma py_take_list_len {A} (n : Z) (l : list A) :
  (Z.of_nat (length l) <= Z.max n 0)%Z -> (0 <= n)%Z -> py_take_list n l = l.
Proof.
  intros Hl Hn. unfold py_take_list. destruct (Z.ltb_spec n 0); [lia |].
  apply firstn_all2. lia.
Qed.

Lemma collect_vendors_inv (fetch : Z -> option jvalue) (n start : Z) (out : list (list (pystr * jvalue))) :
  collect_vendors fetch n start = Some out ->
  exists c, out = map to_dict c /\ (Z.of_nat (length c) <= Z.max n 0)%Z /\
    Forall (fun v => extra v = [] /\ url_extra v = JObj []) c /\
    ((n <= Z.of_nat (length c))%Z \/
     exists p json vs, (start <= p < start + n)%Z /\ fetch p = Some json /\
       py_get_default json (str "vendors") (JArr []) = Some vs /\ py_truthy vs = false).
Proof.
  unfold collect_vendors. intros H.
  destruct (collect_loop _ fetch n start []) as [c |] eqn:Hc; [| discriminate]. injection H as <-.
  destruct (collect_loop_spec _ fetch n start start [] c ltac:(lia) ltac:(cbn; lia) ltac:(cbn; lia)
              (Forall_nil_2 _) Hc) as (Hl & Hf & Hd).
  destruct (Z.leb_spec 0 n).
  - exists c. rewrite py_take_list_len by assumption. auto.
  - (* [n < 0]: the loop stops before fetching *)
    cbn [collect_loop length] in Hc.
    destruct (Z.ltb_spec (Z.of_nat 0) n); [lia |]. injection Hc as <-.
    exists []. split; [unfold py_take_list; destruct (n <? 0)%Z; by rewrite firstn_nil |]. split; [cbn; lia |]. split; [constructor |]. left; cbn; lia.
Qed.

(** X12.  [collect_vendors] returns at most [n] vendors, and fewer only
    when one of the pages [start_page], ..., [start_page + n - 1] came back
    with an empty or missing [vendors] list. *)
Theorem collect_vendors_count (fetch : Z -> option jvalue) (n start : Z) (out : list (list (pystr * jvalue))) :
  collect_vendors fetch n start = Some out ->
  (length out <= Z.to_nat n)%nat /\
  (length out = Z.to_nat n \/
   exists p json vs, (start <= p < start + n)%Z /\ fetch p = Some json /\
     py_get_default json (str "vendors") (JArr []) = Some vs /\ py_truthy vs = false).
Proof.
  intros H. destruct (collect_vendors_inv _ _ _ _ H) as (c & -> & Hl & _ & Hd).
  rewrite length_map. split; [lia |].
  destruct Hd as [Hd | Hd]; [left; lia | by right].
Qed.

Lemma collect_vendors_count_witness :
  exists out, collect_vendors (sample_fetch 1) 5 1 = Some out /\
  (length out <= Z.to_nat 5)%nat /\
  (length out = Z.to_nat 5 \/
   exists p json vs, (1 <= p < 1 + 5)%Z /\ sample_fetch 1 p = Some json /\
     py_get_default json (str "vendors") (JArr []) = Some vs /\ py_truthy vs = false).
Proof.
  eexists. split; [vm_compute; reflexivity |].
  apply (collect_vendors_count (sample_fetch 1) 5 1). vm_compute. reflexivity.
Defined.

(** X13.  Every dict [collect_vendors] returns has exactly the keys
    [slug], [name], [phone_number], [minimum_spend] and [url_extra], in
    that order, with [url_extra] empty: no [extra] key survives
    [to_dict] when no vendor page was fetched. *)
Theorem collect_vendors_keys (fetch : Z -> option jvalue) (n start : Z) (out : list (list (pystr * jvalue))) :
  collect_vendors fetch n start = Some out ->
  Forall (fun d => map fst d = [str "slug"; str "name"; str "phone_number"; str "minimum_spend"; str "url_extra"] /\
                   dict_lookup d (str "url_extra") = Some (JObj [])) out.
Proof.
  intros H. destruct (collect_vendors_inv _ _ _ _ H) as (c & -> & _ & Hf & _).
  apply Forall_map. eapply Forall_impl; [exact Hf |]. intros v [He Hu].
  unfold to_dict. rewrite He. cbn [fold_left]. unfold asdict. rewrite Hu.
  split; reflexivity.
Qed.

Lemma collect_vendors_keys_witness :
  exists out, collect_vendors (sample_fetch 1) 3 1 = Some out /\
  Forall (fun d => map fst d = [str "slug"; str "name"; str "phone_number"; str "minimum_spend"; str "url_extra"] /\
                   dict_lookup d (str "url_extra") = Some (JObj [])) out.
Proof.
  eexists. split; [vm_compute; reflexivity |].
  apply (collect_vendors_keys (sample_fetch 1) 3 1). vm_compute. reflexivity.
Defined.

Lemma collect_loop_local (fuel : nat) (f1 f2 : Z -> option jvalue) (n start page : Z) (c : list vendor) :
  (start <= page)%Z -> (page - start <= Z.of_nat (length c))%Z ->
  (forall p, (start <= p < start + n)%Z -> f1 p = f2 p) ->
  collect_loop fuel f1 n page c = collect_loop fuel f2 n page c.
Proof.
  intros Hs Hp Hag. revert page c Hs Hp. induction fuel as [| f IH]; intros page c Hs Hp; [reflexivity |].
  cbn [collect_loop]. destruct (Z.ltb_spec (Z.of_nat (length c)) n) as [Hlt |]; [| reflexivity].
  rewrite (Hag page) by lia.
  destruct (f2 page) as [json |]; [| reflexivity].
  destruct (py_get_default json (str "vendors") (JArr [])) as [vs |]; [| reflexivity].
  destruct (py_truthy vs) eqn:Ht; cbn [negb py_truthy length Nat.eqb]; [| reflexivity].
  destruct (py_iter vs) as [items |] eqn:Hi; [| reflexivity].
  destruct (map_opt from_api_item items) as [pv |] eqn:Hm; [| reflexivity].
  pose proof (collect_pass_grows n vs items pv c Hlt Ht Hi Hm).
  rewrite Ht. cbn [negb]. apply IH; lia.
Qed.

(** X14.  [collect_vendors(n, start_page)] requests no page outside
    [start_page], ..., [start_page + n - 1]: two page sources that agree
    there give the same result. *)
Theorem collect_vendors_local (f1 f2 : Z -> option jvalue) (n start : Z) :
  (forall p, (start <= p < start + n)%Z -> f1 p = f2 p) ->
  collect_vendors f1 n start = collect_vendors f2 n start.
Proof.
  intros Hag. unfold collect_vendors.
  rewrite (collect_loop_local _ f1 f2 n start start []); [reflexivity | lia | cbn; lia | exact Hag].
Qed.

Lemma collect_vendors_local_witness :
  (forall p, (1 <= p < 1 + 3)%Z -> sample_fetch 100 p = (fun q => if (q <=? 3)%Z then sample_fetch 100 q else None) p) /\
  collect_vendors (sample_fetch 100) 3 1 = collect_vendors (fun q => if (q <=? 3)%Z then sample_fetch 100 q else None) 3 1.
Proof.
  assert (H : forall p, (1 <= p < 1 + 3)%Z -> sample_fetch 100 p = (fun q => if (q <=? 3)%Z then sample_fetch 100 q else None) p).
  { intros p Hp. cbn beta. destruct (Z.leb_spec p 3); [reflexivity | lia]. }
  split; [exact H | exact (collect_vendors_local _ _ 3 1 H)].
Defined.

Lemma lstrip_char_spec (c : N) (s : pystr) :
  exists k, s = repeat c k ++ lstrip_char c s /\ head (lstrip_char c s) <> Some c.
Proof.
  induction s as [| d s IH]; cbn [lstrip_char].
  - exists 0%nat. split; [reflexivity | discriminate].
  - destruct (N.eqb_spec d c) as [-> | Hne].
    + destruct IH as (k & Hk & Hh). exists (S k). split; [cbn; by f_equal | exact Hh].
    + exists 0%nat. split; [reflexivity |]. cbn. congruence.
Qed.

(** X15.  [get_vendor_html(slug)] requests the base URL with all its
    trailing slashes removed, then one slash, then the slug. *)
Theorem vendor_url_shape (base slug : pystr) :
  exists b k, base = b ++ repeat 47 k /\ last b <> Some 47 /\ vendor_url base slug = b ++ 47 :: slug.
Proof.
  destruct (lstrip_char_spec 47 (rev base)) as (k & Hk & Hh).
  exists (rev (lstrip_char 47 (rev base))), k. split; [| split].
  - rewrite <- (rev_involutive base) at 1. rewrite Hk at 1. rewrite rev_app_distr, rev_repeat. reflexivity.
  - rewrite rev_alt. change (last (reverse (lstrip_char 47 (rev base))) <> Some 47). rewrite last_reverse. exact Hh.
  - reflexivity.
Qed.

(** X16.  The lenient decoder agrees with [json.loads] on every text
    [json.loads] accepts. *)
Theorem json_loads_lenient_agrees (v x : jvalue) :
  json_loads v = Some x -> json_loads_lenient v = Some x.
Proof.
  destruct v as [| | | | s | |]; try discriminate. cbn [json_loads json_loads_lenient].
  destruct (prefixb [65279] s); [discriminate |].
  destruct (raw_decode (skip_ws s)) as [[y r] |]; [| discriminate].
  destruct (skip_ws r); [exact id | discriminate].
Qed.

Lemma json_loads_lenient_agrees_witness :
  json_loads (JStr (str "[1, 2] ")) = Some (JArr [JInt 1; JInt 2]) /\
  json_loads_lenient (JStr (str "[1, 2] ")) = Some (JArr [JInt 1; JInt 2]).
Proof.
  assert (H : json_loads (JStr (str "[1, 2] ")) = Some (JArr [JInt 1; JInt 2])) by (vm_compute; reflexivity).
  split; [exact H | exact (json_loads_lenient_agrees _ _ H)].
Defined.

Lemma collect_loop_total (fuel : nat) (fetch : Z -> option jvalue) (n start page : Z) (c : list vendor) :
  (0 < fuel)%nat -> (n - Z.of_nat (length c) < Z.of_nat fuel)%Z ->
  (start <= page)%Z -> (page - start <= Z.of_nat (length c))%Z ->
  (Z.of_nat (length c) <= Z.max n 0)%Z ->
  (forall p, (start <= p < start + n)%Z -> page_ok fetch p = true) ->
  exists c', collect_loop fuel fetch n page c = Some c'.
Proof.
  intros Hf0 Hf Hs Hp Hl Hok. revert page c Hf Hs Hp Hl. induction fuel as [| f IH]; intros page c Hf Hs Hp Hl;
    [lia |].
  cbn [collect_loop]. destruct (Z.ltb_spec (Z.of_nat (length c)) n) as [Hlt |]; [| eauto].
  specialize (Hok page ltac:(lia)). unfold page_ok in Hok.
  destruct (fetch page) as [json |]; [| discriminate].
  destruct (py_get_default json (str "vendors") (JArr [])) as [vs |]; [| discriminate].
  destruct (py_truthy vs) eqn:Ht; cbn [negb py_truthy length Nat.eqb]; rewrite ?Ht; cbn [negb]; [| eauto].
  destruct (py_iter vs) as [items |] eqn:Hi; [| discriminate].
  destruct (map_opt from_api_item items) as [pv |] eqn:Hm; [| discriminate].
  pose proof (collect_pass_grows n vs items pv c Hlt Ht Hi Hm).
  pose proof (add_until_len n pv c).
  apply IH; lia.
Qed.

(** X17.  [collect_vendors(n, start_page)] ends normally whenever none of
    the pages [start_page], ..., [start_page + n - 1] raises: the loop
    always terminates, since each pass that goes on adds a vendor. *)
Theorem collect_vendors_total (fetch : Z -> option jvalue) (n start : Z) :
  (forall p, (start <= p < start + n)%Z -> page_ok fetch p = true) ->
  exists out, collect_vendors fetch n start = Some out.
Proof.
  intros Hok. unfold collect_vendors.
  destruct (collect_loop_total (S (Z.to_nat n)) fetch n start start [])
    as [c' ->]; [lia | cbn; lia | lia | cbn; lia | cbn; lia | exact Hok |].
  eauto.
Qed.

Lemma collect_vendors_total_witness :
  (forall p, (1 <= p < 1 + 7)%Z -> page_ok (sample_fetch 3) p = true) /\
  exists out, collect_vendors (sample_fetch 3) 7 1 = Some out.
Proof.
  assert (H : forall p, (1 <= p < 1 + 7)%Z -> page_ok (sample_fetch 3) p = true).
  { intros p Hp. unfold page_ok, sample_fetch. destruct (Z.leb_spec p 3); vm_compute; reflexivity. }
  split; [exact H | exact (collect_vendors_total _ 7 1 H)].
Defined.
